(** * F1 Season Tracker: the standings and scoring engine

    A shallow embedding of the scoring code of the two application files,
    [src/App.jsx] (single season) and the multi-season application with
    analytics, and the properties of it that the specification states.

    Conventions of the embedding.
    - JavaScript numbers are restricted to the integers ([Z]) plus [NaN];
      fractional positions and the infinities are outside the model.
    - Identifiers are strings.  A [Map] is a [gmap string _].  A plain
      object is the [gmap string _] of its own properties together with the
      properties every object inherits from [Object.prototype]: the object
      in which [buildStandings] groups the results is read at the identifiers
      of the events, and a read at the name of an inherited property ends in
      a [TypeError].  The functions [groupByEvent], [scoreEvent], [aggregate]
      and [buildStandings] give what the code computes when it returns; the
      module [Exec] gives the same code with the [TypeError], and
      [buildStandings_returns] says when it returns.
    - [Array.prototype.sort] is the stable sort by a comparator; it is
      modelled by a stable insertion sort.
    - [String.prototype.localeCompare] and the conversion of a string to a
      number are operations of the host: they are fields of the class
      [Host], with the laws of a consistent comparator. *)

From Stdlib Require Import ZArith Lia Ascii String Sorted Permutation.
From stdpp Require Import gmap strings list fin_maps pretty.

Local Open Scope string_scope.
Local Open Scope list_scope.
Local Open Scope Z_scope.

(** ** JavaScript values and coercions *)

Module Js.

(** A number: an integer or [NaN]. *)
Inductive Num : Type :=
  | NaN
  | Int (z : Z).

(** The values a field of a parsed JSON record can hold.  [VUndefined] is a
    missing field; [VObject n] is an array or an object, with the number [n]
    it converts to. *)
Inductive Val : Type :=
  | VUndefined
  | VNull
  | VBool (b : bool)
  | VNum (n : Num)
  | VStr (s : string)
  | VObject (n : Num).

(** The operations of the host.  [localeCompare a b] is negative, zero or
    positive, and is a consistent comparator; [StringToNumber] is [Number]
    applied to a string. *)
Class Host : Type := {
  localeCompare : string → string → Z;
  StringToNumber : string → Num;
  localeCompare_sgn : ∀ a b,
    Z.sgn (localeCompare b a) = - Z.sgn (localeCompare a b);
  localeCompare_trans : ∀ a b c,
    localeCompare a b <= 0 → localeCompare b c <= 0 → localeCompare a c <= 0;
}.

(** [Number(v)] *)
Definition ToNumber `{Host} (v : Val) : Num :=
  match v with
  | VUndefined => NaN
  | VNull => Int 0
  | VBool b => Int (if b then 1 else 0)
  | VNum n => n
  | VStr s => StringToNumber s
  | VObject n => n
  end.

(** [!!v] *)
Definition ToBoolean (v : Val) : bool :=
  match v with
  | VUndefined | VNull => false
  | VBool b => b
  | VNum NaN => false
  | VNum (Int z) => negb (z =? 0)
  | VStr s => negb (String.eqb s "")
  | VObject _ => true
  end.

(** [v === s] for a string literal [s] *)
Definition strictEqStr (v : Val) (s : string) : bool :=
  match v with
  | VStr t => String.eqb t s
  | _ => false
  end.

(** [n || d] on numbers: [0] and [NaN] are falsy. *)
Definition numOr (n : Num) (d : Z) : Z :=
  match n with
  | NaN => d
  | Int z => if z =? 0 then d else z
  end.

(** [x || y] on integers, as the comparators chain their keys. *)
Definition orElse (x y : Z) : Z := if x =? 0 then y else x.

(** [a[i]]: [None] is [undefined], the result of a read out of range. *)
Definition index {A} (a : list A) (i : Z) : option A :=
  if i <? 0 then None else a !! Z.to_nat i.

(** *** [Array.prototype.sort(cmp)]

    The sort is stable.  [sortInsert] puts [x] in front of the first element
    it does not follow, and [sort] inserts the elements from the last to the
    first, so that elements that compare equal keep their order. *)
Fixpoint sortInsert {A} (cmp : A → A → Z) (x : A) (l : list A) : list A :=
  match l with
  | [] => [x]
  | y :: l' => if cmp x y <=? 0 then x :: l else y :: sortInsert cmp x l'
  end.

Definition sort {A} (cmp : A → A → Z) (l : list A) : list A :=
  foldr (sortInsert cmp) [] l.

(** A comparator is consistent when it is antisymmetric in sign and its
    non-positive results are transitive: the comparators for which the
    language defines the result of [Array.prototype.sort]. *)
Class Consistent {A} (cmp : A → A → Z) : Prop := {
  cmp_sgn : ∀ a b, Z.sgn (cmp b a) = - Z.sgn (cmp a b);
  cmp_trans : ∀ a b c, cmp a b <= 0 → cmp b c <= 0 → cmp a c <= 0;
}.

End Js.

Import Js.

(** ** The points tables *)

Definition RACE_POINTS : list Z := [25; 18; 15; 12; 10; 8; 6; 4; 2; 1].
Definition SPRINT_POINTS : list Z := [8; 7; 6; 5; 4; 3; 2; 1].

(** [computePointsFor(position, type)].  Both reads are guarded, so the
    default of [nth] (where JavaScript has [undefined]) is never returned. *)
Definition computePointsFor (position : Z) (type : string) : Z :=
  if String.eqb type "Sprint"
  then if (1 <=? position) && (position <=? Z.of_nat (length SPRINT_POINTS))
       then nth (Z.to_nat (position - 1)) SPRINT_POINTS 0 else 0
  else if (1 <=? position) && (position <=? Z.of_nat (length RACE_POINTS))
       then nth (Z.to_nat (position - 1)) RACE_POINTS 0 else 0.

(** ** The records *)

(** Team: [{ id, name, color }] *)
Module Team.
Record t : Type := mk { id : string; name : string; color : string }.
End Team.

(** Driver: [{ id, name, country, teamId }]; the empty [teamId] is a driver
    without a team. *)
Module Driver.
Record t : Type :=
  mk { id : string; name : string; country : string; teamId : string }.
End Driver.

(** Event: [{ id, name, round, date, type }] with [type] ['GP'] or
    ['Sprint']. *)
Module Event.
Record t : Type :=
  mk { id : string; name : string; round : Z; date : string; type : string }.
End Event.

(** The status of a result: ['FIN'], ['DNF'], ['DNS']. *)
Inductive Status : Type := FIN | DNF | DNS.

Definition statusString (s : Status) : string :=
  match s with FIN => "FIN" | DNF => "DNF" | DNS => "DNS" end.

(** A result as it is read from a form, a file or the store, before
    normalisation: the identifiers are strings, the other fields any
    value. *)
Module RawResult.
Record t : Type :=
  mk { eventId : string; driverId : string;
       position : Val; status : Val; fastestLap : Val }.
End RawResult.

(** ResultEntry: [{ eventId, driverId, position, status, fastestLap }] *)
Module ResultEntry.
Record t : Type :=
  mk { eventId : string; driverId : string;
       position : Z; status : Status; fastestLap : bool }.

(** A result entry read again as a raw record. *)
Definition toRaw (r : t) : RawResult.t :=
  RawResult.mk (eventId r) (driverId r) (VNum (Int (position r)))
               (VStr (statusString (status r))) (VBool (fastestLap r)).

(** The natural key of a result. *)
Definition key (r : t) : string * string := (eventId r, driverId r).
End ResultEntry.

(** ** [normalizeResults] *)

Section Normalizer.
Context `{Host}.

(** The record built by the [map] callback of [normalizeResults]. *)
Definition normalizeEntry (r : RawResult.t) : ResultEntry.t :=
  {| ResultEntry.eventId := RawResult.eventId r;
     ResultEntry.driverId := RawResult.driverId r;
     ResultEntry.position :=
       Z.max 1 (numOr (ToNumber (RawResult.position r)) 1);
     ResultEntry.status :=
       if strictEqStr (RawResult.status r) "DNF" then DNF
       else if strictEqStr (RawResult.status r) "DNS" then DNS
       else FIN;
     ResultEntry.fastestLap := ToBoolean (RawResult.fastestLap r) |}.

(** The comparator of [normalizeResults]:
    [a.eventId.localeCompare(b.eventId) || a.position - b.position] *)
Definition compareEntries (a b : ResultEntry.t) : Z :=
  orElse (localeCompare (ResultEntry.eventId a) (ResultEntry.eventId b))
         (ResultEntry.position a - ResultEntry.position b).

(** [normalizeResults(list)]: [list.map(r => ({...})).sort(...)] *)
Definition normalizeResults (rawList : list RawResult.t)
    : list ResultEntry.t :=
  sort compareEntries (map normalizeEntry rawList).

(** [bulkReplaceEventResults(eventId, entries)], as a function of the
    stored results [prev]:
    [normalizeResults([...prev.filter(r => r.eventId !== eventId), ...entries])] *)
Definition bulkReplaceEventResults (eventId : string)
    (entries prev : list RawResult.t) : list ResultEntry.t :=
  normalizeResults
    (filter (λ r, RawResult.eventId r ≠ eventId) prev ++ entries).
End Normalizer.

(** ** Saving the entry grid *)

(** The application files differ in the podium test of [buildStandings] and
    in the fastest-lap flag of a grid row. *)
Inductive Version : Type :=
  | SingleSeason   (* src/App.jsx *)
  | MultiSeason.   (* the multi-season application with analytics *)

(** A row of the entry grid: [{ driverId, position, status, fastestLap }];
    a row without a driver has the empty [driverId]. *)
Module GridRow.
Record t : Type :=
  mk { driverId : string; position : Val; status : Val; fastestLap : Val }.
End GridRow.

(** The loop of [saveAll] over the filled rows with the set [seen]: [true]
    when a driver is met twice, where [saveAll] alerts and returns. *)
Fixpoint duplicateDriver (seen : gset string) (filled : list GridRow.t)
    : bool :=
  match filled with
  | [] => false
  | g :: rest =>
      if decide (GridRow.driverId g ∈ seen) then true
      else duplicateDriver ({[GridRow.driverId g]} ∪ seen) rest
  end.

(** The entry [saveAll] builds from a filled row. *)
Definition gridEntry (v : Version) (currentEvent : Event.t) (g : GridRow.t)
    : RawResult.t :=
  {| RawResult.eventId := Event.id currentEvent;
     RawResult.driverId := GridRow.driverId g;
     RawResult.position := GridRow.position g;
     RawResult.status := GridRow.status g;
     RawResult.fastestLap :=
       match v with
       | SingleSeason => VBool false
       | MultiSeason =>
           if ToBoolean (GridRow.fastestLap g) then GridRow.fastestLap g
           else VBool false
       end |}.

(** [entries[idx].fastestLap = true] at the first index [idx] of an entry of
    the driver, if there is one. *)
Fixpoint markFastestLap (driverId : string) (entries : list RawResult.t)
    : list RawResult.t :=
  match entries with
  | [] => []
  | e :: rest =>
      if String.eqb (RawResult.driverId e) driverId
      then RawResult.mk (RawResult.eventId e) (RawResult.driverId e)
                        (RawResult.position e) (RawResult.status e)
                        (VBool true) :: rest
      else e :: markFastestLap driverId rest
  end.

(** [saveAll] of the entry panel, as a function of the stored results
    [prev]: the stored results after the call, or [None] when the call
    returns without storing (no current event, or a driver twice in the
    grid). *)
Definition saveAll `{Host} (v : Version) (currentEvent : option Event.t)
    (fastestLapDriverId : string) (grid : list GridRow.t)
    (prev : list RawResult.t) : option (list ResultEntry.t) :=
  match currentEvent with
  | None => None
  | Some ev =>
      let filled := filter (λ g, GridRow.driverId g ≠ "") grid in
      if duplicateDriver ∅ filled then None
      else
        let entries := map (gridEntry v ev) filled in
        let entries :=
          if String.eqb (Event.type ev) "GP"
             && negb (String.eqb fastestLapDriverId "")
          then markFastestLap fastestLapDriverId entries
          else entries in
        Some (bulkReplaceEventResults (Event.id ev) entries prev)
  end.

(** ** Scoring one result *)

(** [a.position - b.position], the comparator of one event's entries *)
Definition comparePositions (a b : ResultEntry.t) : Z :=
  ResultEntry.position a - ResultEntry.position b.

(** [r.status === 'FIN' ? computePointsFor(r.position, e.type) : 0] *)
Definition basePts (e : Event.t) (r : ResultEntry.t) : Z :=
  match ResultEntry.status r with
  | FIN => computePointsFor (ResultEntry.position r) (Event.type e)
  | _ => 0
  end.

(** [(e.type === 'GP' && r.fastestLap && r.position <= 10) ? 1 : 0] *)
Definition flBonus (e : Event.t) (r : ResultEntry.t) : Z :=
  if String.eqb (Event.type e) "GP" && ResultEntry.fastestLap r
     && (ResultEntry.position r <=? 10)
  then 1 else 0.

(** [pts = basePts + flBonus] *)
Definition entryPts (e : Event.t) (r : ResultEntry.t) : Z :=
  basePts e r + flBonus e r.

(** The outcome records of [scoreEventEntries]. *)
Module ScoredOutcome.
Record t : Type :=
  mk { driverId : string; pts : Z; pos : Z; status : Status;
       fastestLapApplied : bool }.
End ScoredOutcome.

(** [scoreEventEntries(event, entries)] of the analytics:
    [entries.slice().sort((a,b)=>a.position-b.position).map(r => ...)] *)
Definition scoreEventEntries (event : Event.t) (entries : list ResultEntry.t)
    : list ScoredOutcome.t :=
  map (λ r,
         let base := basePts event r in
         let fl := flBonus event r in
         {| ScoredOutcome.driverId := ResultEntry.driverId r;
            ScoredOutcome.pts := base + fl;
            ScoredOutcome.pos := ResultEntry.position r;
            ScoredOutcome.status := ResultEntry.status r;
            ScoredOutcome.fastestLapApplied := negb (fl =? 0) |})
      (sort comparePositions entries).

(** ** [buildStandings] *)

(** The podium test of [buildStandings]. *)
Definition isPodium (v : Version) (position : Z) : bool :=
  match v with
  | SingleSeason => (1 <=? position) && (position <=? 3)
  | MultiSeason => position <=? 3
  end.

(** The value type of the map [driverStats]. *)
Module Stats.
Record t : Type :=
  mk { points : Z; wins : Z; podiums : Z; bestFinish : Z;
       finishes : list Z }.

(** [{ points: 0, wins: 0, podiums: 0, bestFinish: 99, finishes: [] }] *)
Definition init : t := mk 0 0 0 99 [].
End Stats.

(** A row of the driver table: [{ driver: d, ...driverStats.get(d.id) }] *)
Module DriverRow.
Record t : Type := mk { driver : Driver.t; stats : Stats.t }.
Definition points (r : t) : Z := Stats.points (stats r).
Definition wins (r : t) : Z := Stats.wins (stats r).
Definition podiums (r : t) : Z := Stats.podiums (stats r).
Definition bestFinish (r : t) : Z := Stats.bestFinish (stats r).
Definition finishes (r : t) : list Z := Stats.finishes (stats r).
End DriverRow.

(** A row of the team table: [{ team: t, points }] *)
Module TeamRow.
Record t : Type := mk { team : Team.t; points : Z }.
End TeamRow.

(** The result of [buildStandings]: [{ drivers, teams }] *)
Module Standings.
Record t : Type := mk { drivers : list DriverRow.t; teams : list TeamRow.t }.
End Standings.

(** [Object.fromEntries(drivers.map(d => [d.id, d]))], the [driverById] the
    application passes to [buildStandings]: a later driver with the same id
    overwrites an earlier one. *)
Definition driverByIdOf (drivers : list Driver.t) : gmap string Driver.t :=
  fold_left (λ acc d, <[Driver.id d := d]> acc) drivers ∅.

Section Standings.
Context `{Host}.

(** [driverCompare]: points desc, wins desc, podiums desc, bestFinish asc,
    name asc. *)
Definition driverCompare (a b : DriverRow.t) : Z :=
  orElse (DriverRow.points b - DriverRow.points a)
    (orElse (DriverRow.wins b - DriverRow.wins a)
       (orElse (DriverRow.podiums b - DriverRow.podiums a)
          (orElse (DriverRow.bestFinish a - DriverRow.bestFinish b)
             (localeCompare (Driver.name (DriverRow.driver a))
                            (Driver.name (DriverRow.driver b)))))).

(** [b.points - a.points || a.team.name.localeCompare(b.team.name)] *)
Definition teamCompare (a b : TeamRow.t) : Z :=
  orElse (TeamRow.points b - TeamRow.points a)
    (localeCompare (Team.name (TeamRow.team a)) (Team.name (TeamRow.team b))).

(** The two maps the loops of [buildStandings] update. *)
Definition Acc : Type := gmap string Stats.t * gmap string Z.

(** [for (const d of drivers) driverStats.set(d.id, {...})] *)
Definition initDriverStats (drivers : list Driver.t) : gmap string Stats.t :=
  fold_left (λ m d, <[Driver.id d := Stats.init]> m) drivers ∅.

(** [for (const t of teams) teamPoints.set(t.id, 0)] *)
Definition initTeamPoints (teams : list Team.t) : gmap string Z :=
  fold_left (λ m t, <[Team.id t := 0]> m) teams ∅.

(** The own properties of the object [resultsByEvent] when the reduce
    [results.reduce((acc, r) => { (acc[r.eventId] ||= []).push(r); return acc; }, {})]
    returns, which it does when no [eventId] is the name of an inherited
    property; [Exec.groupByEvent] is the reduce with its [TypeError]. *)
Definition groupByEvent (results : list ResultEntry.t)
    : gmap string (list ResultEntry.t) :=
  fold_left
    (λ acc r, <[ResultEntry.eventId r :=
                  default [] (acc !! ResultEntry.eventId r) ++ [r]]> acc)
    results ∅.

(** The updates of the statistics [d] of a driver in the inner loop:
    [d.points += pts], [if (r.position === 1) d.wins += 1], the podium test
    with [d.podiums += 1], [d.bestFinish = Math.min(d.bestFinish, r.position)]
    and [d.finishes.push(r.position)]. *)
Definition recordResult (v : Version) (e : Event.t) (r : ResultEntry.t)
    (d : Stats.t) : Stats.t :=
  let pts := entryPts e r in
  {| Stats.points := Stats.points d + pts;
     Stats.wins :=
       if ResultEntry.position r =? 1 then Stats.wins d + 1
       else Stats.wins d;
     Stats.podiums :=
       if isPodium v (ResultEntry.position r) then Stats.podiums d + 1
       else Stats.podiums d;
     Stats.bestFinish := Z.min (Stats.bestFinish d) (ResultEntry.position r);
     Stats.finishes := Stats.finishes d ++ [ResultEntry.position r] |}.

(** The body of the inner loop, [for (const r of entries) { ... }]:
    [if (!driverStats.has(r.driverId)) continue], the updates of the
    statistics of the driver, and for the team
    [const drv = driverById[r.driverId];
     if (drv?.teamId) teamPoints.set(drv.teamId, (teamPoints.get(drv.teamId) || 0) + pts)].
    [driverById] is the map of the own properties of the object: a read at
    the name of an inherited property gives a value without a [teamId], and
    the team is skipped as it is when there is no property. *)
Definition scoreEntry (v : Version) (driverById : gmap string Driver.t)
    (e : Event.t) (acc : Acc) (r : ResultEntry.t) : Acc :=
  let '(driverStats, teamPoints) := acc in
  match driverStats !! ResultEntry.driverId r with
  | None => acc                                   (* continue *)
  | Some d =>
      let pts := entryPts e r in
      let driverStats' :=
        <[ResultEntry.driverId r := recordResult v e r d]> driverStats in
      match driverById !! ResultEntry.driverId r with
      | Some drv =>
          if negb (String.eqb (Driver.teamId drv) "")
          then (driverStats',
                <[Driver.teamId drv :=
                    default 0 (teamPoints !! Driver.teamId drv) + pts]>
                  teamPoints)
          else (driverStats', teamPoints)
      | None => (driverStats', teamPoints)
      end
  end.

(** The body of the outer loop, [for (const e of events) { ... }], with
    [entries = (resultsByEvent[e.id] || []).slice().sort((a,b)=>a.position-b.position)],
    when [e.id] is not the name of an inherited property; [Exec.scoreEvent]
    is the body with its [TypeError]. *)
Definition scoreEvent (v : Version) (driverById : gmap string Driver.t)
    (resultsByEvent : gmap string (list ResultEntry.t))
    (acc : Acc) (e : Event.t) : Acc :=
  let entries :=
    sort comparePositions (default [] (resultsByEvent !! Event.id e)) in
  fold_left (scoreEntry v driverById e) entries acc.

(** The maps [driverStats] and [teamPoints] after the loops, when they
    complete. *)
Definition aggregate (v : Version) (drivers : list Driver.t)
    (teams : list Team.t) (events : list Event.t)
    (results : list ResultEntry.t) (driverById : gmap string Driver.t)
    : Acc :=
  fold_left (scoreEvent v driverById (groupByEvent results)) events
            (initDriverStats drivers, initTeamPoints teams).

(** [{ driver: d, ...driverStats.get(d.id) }].  Every driver of the list
    has an entry in [driverStats] (see [aggregate_lookup_driver]), so the
    default, which stands for a row without statistics, is never used. *)
Definition driverRow (driverStats : gmap string Stats.t) (d : Driver.t)
    : DriverRow.t :=
  DriverRow.mk d (default Stats.init (driverStats !! Driver.id d)).

(** [{ team: t, points: teamPoints.get(t.id) || 0 }] *)
Definition teamRow (teamPoints : gmap string Z) (t : Team.t) : TeamRow.t :=
  TeamRow.mk t (default 0 (teamPoints !! Team.id t)).

(** The tables [buildStandings({ drivers, teams, events, results, driverById })]
    returns; [Exec.buildStandings] is the function with its [TypeError]. *)
Definition buildStandings (v : Version) (drivers : list Driver.t)
    (teams : list Team.t) (events : list Event.t)
    (results : list ResultEntry.t) (driverById : gmap string Driver.t)
    : Standings.t :=
  let '(driverStats, teamPoints) :=
    aggregate v drivers teams events results driverById in
  {| Standings.drivers :=
       sort driverCompare (map (driverRow driverStats) drivers);
     Standings.teams := sort teamCompare (map (teamRow teamPoints) teams) |}.
End Standings.

(** ** [buildStandings] as it runs

    [buildStandings] keeps the statistics and the points in [Map]s and
    groups the results in a plain object, [{}].  A read [obj[k]] of a plain
    object finds the own property [k] or else the property [k] of
    [Object.prototype]. *)

(** The names of the properties of [Object.prototype], those of Annex B of
    the language standard, which browsers implement, included. *)
Definition objectPrototypeNames : list string :=
  ["constructor"; "hasOwnProperty"; "isPrototypeOf"; "propertyIsEnumerable";
   "toLocaleString"; "toString"; "valueOf"; "__proto__"; "__defineGetter__";
   "__defineSetter__"; "__lookupGetter__"; "__lookupSetter__"].

(** What a read [obj[k]] of the object with the own properties [own]
    finds. *)
Inductive Property (A : Type) : Type :=
  | Own (a : A)   (* the own property *)
  | Inherited     (* a function of [Object.prototype], or for [__proto__]
                     the object [Object.prototype] itself *)
  | Missing.      (* [undefined] *)
Arguments Own {A} a.
Arguments Inherited {A}.
Arguments Missing {A}.

Definition getProperty {A} (own : gmap string A) (k : string) : Property A :=
  match own !! k with
  | Some a => Own a
  | None => if decide (k ∈ objectPrototypeNames) then Inherited else Missing
  end.

(** The result of code that returns or throws a [TypeError]. *)
Inductive Completion (A : Type) : Type :=
  | Normal (a : A)
  | Throw.
Arguments Normal {A} a.
Arguments Throw {A}.

Definition andThen {A B} (c : Completion A) (f : A → Completion B)
    : Completion B :=
  match c with
  | Normal a => f a
  | Throw => Throw
  end.

(** A loop, or a [reduce], whose body may throw. *)
Fixpoint foldCompletion {A B} (f : A → B → Completion A) (l : list B) (a : A)
    : Completion A :=
  match l with
  | [] => Normal a
  | x :: rest => andThen (f a x) (foldCompletion f rest)
  end.

Module Exec.
Section Exec.
Context `{Host}.

(** The callback of the reduce, [(acc[r.eventId] ||= []).push(r); return acc]:
    an own property is an array, and [r] is pushed to it; where there is no
    property, [[]] is assigned and [r] pushed to it; an inherited value is
    truthy, so nothing is assigned, and it has no [push]: the call throws. *)
Definition groupStep (acc : gmap string (list ResultEntry.t))
    (r : ResultEntry.t) : Completion (gmap string (list ResultEntry.t)) :=
  match getProperty acc (ResultEntry.eventId r) with
  | Own group => Normal (<[ResultEntry.eventId r := group ++ [r]]> acc)
  | Missing => Normal (<[ResultEntry.eventId r := [r]]> acc)
  | Inherited => Throw
  end.

(** [results.reduce((acc, r) => { (acc[r.eventId] ||= []).push(r); return acc; }, {})] *)
Definition groupByEvent (results : list ResultEntry.t)
    : Completion (gmap string (list ResultEntry.t)) :=
  foldCompletion groupStep results ∅.

(** The body of the outer loop, [for (const e of events) { ... }]:
    [const entries = (resultsByEvent[e.id] || []).slice().sort((a,b)=>a.position-b.position)]
    and the inner loop.  An inherited value is truthy and has no [slice]:
    the call throws. *)
Definition scoreEvent (v : Version) (driverById : gmap string Driver.t)
    (resultsByEvent : gmap string (list ResultEntry.t))
    (acc : Acc) (e : Event.t) : Completion Acc :=
  match getProperty resultsByEvent (Event.id e) with
  | Own group =>
      Normal (fold_left (scoreEntry v driverById e)
                        (sort comparePositions group) acc)
  | Missing =>
      Normal (fold_left (scoreEntry v driverById e)
                        (sort comparePositions []) acc)
  | Inherited => Throw
  end.

(** The maps [driverStats] and [teamPoints] after the reduce and the
    loops. *)
Definition aggregate (v : Version) (drivers : list Driver.t)
    (teams : list Team.t) (events : list Event.t)
    (results : list ResultEntry.t) (driverById : gmap string Driver.t)
    : Completion Acc :=
  let init := (initDriverStats drivers, initTeamPoints teams) in
  andThen (groupByEvent results)
          (λ resultsByEvent,
             foldCompletion (scoreEvent v driverById resultsByEvent) events
                            init).

(** [buildStandings({ drivers, teams, events, results, driverById })] *)
Definition buildStandings (v : Version) (drivers : list Driver.t)
    (teams : list Team.t) (events : list Event.t)
    (results : list ResultEntry.t) (driverById : gmap string Driver.t)
    : Completion Standings.t :=
  andThen (aggregate v drivers teams events results driverById)
          (λ '(driverStats, teamPoints),
             Normal
               {| Standings.drivers :=
                    sort driverCompare (map (driverRow driverStats) drivers);
                  Standings.teams :=
                    sort teamCompare (map (teamRow teamPoints) teams) |}).
End Exec.
End Exec.

(** ** A host for evaluation

    Strings are compared by their code units, and a string converts to a
    number when it is empty or a decimal integer literal. *)

Definition codeUnitCompare (a b : string) : Z :=
  match String.compare a b with
  | Lt => -1
  | Eq => 0
  | Gt => 1
  end.

Fixpoint decimalDigits (s : string) (acc : Z) : Num :=
  match s with
  | EmptyString => Int acc
  | String c s' =>
      let n := Z.of_nat (nat_of_ascii c) in
      if (48 <=? n) && (n <=? 57) then decimalDigits s' (10 * acc + (n - 48))
      else NaN
  end.

Definition decimalToNumber (s : string) : Num :=
  match s with
  | EmptyString => Int 0
  | String "-"%char EmptyString => NaN
  | String "-"%char s' =>
      match decimalDigits s' 0 with
      | Int z => Int (- z)
      | NaN => NaN
      end
  | _ => decimalDigits s 0
  end.

(** * Properties *)

(** ** The stable sort *)

(** Case analysis on every test [_ <=? _] of the goal. *)
Ltac split_leb :=
  repeat match goal with
         | |- context [?a <=? ?b] => destruct (Z.leb_spec a b); simpl
         end.

Section SortTheory.
Context {A : Type} (cmp : A → A → Z).

(** [a] does not follow [b]. *)
Definition cmpLe (a b : A) : Prop := cmp a b <= 0.

(** [a] and [b] tie. *)
Definition cmpTie (a b : A) : Prop := cmp a b = 0.

Lemma sortInsert_Permutation x l : sortInsert cmp x l ≡ₚ x :: l.
Proof.
  induction l as [|y l IH]; simpl; [done|].
  destruct (cmp x y <=? 0); [done|].
  rewrite IH. apply Permutation_swap.
Qed.

Lemma sort_Permutation l : sort cmp l ≡ₚ l.
Proof.
  induction l as [|x l IH]; simpl; [done|].
  rewrite sortInsert_Permutation. by rewrite IH.
Qed.

Lemma sort_length l : length (sort cmp l) = length l.
Proof. apply Permutation_length, sort_Permutation. Qed.

Lemma sortInsert_head x l : Forall (cmpLe x) l → sortInsert cmp x l = x :: l.
Proof.
  destruct 1 as [|y l Hxy _]; simpl; [done|].
  unfold cmpLe in Hxy. apply Z.leb_le in Hxy. by rewrite Hxy.
Qed.

(** A sorted array is left as it is. *)
Lemma sort_sorted_id l : StronglySorted cmpLe l → sort cmp l = l.
Proof.
  induction 1 as [|x l Hs IH Hx]; simpl; [done|].
  rewrite IH. by apply sortInsert_head.
Qed.

Section Consistent.
Context `{!Consistent cmp}.

Lemma cmp_refl a : cmp a a = 0.
Proof. pose proof (cmp_sgn a a). lia. Qed.

Lemma cmp_total a b : ¬ cmp a b <= 0 → cmp b a <= 0.
Proof. pose proof (cmp_sgn a b). lia. Qed.

Lemma cmpTie_sym a b : cmpTie a b → cmpTie b a.
Proof. unfold cmpTie. pose proof (cmp_sgn a b). lia. Qed.

Lemma cmpTie_le a b : cmpTie a b ↔ cmpLe a b ∧ cmpLe b a.
Proof. unfold cmpTie, cmpLe. pose proof (cmp_sgn a b). lia. Qed.

Lemma cmpTie_trans a b c : cmpTie a b → cmpTie b c → cmpTie a c.
Proof.
  rewrite !cmpTie_le. intros [??] [??].
  split; eapply cmp_trans; eauto.
Qed.

Lemma cmpLe_tie_r a b b' : cmpTie b b' → cmpLe a b ↔ cmpLe a b'.
Proof.
  rewrite cmpTie_le. intros [??].
  split; intros; eapply cmp_trans; eauto.
Qed.

Lemma cmpLe_tie_l a a' b : cmpTie a a' → cmpLe a b ↔ cmpLe a' b.
Proof.
  rewrite cmpTie_le. intros [??].
  split; intros; eapply cmp_trans; eauto.
Qed.

Lemma sortInsert_sorted x l :
  StronglySorted cmpLe l → StronglySorted cmpLe (sortInsert cmp x l).
Proof.
  induction 1 as [|y l Hs IH Hy]; simpl.
  - repeat constructor.
  - destruct (cmp x y <=? 0) eqn:E.
    + apply Z.leb_le in E. constructor; [by constructor|].
      constructor; [done|].
      eapply Forall_impl; [exact Hy|].
      intros z Hz. by eapply cmp_trans.
    + apply Z.leb_gt in E. constructor; [done|].
      rewrite sortInsert_Permutation. constructor; [|done].
      apply cmp_total. lia.
Qed.

(** The result of the sort is sorted. *)
Lemma sort_sorted l : StronglySorted cmpLe (sort cmp l).
Proof.
  induction l; simpl; [constructor|]. by apply sortInsert_sorted.
Qed.

(** Sorting twice is sorting once. *)
Lemma sort_idempotent l : sort cmp (sort cmp l) = sort cmp l.
Proof. apply sort_sorted_id, sort_sorted. Qed.

(** Sorting commutes with the removal of elements. *)
Lemma filter_sortInsert (P : A → Prop) `{!∀ x, Decision (P x)} x l :
  StronglySorted cmpLe l →
  filter P (sortInsert cmp x l) =
    if decide (P x) then sortInsert cmp x (filter P l) else filter P l.
Proof.
  induction 1 as [|y l Hs IH Hy]; simpl.
  - rewrite filter_cons, filter_nil. by destruct (decide (P x)).
  - destruct (cmp x y <=? 0) eqn:E.
    + rewrite filter_cons. destruct (decide (P x)); [|done].
      symmetry. apply sortInsert_head.
      apply Z.leb_le in E. apply Forall_forall.
      intros z [_ Hz]%list_elem_of_filter.
      apply elem_of_cons in Hz as [->|Hz]; [done|].
      rewrite Forall_forall in Hy. eapply cmp_trans; [exact E|].
      by apply Hy.
    + rewrite !(filter_cons _ y), IH.
      destruct (decide (P y)), (decide (P x)); simpl; by rewrite ?E.
Qed.

Lemma filter_sort (P : A → Prop) `{!∀ x, Decision (P x)} l :
  filter P (sort cmp l) = sort cmp (filter P l).
Proof.
  induction l as [|x l IH]; simpl; [done|].
  rewrite filter_sortInsert by apply sort_sorted.
  rewrite filter_cons, IH. by destruct (decide (P x)).
Qed.

Lemma sortInsert_tie x l1 l2 :
  Forall2 cmpTie l1 l2 →
  Forall2 cmpTie (sortInsert cmp x l1) (sortInsert cmp x l2).
Proof.
  induction 1 as [|y1 y2 l1 l2 Hy Hl IH]; simpl.
  - repeat constructor. apply cmp_refl.
  - pose proof (cmpLe_tie_r x _ _ Hy) as Hiff. unfold cmpLe in Hiff.
    destruct (cmp x y1 <=? 0) eqn:E1, (cmp x y2 <=? 0) eqn:E2;
      try (apply Z.leb_le in E1); try (apply Z.leb_le in E2);
      try (apply Z.leb_gt in E1); try (apply Z.leb_gt in E2); try lia.
    + constructor; [apply cmp_refl|]. by constructor.
    + by constructor.
Qed.

Lemma Forall2_cmpTie_refl l : Forall2 cmpTie l l.
Proof. induction l; constructor; [apply cmp_refl|done]. Qed.

Lemma sortInsert_swap x y l :
  Forall2 cmpTie (sortInsert cmp x (sortInsert cmp y l))
                 (sortInsert cmp y (sortInsert cmp x l)).
Proof.
  pose proof (cmp_sgn x y). pose proof (cmp_refl x). pose proof (cmp_refl y).
  induction l as [|z l IH]; simpl.
  - split_leb; try lia;
      repeat first [apply Forall2_cmpTie_refl
                   | constructor; [unfold cmpTie; lia|]].
  - pose proof (cmp_trans x y z). pose proof (cmp_trans y x z).
    pose proof (cmp_refl z).
    split_leb; try lia;
      repeat first [apply Forall2_cmpTie_refl | exact IH
                   | constructor; [unfold cmpTie; lia|]].
Qed.

(** The order of the result depends on the input order only through
    ties: two arrays with the same elements are sorted to arrays that
    tie position by position. *)
Lemma sort_Permutation_tie l1 l2 :
  l1 ≡ₚ l2 → Forall2 cmpTie (sort cmp l1) (sort cmp l2).
Proof.
  induction 1 as [|x l1 l2 _ IH|x y l|l1 l2 l3 _ IH1 _ IH2]; simpl.
  - constructor.
  - by apply sortInsert_tie.
  - apply sortInsert_swap.
  - eapply Forall2_trans; [|exact IH1|exact IH2].
    apply cmpTie_trans.
Qed.
(** The sort is stable: the elements that tie with [x] are in the result in
    the order they have in the input. *)
Lemma sort_stable x l :
  filter (λ y, cmp x y = 0) (sort cmp l) = filter (λ y, cmp x y = 0) l.
Proof.
  rewrite filter_sort. apply sort_sorted_id.
  assert (Forall (λ y, cmp x y = 0) (filter (λ y, cmp x y = 0) l)) as Hall.
  { apply Forall_forall. by intros y [? _]%list_elem_of_filter. }
  induction Hall as [|y k Hy Hk IH]; constructor; [done|].
  eapply Forall_impl; [exact Hk|]. intros z Hz.
  assert (cmpTie y z) as Hyz
    by (eapply cmpTie_trans; [apply cmpTie_sym; exact Hy|exact Hz]).
  by apply cmpTie_le in Hyz as [? _].
Qed.

(** A sorted array is determined by the order of its elements within each
    class of ties. *)
Lemma sorted_stable_unique l1 l2 :
  StronglySorted cmpLe l1 → StronglySorted cmpLe l2 →
  (∀ x, filter (λ y, cmp x y = 0) l1 = filter (λ y, cmp x y = 0) l2) →
  l1 = l2.
Proof.
  intros Hs1. revert l2.
  induction Hs1 as [|a l1 Hs1 IH Ha]; intros l2 Hs2 Hties.
  - destruct l2 as [|b l2]; [done|].
    specialize (Hties b). rewrite filter_nil, filter_cons_True in Hties; [done|].
    apply cmp_refl.
  - destruct Hs2 as [|b l2 Hs2 Hb].
    { specialize (Hties a).
      rewrite filter_nil, filter_cons_True in Hties; [done|]. apply cmp_refl. }
    assert (cmpTie a b) as Hab.
    { apply cmpTie_le. split.
      - pose proof (Hties b) as Hin.
        assert (b ∈ filter (λ y, cmp b y = 0) (a :: l1)) as Hb1.
        { rewrite Hin, filter_cons_True by apply cmp_refl.
          apply list_elem_of_here. }
        apply list_elem_of_filter in Hb1 as [_ Hb1].
        apply elem_of_cons in Hb1 as [->|Hb1].
        + unfold cmpLe. by rewrite cmp_refl.
        + rewrite Forall_forall in Ha. by apply Ha.
      - pose proof (Hties a) as Hin.
        assert (a ∈ filter (λ y, cmp a y = 0) (b :: l2)) as Ha2.
        { rewrite <- Hin, filter_cons_True by apply cmp_refl.
          apply list_elem_of_here. }
        apply list_elem_of_filter in Ha2 as [_ Ha2].
        apply elem_of_cons in Ha2 as [->|Ha2].
        + unfold cmpLe. by rewrite cmp_refl.
        + rewrite Forall_forall in Hb. by apply Hb. }
    assert (a = b) as <-.
    { pose proof (Hties a) as Hin.
      rewrite !filter_cons_True in Hin by (try apply cmp_refl; exact Hab).
      by injection Hin. }
    f_equal. apply IH; [done|]. intros x. specialize (Hties x).
    rewrite !filter_cons in Hties. case_decide; [by injection Hties|done].
Qed.

(** Every stable sort gives the result of [sort]. *)
Lemma sort_unique l l' :
  StronglySorted cmpLe l' →
  (∀ x, filter (λ y, cmp x y = 0) l' = filter (λ y, cmp x y = 0) l) →
  l' = sort cmp l.
Proof.
  intros Hsorted Hstable. apply sorted_stable_unique; [done|apply sort_sorted|].
  intros x. by rewrite Hstable, sort_stable.
Qed.

End Consistent.
End SortTheory.

(** Sorting two arrays that are related element by element, with
    comparators that agree on related elements, gives related arrays. *)
Section SortRelated.
Context {A B : Type} (cmpA : A → A → Z) (cmpB : B → B → Z).
Context (R : A → B → Prop).
Hypothesis cmp_related :
  ∀ a a' b b', R a a' → R b b' → cmpA a b = cmpB a' b'.

Lemma sortInsert_related x x' l l' :
  R x x' → Forall2 R l l' →
  Forall2 R (sortInsert cmpA x l) (sortInsert cmpB x' l').
Proof.
  intros Hx. induction 1 as [|y y' l l' Hy Hl IH]; simpl.
  - by repeat constructor.
  - rewrite (cmp_related x x' y y') by done.
    destruct (cmpB x' y' <=? 0); repeat constructor; done.
Qed.

Lemma sort_related l l' :
  Forall2 R l l' → Forall2 R (sort cmpA l) (sort cmpB l').
Proof.
  induction 1; simpl; [constructor|]. by apply sortInsert_related.
Qed.
End SortRelated.

(** ** The comparators of the program are consistent *)

Section Comparators.
Context {A : Type}.

Lemma consistent_asc (f : A → Z) : Consistent (λ a b, f a - f b).
Proof. split; intros; lia. Qed.

Lemma consistent_desc (f : A → Z) : Consistent (λ a b, f b - f a).
Proof. split; intros; lia. Qed.

Lemma consistent_localeCompare `{Host} (f : A → string) :
  Consistent (λ a b, localeCompare (f a) (f b)).
Proof.
  split; intros.
  - apply localeCompare_sgn.
  - by eapply localeCompare_trans.
Qed.

(** [c1(a, b) || c2(a, b)] *)
Lemma consistent_orElse (c1 c2 : A → A → Z) :
  Consistent c1 → Consistent c2 →
  Consistent (λ a b, orElse (c1 a b) (c2 a b)).
Proof.
  intros H1 H2. split.
  - intros a b. unfold orElse.
    pose proof (@cmp_sgn _ c1 _ a b). pose proof (@cmp_sgn _ c2 _ a b).
    destruct (Z.eqb_spec (c1 b a) 0), (Z.eqb_spec (c1 a b) 0); lia.
  - intros a b c. unfold orElse.
    pose proof (@cmp_trans _ c1 _ a b c). pose proof (@cmp_trans _ c2 _ a b c).
    pose proof (@cmp_trans _ c1 _ c a b). pose proof (@cmp_trans _ c1 _ b c a).
    pose proof (@cmp_sgn _ c1 _ a b). pose proof (@cmp_sgn _ c1 _ b c).
    pose proof (@cmp_sgn _ c1 _ a c).
    destruct (Z.eqb_spec (c1 a b) 0), (Z.eqb_spec (c1 b c) 0),
      (Z.eqb_spec (c1 a c) 0); lia.
Qed.

Lemma orElse_le (x y : Z) : orElse x y <= 0 ↔ x < 0 ∨ (x = 0 ∧ y <= 0).
Proof. unfold orElse. destruct (Z.eqb_spec x 0); lia. Qed.

Lemma orElse_zero (x y : Z) : orElse x y = 0 ↔ x = 0 ∧ y = 0.
Proof. unfold orElse. destruct (Z.eqb_spec x 0); lia. Qed.
End Comparators.

Global Instance comparePositions_consistent : Consistent comparePositions.
Proof. apply (consistent_asc ResultEntry.position). Qed.

Global Instance compareEntries_consistent `{Host} : Consistent compareEntries.
Proof.
  apply (consistent_orElse
           (λ a b, localeCompare (ResultEntry.eventId a) (ResultEntry.eventId b))
           (λ a b, ResultEntry.position a - ResultEntry.position b)).
  - apply (consistent_localeCompare ResultEntry.eventId).
  - apply (consistent_asc ResultEntry.position).
Qed.

Global Instance driverCompare_consistent `{Host} : Consistent driverCompare.
Proof.
  apply (consistent_orElse (λ a b, DriverRow.points b - DriverRow.points a));
    [apply (consistent_desc DriverRow.points)|].
  apply (consistent_orElse (λ a b, DriverRow.wins b - DriverRow.wins a));
    [apply (consistent_desc DriverRow.wins)|].
  apply (consistent_orElse (λ a b, DriverRow.podiums b - DriverRow.podiums a));
    [apply (consistent_desc DriverRow.podiums)|].
  apply (consistent_orElse
           (λ a b, DriverRow.bestFinish a - DriverRow.bestFinish b));
    [apply (consistent_asc DriverRow.bestFinish)|].
  apply (consistent_localeCompare (λ r, Driver.name (DriverRow.driver r))).
Qed.

Global Instance teamCompare_consistent `{Host} : Consistent teamCompare.
Proof.
  apply (consistent_orElse (λ a b, TeamRow.points b - TeamRow.points a));
    [apply (consistent_desc TeamRow.points)|].
  apply (consistent_localeCompare (λ r, Team.name (TeamRow.team r))).
Qed.

(** ** The host for evaluation satisfies the laws *)

Lemma String_compare_not_Gt_trans (a b c : string) :
  String.compare a b ≠ Gt → String.compare b c ≠ Gt → String.compare a c ≠ Gt.
Proof.
  revert b c. induction a as [|x a IH]; intros [|y b] [|z c]; simpl; try done.
  unfold Ascii.compare.
  destruct (N.compare_spec (N_of_ascii x) (N_of_ascii y)) as [Hxy|Hxy|Hxy];
    destruct (N.compare_spec (N_of_ascii y) (N_of_ascii z)) as [Hyz|Hyz|Hyz];
    destruct (N.compare_spec (N_of_ascii x) (N_of_ascii z)) as [Hxz|Hxz|Hxz];
    try done; try lia.
  apply IH.
Qed.

Lemma codeUnitCompare_sgn (a b : string) :
  Z.sgn (codeUnitCompare b a) = - Z.sgn (codeUnitCompare a b).
Proof.
  unfold codeUnitCompare. rewrite (String.compare_antisym b a).
  by destruct (String.compare a b).
Qed.

Lemma codeUnitCompare_trans (a b c : string) :
  codeUnitCompare a b <= 0 → codeUnitCompare b c <= 0 →
  codeUnitCompare a c <= 0.
Proof.
  unfold codeUnitCompare. intros Hab Hbc.
  pose proof (String_compare_not_Gt_trans a b c) as Ht.
  destruct (String.compare a b), (String.compare b c),
    (String.compare a c); try lia; exfalso; by apply Ht.
Qed.

Definition codeUnitHost : Host :=
  {| localeCompare := codeUnitCompare;
     StringToNumber := decimalToNumber;
     localeCompare_sgn := λ a b, codeUnitCompare_sgn a b;
     localeCompare_trans := codeUnitCompare_trans |}.

(** ** The points table *)

Lemma index_table (a : list Z) (n p : Z) (f : Z → Z) :
  Z.of_nat (length a) = n →
  (∀ q, 1 <= q <= Z.of_nat (length a) → index a (q - 1) = Some (f q)) →
  index a (p - 1) = if (1 <=? p) && (p <=? n) then Some (f p) else None.
Proof.
  intros <- Hin.
  destruct (Z.leb_spec 1 p); simpl.
  - destruct (Z.leb_spec p (Z.of_nat (length a))).
    + by apply Hin.
    + unfold index. destruct (Z.ltb_spec (p - 1) 0); [done|].
      apply lookup_ge_None. lia.
  - unfold index. destruct (Z.ltb_spec (p - 1) 0); [done|lia].
Qed.

(** C1. For every integer position the points lookup returns the value of
    the fixed table: 25, 18, 15, 12, 10, 8, 6, 4, 2, 1 for the positions 1 to
    10 of a Grand Prix and 0 for any other position; 8, 7, 6, 5, 4, 3, 2, 1
    for the positions 1 to 8 of a Sprint and 0 for any other position.  Every
    type other than ['Sprint'] is scored as a Grand Prix.  The table is read
    exactly at the positions in range, and there the read is defined and is
    the value returned. *)
Theorem computePointsFor_table (p : Z) :
  (∀ type, computePointsFor p type =
           if String.eqb type "Sprint" then computePointsFor p "Sprint"
           else computePointsFor p "GP")
  ∧ computePointsFor p "GP" =
    match p with
    | 1 => 25 | 2 => 18 | 3 => 15 | 4 => 12 | 5 => 10
    | 6 => 8 | 7 => 6 | 8 => 4 | 9 => 2 | 10 => 1
    | _ => 0
    end
  ∧ computePointsFor p "Sprint" =
    match p with
    | 1 => 8 | 2 => 7 | 3 => 6 | 4 => 5 | 5 => 4 | 6 => 3 | 7 => 2 | 8 => 1
    | _ => 0
    end
  ∧ index RACE_POINTS (p - 1) =
      (if (1 <=? p) && (p <=? 10) then Some (computePointsFor p "GP")
       else None)
  ∧ index SPRINT_POINTS (p - 1) =
      (if (1 <=? p) && (p <=? 8) then Some (computePointsFor p "Sprint")
       else None).
Proof.
  split_and!.
  - intros type. unfold computePointsFor.
    by destruct (String.eqb type "Sprint").
  - destruct p as [|q|q]; [done| |done].
    do 4 (try destruct q as [q|q|]); done.
  - destruct p as [|q|q]; [done| |done].
    do 4 (try destruct q as [q|q|]); done.
  - apply (index_table RACE_POINTS 10 p (λ q, computePointsFor q "GP"));
      [done|].
    intros q Hq. assert (q = 1 ∨ q = 2 ∨ q = 3 ∨ q = 4 ∨ q = 5 ∨ q = 6
                         ∨ q = 7 ∨ q = 8 ∨ q = 9 ∨ q = 10) by (simpl in Hq; lia).
    clear Hq. destruct_or!; subst q; reflexivity.
  - apply (index_table SPRINT_POINTS 8 p (λ q, computePointsFor q "Sprint"));
      [done|].
    intros q Hq. assert (q = 1 ∨ q = 2 ∨ q = 3 ∨ q = 4 ∨ q = 5 ∨ q = 6
                         ∨ q = 7 ∨ q = 8) by (simpl in Hq; lia).
    clear Hq. destruct_or!; subst q; reflexivity.
Qed.

(** ** Scoring one result *)

(** Data for the examples: a Grand Prix, a Sprint, and results of them. *)
Definition gpEvent : Event.t := Event.mk "e1" "Grand Prix" 1 "2024-03-02" "GP".
Definition sprintEvent : Event.t :=
  Event.mk "e2" "Sprint" 2 "2024-03-09" "Sprint".
Definition sprintWinner : ResultEntry.t := ResultEntry.mk "e2" "d1" 1 FIN true.
Definition retiredLeader : ResultEntry.t := ResultEntry.mk "e1" "d1" 1 DNF true.

(** [r] with another status. *)
Definition withStatus (r : ResultEntry.t) (s : Status) : ResultEntry.t :=
  ResultEntry.mk (ResultEntry.eventId r) (ResultEntry.driverId r)
                 (ResultEntry.position r) s (ResultEntry.fastestLap r).

(** The team a result is credited to: the team of the driver found in
    [driverById], when the driver has one. *)
Definition teamOf (driverById : gmap string Driver.t) (r : ResultEntry.t)
    : option string :=
  match driverById !! ResultEntry.driverId r with
  | Some drv =>
      if negb (String.eqb (Driver.teamId drv) "") then Some (Driver.teamId drv)
      else None
  | None => None
  end.

Lemma scoreEntry_known v driverById e driverStats teamPoints r d :
  driverStats !! ResultEntry.driverId r = Some d →
  scoreEntry v driverById e (driverStats, teamPoints) r =
    (<[ResultEntry.driverId r := recordResult v e r d]> driverStats,
     match teamOf driverById r with
     | Some t => <[t := default 0 (teamPoints !! t) + entryPts e r]> teamPoints
     | None => teamPoints
     end).
Proof.
  intros Hd. unfold scoreEntry, teamOf. rewrite Hd.
  destruct (driverById !! ResultEntry.driverId r) as [drv|]; [|done].
  by destruct (negb (Driver.teamId drv =? ""))%string.
Qed.

Lemma scoreEntry_unknown v driverById e driverStats teamPoints r :
  driverStats !! ResultEntry.driverId r = None →
  scoreEntry v driverById e (driverStats, teamPoints) r =
    (driverStats, teamPoints).
Proof. intros Hd. unfold scoreEntry. by rewrite Hd. Qed.

Lemma flBonus_spec e r :
  flBonus e r =
    if decide (Event.type e = "GP" ∧ ResultEntry.fastestLap r = true
               ∧ ResultEntry.position r <= 10)
    then 1 else 0.
Proof.
  unfold flBonus.
  destruct (String.eqb_spec (Event.type e) "GP"),
    (ResultEntry.fastestLap r), (Z.leb_spec (ResultEntry.position r) 10);
    simpl; case_decide; try done; intuition (try done; lia).
Qed.

Lemma elem_of_sort {A} (cmp : A → A → Z) (x : A) (l : list A) :
  x ∈ sort cmp l ↔ x ∈ l.
Proof. by rewrite (sort_Permutation cmp l). Qed.

(** ** The normaliser *)

(** The natural key of a raw result. *)
Definition rawKey (r : RawResult.t) : string * string :=
  (RawResult.eventId r, RawResult.driverId r).

Section NormalizerProperties.
Context `{Host}.

Lemma normalizeEntry_position_ge raw :
  1 <= ResultEntry.position (normalizeEntry raw).
Proof. simpl. lia. Qed.

Lemma normalizeEntry_key raw :
  ResultEntry.key (normalizeEntry raw) = rawKey raw.
Proof. done. Qed.

Lemma normalizeResults_Permutation rawList :
  normalizeResults rawList ≡ₚ map normalizeEntry rawList.
Proof. apply sort_Permutation. Qed.

Lemma normalizeResults_position_ge rawList :
  Forall (λ r, 1 <= ResultEntry.position r) (normalizeResults rawList).
Proof.
  rewrite normalizeResults_Permutation. apply Forall_fmap, Forall_true.
  intros raw. apply normalizeEntry_position_ge.
Qed.

(** A result entry with a position of at least 1 is normalised to
    itself. *)
Lemma normalizeEntry_toRaw r :
  1 <= ResultEntry.position r → normalizeEntry (ResultEntry.toRaw r) = r.
Proof.
  destruct r as [ev dr pos st fl]. simpl. intros Hpos.
  unfold normalizeEntry. simpl.
  destruct (Z.eqb_spec pos 0); [lia|].
  rewrite Z.max_r by lia. by destruct st.
Qed.

Lemma compareEntries_le a b :
  compareEntries a b <= 0 ↔
    localeCompare (ResultEntry.eventId a) (ResultEntry.eventId b) < 0
    ∨ (localeCompare (ResultEntry.eventId a) (ResultEntry.eventId b) = 0
       ∧ ResultEntry.position a <= ResultEntry.position b).
Proof. unfold compareEntries. rewrite orElse_le. lia. Qed.
End NormalizerProperties.

(** C6. The normaliser maps every raw entry to an entry with the same event
    and driver, the position [max(1, n)] where [n] is the number the raw
    position converts to, or 1 when that is 0 or not a number (so the
    position is at least 1, and a missing, non-numeric, zero or negative
    position becomes 1), the raw status when it is one of the three known
    statuses and Finished otherwise, and the fastest-lap flag coerced to a
    boolean; the result holds exactly these entries, ordered by event
    identifier ascending and then by position ascending. *)
Theorem normalizeResults_spec `{Host} (rawList : list RawResult.t) :
  normalizeResults rawList ≡ₚ map normalizeEntry rawList
  ∧ (∀ raw,
       let r := normalizeEntry raw in
       ResultEntry.eventId r = RawResult.eventId raw
       ∧ ResultEntry.driverId r = RawResult.driverId raw
       ∧ ResultEntry.position r =
           Z.max 1 (match ToNumber (RawResult.position raw) with
                    | Int z => if z =? 0 then 1 else z
                    | NaN => 1
                    end)
       ∧ 1 <= ResultEntry.position r
       ∧ (RawResult.position raw = VUndefined → ResultEntry.position r = 1)
       ∧ (ToNumber (RawResult.position raw) = NaN → ResultEntry.position r = 1)
       ∧ (∀ z, ToNumber (RawResult.position raw) = Int z → z <= 0 →
               ResultEntry.position r = 1)
       ∧ (∀ z, ToNumber (RawResult.position raw) = Int z → 1 <= z →
               ResultEntry.position r = z)
       ∧ (∀ s, RawResult.status raw = VStr (statusString s) →
               ResultEntry.status r = s)
       ∧ ((∀ s, RawResult.status raw ≠ VStr (statusString s)) →
          ResultEntry.status r = FIN)
       ∧ ResultEntry.fastestLap r = ToBoolean (RawResult.fastestLap raw))
  ∧ StronglySorted (λ a b, compareEntries a b <= 0) (normalizeResults rawList)
  ∧ (∀ a b, compareEntries a b <= 0 ↔
       localeCompare (ResultEntry.eventId a) (ResultEntry.eventId b) < 0
       ∨ (localeCompare (ResultEntry.eventId a) (ResultEntry.eventId b) = 0
          ∧ ResultEntry.position a <= ResultEntry.position b)).
Proof.
  split_and!.
  - apply normalizeResults_Permutation.
  - intros raw r. subst r. simpl. split_and!; try done.
    + lia.
    + by intros ->.
    + by intros ->.
    + intros z -> Hz. simpl. destruct (Z.eqb_spec z 0); lia.
    + intros z -> Hz. simpl. destruct (Z.eqb_spec z 0); lia.
    + intros s ->. by destruct s.
    + intros Hs. destruct (RawResult.status raw) as [| | | |s|]; try done.
      simpl. destruct (String.eqb_spec s "DNF") as [->|?];
        [by destruct (Hs DNF)|].
      destruct (String.eqb_spec s "DNS") as [->|?]; [by destruct (Hs DNS)|].
      done.
  - apply (sort_sorted compareEntries).
  - apply compareEntries_le.
Qed.

(** A raw entry with a negative position, an unknown status and a string as
    the fastest-lap flag. *)
Definition malformedEntry : RawResult.t :=
  RawResult.mk "e1" "d2" (VNum (Int (-3))) (VStr "finished") (VStr "yes").

Lemma normalizeResults_spec_witness :
  ResultEntry.position (@normalizeEntry codeUnitHost malformedEntry) = 1
  ∧ ResultEntry.status (@normalizeEntry codeUnitHost malformedEntry) = FIN.
Proof.
  destruct (@normalizeResults_spec codeUnitHost [malformedEntry])
    as (_ & Hentry & _).
  destruct (Hentry malformedEntry)
    as (_ & _ & _ & _ & _ & _ & Hneg & _ & _ & Hstatus & _).
  split.
  - apply (Hneg (-3)); [reflexivity|lia].
  - apply Hstatus. intros s. by destruct s.
Defined.

(** C7. Normalising the result of a normalisation gives the same sequence:
    the same entries in the same order. *)
Theorem normalizeResults_idempotent `{Host} (rawList : list RawResult.t) :
  normalizeResults (map ResultEntry.toRaw (normalizeResults rawList)) =
    normalizeResults rawList.
Proof.
  unfold normalizeResults at 1.
  assert (map normalizeEntry (map ResultEntry.toRaw (normalizeResults rawList))
          = normalizeResults rawList) as ->.
  { pose proof (normalizeResults_position_ge rawList) as Hpos.
    induction Hpos as [|r l Hr _ IH]; simpl; [done|].
    by rewrite normalizeEntry_toRaw, IH. }
  apply (sort_idempotent compareEntries).
Qed.

(** ** Replacing the results of one event *)

(** Two entries of one input for the same event and driver. *)
Definition duplicateEntries : list RawResult.t :=
  [RawResult.mk "e1" "d1" (VNum (Int 1)) (VStr "FIN") (VBool false);
   RawResult.mk "e1" "d1" (VNum (Int 2)) (VStr "DNF") (VBool true)].

(** C8, as the specification states it, fails: when the input of a bulk
    replace has two entries for the same event and driver, both are stored.
    Here the event "e1" receives two entries for the driver "d1", and the
    stored results after the replace hold both of them. *)
Lemma bulkReplace_keeps_duplicates :
  @bulkReplaceEventResults codeUnitHost "e1" duplicateEntries [] =
    [ResultEntry.mk "e1" "d1" 1 FIN false; ResultEntry.mk "e1" "d1" 2 DNF true]
  ∧ ¬ NoDup (map ResultEntry.key
               (@bulkReplaceEventResults codeUnitHost "e1" duplicateEntries [])).
Proof.
  split; [reflexivity|].
  intros Hnd. vm_compute in Hnd.
  apply NoDup_cons in Hnd as [Hin _]. apply Hin. left.
Qed.

Lemma bulkReplace_NoDup `{Host} (eventId : string)
    (entries prev : list RawResult.t) :
  NoDup (map rawKey prev) →
  NoDup (map rawKey entries) →
  Forall (λ r, RawResult.eventId r = eventId) entries →
  NoDup (map ResultEntry.key (bulkReplaceEventResults eventId entries prev)).
Proof.
  intros Hprev Hentries Hev.
  unfold bulkReplaceEventResults.
  rewrite normalizeResults_Permutation.
  rewrite <- list_fmap_compose.
  rewrite (list_fmap_ext (ResultEntry.key ∘ normalizeEntry) rawKey _)
    by (intros; apply normalizeEntry_key).
  rewrite fmap_app. apply NoDup_app. split_and!.
  - clear Hentries Hev.
    induction prev as [|r prev IH]; simpl; [constructor|].
    apply NoDup_cons in Hprev as [Hr Hprev].
    rewrite filter_cons. case_decide; [|by apply IH].
    simpl. apply NoDup_cons. split; [|by apply IH].
    intros Hin. apply Hr.
    apply list_elem_of_fmap in Hin as (r' & Hk & Hin).
    apply list_elem_of_filter in Hin as [_ Hin].
    apply list_elem_of_fmap. by exists r'.
  - intros k Hk1 Hk2.
    apply list_elem_of_fmap in Hk1 as (r1 & -> & Hr1).
    apply list_elem_of_filter in Hr1 as [Hne _].
    apply list_elem_of_fmap in Hk2 as (r2 & Hk & Hr2).
    rewrite Forall_forall in Hev. apply Hev in Hr2.
    apply Hne. unfold rawKey in Hk. by simplify_eq.
  - done.
Qed.

(** The loop with [seen] finds a duplicate exactly when a driver occurs
    twice in the rows or is in [seen] already. *)
Lemma duplicateDriver_false (seen : gset string) (filled : list GridRow.t) :
  duplicateDriver seen filled = false ↔
    NoDup (map GridRow.driverId filled)
    ∧ Forall (λ g, GridRow.driverId g ∉ seen) filled.
Proof.
  revert seen. induction filled as [|g rest IH]; intros seen; simpl.
  - split; [|done]. intros _. split; constructor.
  - case_decide as Hseen.
    + split; [done|]. intros [_ Hall]. by apply Forall_cons in Hall as [? _].
    + rewrite IH, NoDup_cons, Forall_cons, list_elem_of_fmap.
      rewrite !Forall_forall. split.
      * intros [Hnd Hall]. split_and!; try done.
        -- intros (g' & Heq & Hin). apply (Hall g' Hin).
           apply elem_of_union. left. by apply elem_of_singleton.
        -- intros g' Hin Hs. apply (Hall g' Hin).
           apply elem_of_union. by right.
      * intros [[Hg Hnd] [_ Hall]]. split; [done|].
        intros g' Hin [Heq%elem_of_singleton|Hs]%elem_of_union.
        -- apply Hg. by exists g'.
        -- by apply (Hall g').
Qed.

Lemma markFastestLap_keys (driverId : string) (entries : list RawResult.t) :
  map rawKey (markFastestLap driverId entries) = map rawKey entries.
Proof.
  induction entries as [|e rest IH]; simpl; [done|].
  destruct (String.eqb (RawResult.driverId e) driverId); simpl; [done|].
  by rewrite IH.
Qed.

Lemma markFastestLap_eventId (driverId ev : string)
    (entries : list RawResult.t) :
  Forall (λ r, RawResult.eventId r = ev) entries →
  Forall (λ r, RawResult.eventId r = ev) (markFastestLap driverId entries).
Proof.
  induction 1 as [|e rest He Hrest IH]; simpl; [constructor|].
  destruct (String.eqb (RawResult.driverId e) driverId);
    constructor; simpl; done.
Qed.

(** C8, amended. A bulk replace of one event's results stores the results
    of the other events and every entry of the input, normalised, and
    nothing else; it does not remove duplicates.  When no two stored results
    and no two entries of the input have the same event and driver, and the
    entries of the input are results of the replaced event, the stored
    results after the replace have at most one entry for each event and
    driver.  The entry grid, the caller of the bulk replace, stores nothing
    when a driver is twice in the grid, and otherwise its input has these
    properties. *)
Theorem bulkReplace_stores_every_entry `{Host} (eventId : string)
    (entries prev : list RawResult.t) :
  bulkReplaceEventResults eventId entries prev ≡ₚ
    map normalizeEntry
        (filter (λ r, RawResult.eventId r ≠ eventId) prev ++ entries)
  ∧ (NoDup (map rawKey prev) →
     NoDup (map rawKey entries) →
     Forall (λ r, RawResult.eventId r = eventId) entries →
     NoDup (map ResultEntry.key (bulkReplaceEventResults eventId entries prev)))
  ∧ (∀ v ev fastestLapDriverId grid,
       ¬ NoDup (map GridRow.driverId
                    (filter (λ g, GridRow.driverId g ≠ "") grid)) →
       saveAll v (Some ev) fastestLapDriverId grid prev = None)
  ∧ (∀ v ev fastestLapDriverId grid stored,
       saveAll v (Some ev) fastestLapDriverId grid prev = Some stored →
       NoDup (map rawKey prev) →
       NoDup (map ResultEntry.key stored)).
Proof.
  split_and!.
  - apply normalizeResults_Permutation.
  - apply bulkReplace_NoDup.
  - intros v ev fl grid Hdup. unfold saveAll.
    destruct (duplicateDriver ∅ _) eqn:Hd; [done|].
    apply duplicateDriver_false in Hd as [Hnd _]. by destruct Hdup.
  - intros v ev fl grid stored Hsave Hprev. unfold saveAll in Hsave.
    destruct (duplicateDriver ∅ _) eqn:Hd; [done|].
    apply duplicateDriver_false in Hd as [Hnd _].
    injection Hsave as <-.
    set (filled := filter (λ g, GridRow.driverId g ≠ "") grid) in *.
    assert (NoDup (map rawKey (map (gridEntry v ev) filled))) as Hkeys.
    { rewrite <- list_fmap_compose.
      apply (NoDup_fmap_1 snd). rewrite <- list_fmap_compose.
      by rewrite (list_fmap_ext _ GridRow.driverId _ (λ _ _ _, eq_refl)). }
    assert (Forall (λ r, RawResult.eventId r = Event.id ev)
                   (map (gridEntry v ev) filled)) as Hev.
    { apply Forall_fmap, Forall_true. done. }
    apply bulkReplace_NoDup; [done|..];
      destruct (_ && _); try done.
    + by rewrite markFastestLap_keys.
    + by apply markFastestLap_eventId.
Qed.

Lemma bulkReplace_stores_every_entry_witness :
  NoDup (map ResultEntry.key
           (@bulkReplaceEventResults codeUnitHost "e1"
              [RawResult.mk "e1" "d1" (VNum (Int 2)) (VStr "FIN") (VBool false);
               RawResult.mk "e1" "d2" (VNum (Int 1)) (VStr "FIN") (VBool true)]
              [RawResult.mk "e1" "d1" (VNum (Int 1)) (VStr "FIN") (VBool false);
               RawResult.mk "e2" "d1" (VNum (Int 3)) (VStr "DNF") (VBool false)])).
Proof.
  apply (@bulkReplace_stores_every_entry codeUnitHost).
  - apply (bool_decide_unpack _). by vm_compute.
  - apply (bool_decide_unpack _). by vm_compute.
  - repeat constructor.
Defined.

(** ** The loops of [buildStandings] *)

(** The entries of event [e], in the order the inner loop visits them. *)
Definition entriesOf (results : list ResultEntry.t) (e : Event.t)
    : list ResultEntry.t :=
  sort comparePositions
       (filter (λ r, ResultEntry.eventId r = Event.id e) results).

(** Every pair of an event and one of its entries, in the order the two
    loops visit them. *)
Definition visited (events : list Event.t) (results : list ResultEntry.t)
    : list (Event.t * ResultEntry.t) :=
  events ≫= λ e, map (λ r, (e, r)) (entriesOf results e).

(** The loop body on a visited pair. *)
Definition visit (v : Version) (driverById : gmap string Driver.t)
    (acc : Acc) (p : Event.t * ResultEntry.t) : Acc :=
  scoreEntry v driverById p.1 acc p.2.

(** The sum of [f] over a list. *)
Definition total {A} (f : A → Z) (l : list A) : Z :=
  foldr (λ x s, f x + s) 0 l.

(** The points a visited pair adds to the team [t]. *)
Definition teamCredit (drivers : list Driver.t)
    (driverById : gmap string Driver.t) (t : string)
    (p : Event.t * ResultEntry.t) : Z :=
  if decide (ResultEntry.driverId p.2 ∈ map Driver.id drivers
             ∧ teamOf driverById p.2 = Some t)
  then entryPts p.1 p.2 else 0.

(** The statistics of a driver after the visited pairs [l]. *)
Definition recordAll (v : Version) (l : list (Event.t * ResultEntry.t))
    (d : Stats.t) : Stats.t :=
  fold_left (λ d p, recordResult v p.1 p.2 d) l d.

(** The statistics but for the list of finishes, which depends on the
    order of the events. *)
Definition totals (d : Stats.t) : Z * Z * Z * Z :=
  (Stats.points d, Stats.wins d, Stats.podiums d, Stats.bestFinish d).

Lemma groupByEvent_lookup (results : list ResultEntry.t) (k : string) :
  default [] (groupByEvent results !! k) =
    filter (λ r, ResultEntry.eventId r = k) results.
Proof.
  unfold groupByEvent.
  assert (∀ acc : gmap string (list ResultEntry.t),
    default [] (fold_left
      (λ acc r, <[ResultEntry.eventId r :=
                    default [] (acc !! ResultEntry.eventId r) ++ [r]]> acc)
      results acc !! k)
    = default [] (acc !! k) ++ filter (λ r, ResultEntry.eventId r = k) results)
    as Hgen.
  { induction results as [|r results IH]; intros acc; simpl.
    - by rewrite app_nil_r.
    - rewrite IH, filter_cons. case_decide as Hk.
      + rewrite Hk, lookup_insert_eq. simpl. by rewrite <- app_assoc.
      + by rewrite lookup_insert_ne. }
  by rewrite Hgen, lookup_empty.
Qed.

Lemma fold_left_insert_lookup {A V} (f : A → string) (x : V) (l : list A)
    (m : gmap string V) (k : string) :
  fold_left (λ m a, <[f a := x]> m) l m !! k =
    if decide (k ∈ map f l) then Some x else m !! k.
Proof.
  revert m. induction l as [|a l IH]; intros m; simpl; [done|].
  rewrite IH. destruct (decide (k ∈ map f l)) as [Hin|Hnin].
  - rewrite decide_True; [done|]. by apply list_elem_of_further.
  - destruct (decide (k = f a)) as [->|Hne].
    + rewrite decide_True by apply list_elem_of_here.
      by rewrite lookup_insert_eq.
    + rewrite decide_False.
      * by rewrite lookup_insert_ne.
      * intros [?|?]%elem_of_cons; done.
Qed.

Lemma initDriverStats_lookup (drivers : list Driver.t) (k : string) :
  initDriverStats drivers !! k =
    if decide (k ∈ map Driver.id drivers) then Some Stats.init else None.
Proof.
  unfold initDriverStats.
  by rewrite (fold_left_insert_lookup Driver.id), lookup_empty.
Qed.

Lemma initTeamPoints_lookup (teams : list Team.t) (k : string) :
  initTeamPoints teams !! k =
    if decide (k ∈ map Team.id teams) then Some 0 else None.
Proof.
  unfold initTeamPoints.
  by rewrite (fold_left_insert_lookup Team.id), lookup_empty.
Qed.

Lemma scoreEvent_visit v driverById results acc e :
  scoreEvent v driverById (groupByEvent results) acc e =
    fold_left (visit v driverById) (map (λ r, (e, r)) (entriesOf results e)) acc.
Proof.
  unfold scoreEvent, entriesOf. rewrite groupByEvent_lookup.
  generalize (sort comparePositions
                (filter (λ r, ResultEntry.eventId r = Event.id e) results)).
  intros l. revert acc. induction l as [|r l IH]; intros acc; simpl; [done|].
  by rewrite IH.
Qed.

(** The two loops are one pass over the visited pairs. *)
Lemma aggregate_visit v drivers teams events results driverById :
  aggregate v drivers teams events results driverById =
    fold_left (visit v driverById) (visited events results)
              (initDriverStats drivers, initTeamPoints teams).
Proof.
  unfold aggregate, visited.
  generalize (initDriverStats drivers, initTeamPoints teams).
  induction events as [|e events IH]; intros acc; simpl; [done|].
  rewrite fold_left_app, IH. by rewrite scoreEvent_visit.
Qed.

(** A visit changes the statistics of the driver of the result, and of no
    other driver; it adds no driver. *)
Lemma visit_lookup v driverById acc p k :
  (visit v driverById acc p).1 !! k =
    if decide (ResultEntry.driverId p.2 = k)
    then recordResult v p.1 p.2 <$> acc.1 !! k
    else acc.1 !! k.
Proof.
  destruct acc as [driverStats teamPoints], p as [e r]. unfold visit.
  cbn [fst snd].
  destruct (driverStats !! ResultEntry.driverId r) as [d|] eqn:Hd.
  - rewrite (scoreEntry_known _ _ _ _ _ _ d) by done. simpl.
    case_decide as Hk.
    + by rewrite <- Hk, lookup_insert_eq, Hd.
    + by rewrite lookup_insert_ne.
  - rewrite scoreEntry_unknown by done. simpl.
    case_decide as Hk; [|done]. by rewrite <- Hk, Hd.
Qed.

Lemma visit_is_Some v driverById acc p k :
  is_Some ((visit v driverById acc p).1 !! k) ↔ is_Some (acc.1 !! k).
Proof.
  rewrite visit_lookup. case_decide; [|done]. by rewrite fmap_is_Some.
Qed.

(** The statistics of a driver after a pass: the results of the driver
    recorded in the order of the visit. *)
Lemma fold_visit_lookup v driverById l acc k :
  (fold_left (visit v driverById) l acc).1 !! k =
    recordAll v (filter (λ p, ResultEntry.driverId p.2 = k) l) <$> acc.1 !! k.
Proof.
  revert acc. induction l as [|p l IH]; intros acc; simpl.
  - by destruct (acc.1 !! k).
  - rewrite IH, visit_lookup, filter_cons.
    case_decide; [|done]. by destruct (acc.1 !! k).
Qed.

Lemma fold_visit_is_Some v driverById l acc k :
  is_Some ((fold_left (visit v driverById) l acc).1 !! k) ↔ is_Some (acc.1 !! k).
Proof. by rewrite fold_visit_lookup, fmap_is_Some. Qed.

(** A visit adds the points of the result to the team it is credited to,
    when its driver is known. *)
Lemma visit_team v drivers driverById acc p t :
  (∀ k, is_Some (acc.1 !! k) ↔ k ∈ map Driver.id drivers) →
  default 0 ((visit v driverById acc p).2 !! t) =
    default 0 (acc.2 !! t) + teamCredit drivers driverById t p.
Proof.
  intros Hknown.
  destruct acc as [driverStats teamPoints], p as [e r].
  unfold visit, teamCredit. cbn [fst snd] in *.
  destruct (driverStats !! ResultEntry.driverId r) as [d|] eqn:Hd.
  - rewrite (scoreEntry_known _ _ _ _ _ _ d) by done. simpl.
    assert (ResultEntry.driverId r ∈ map Driver.id drivers) as Hin
      by (apply Hknown; by rewrite Hd).
    destruct (teamOf driverById r) as [t'|].
    + destruct (decide (t' = t)) as [->|Hne].
      * rewrite lookup_insert_eq, decide_True by done. simpl. lia.
      * rewrite lookup_insert_ne by done.
        rewrite decide_False by (intros [_ ?]; congruence). lia.
    + rewrite decide_False by (intros [_ ?]; done). lia.
  - rewrite scoreEntry_unknown by done. simpl.
    rewrite decide_False; [lia|].
    intros [Hin _]. apply Hknown in Hin. rewrite Hd in Hin.
    by destruct Hin.
Qed.

Lemma fold_visit_team v drivers driverById l acc t :
  (∀ k, is_Some (acc.1 !! k) ↔ k ∈ map Driver.id drivers) →
  default 0 ((fold_left (visit v driverById) l acc).2 !! t) =
    default 0 (acc.2 !! t) + total (teamCredit drivers driverById t) l.
Proof.
  revert acc. induction l as [|p l IH]; intros acc Hknown; simpl; [lia|].
  rewrite IH.
  - rewrite (visit_team _ drivers) by done. lia.
  - intros k. by rewrite visit_is_Some.
Qed.

(** The visits of results of unknown drivers can be left out. *)
Lemma fold_visit_known v drivers driverById l acc :
  (∀ k, is_Some (acc.1 !! k) ↔ k ∈ map Driver.id drivers) →
  fold_left (visit v driverById) l acc =
    fold_left (visit v driverById)
      (filter (λ p, ResultEntry.driverId p.2 ∈ map Driver.id drivers) l) acc.
Proof.
  revert acc. induction l as [|p l IH]; intros acc Hknown; simpl; [done|].
  rewrite filter_cons. case_decide as Hin; simpl.
  - apply IH. intros k. by rewrite visit_is_Some.
  - assert (visit v driverById acc p = acc) as ->; [|by apply IH].
    destruct acc as [driverStats teamPoints], p as [e r]. unfold visit.
    cbn [fst snd] in *. apply scoreEntry_unknown.
    destruct (driverStats !! ResultEntry.driverId r) eqn:Hd; [|done].
    exfalso. apply Hin, Hknown. by rewrite Hd.
Qed.

Lemma initDriverStats_is_Some drivers k :
  is_Some (initDriverStats drivers !! k) ↔ k ∈ map Driver.id drivers.
Proof.
  rewrite initDriverStats_lookup. case_decide; [done|].
  split; [by intros [??]|done].
Qed.

Lemma filter_map_pair {A B} (e : A) (P : A * B → Prop)
    `{!∀ p, Decision (P p)} (l : list B) :
  filter P (map (λ r, (e, r)) l) = map (λ r, (e, r)) (filter (λ r, P (e, r)) l).
Proof.
  induction l as [|r l IH]; simpl; [done|].
  rewrite !filter_cons, IH. by destruct (decide (P (e, r))).
Qed.

Lemma elem_of_entriesOf results e r :
  r ∈ entriesOf results e ↔
    r ∈ results ∧ ResultEntry.eventId r = Event.id e.
Proof.
  unfold entriesOf. rewrite elem_of_sort, list_elem_of_filter. tauto.
Qed.

(** The visited pairs are the pairs of an event of the list and a result
    with the identifier of that event. *)
Lemma elem_of_visited events results p :
  p ∈ visited events results ↔
    p.1 ∈ events ∧ p.2 ∈ results ∧ ResultEntry.eventId p.2 = Event.id p.1.
Proof.
  unfold visited. rewrite list_elem_of_bind. split.
  - intros (e & Hp & He).
    apply list_elem_of_fmap in Hp as (r & -> & Hr).
    apply elem_of_entriesOf in Hr. simpl. tauto.
  - destruct p as [e r]. simpl. intros (He & Hr & Hid).
    exists e. split; [|done].
    apply list_elem_of_fmap. exists r. split; [done|].
    by apply elem_of_entriesOf.
Qed.

(** Leaving out the results of some drivers before the loops, or their
    visits in the loops, is the same. *)
Lemma filter_visited (P : string → Prop) `{!∀ k, Decision (P k)}
    events results :
  filter (λ p, P (ResultEntry.driverId p.2)) (visited events results) =
    visited events (filter (λ r, P (ResultEntry.driverId r)) results).
Proof.
  unfold visited.
  induction events as [|e events IH]; [done|].
  rewrite !bind_cons, filter_app, IH. f_equal.
  rewrite (filter_map_pair e (λ p, P (ResultEntry.driverId p.2))).
  f_equal. unfold entriesOf. cbn [snd].
  rewrite (filter_sort comparePositions).
  f_equal. rewrite !list_filter_filter. apply list_filter_iff. tauto.
Qed.

Lemma total_zero {A} (f : A → Z) (l : list A) :
  (∀ x, x ∈ l → f x = 0) → total f l = 0.
Proof.
  induction l as [|x l IH]; intros Hz; simpl; [done|].
  rewrite (Hz x) by apply list_elem_of_here.
  rewrite IH; [done|]. intros y Hy. by apply Hz, list_elem_of_further.
Qed.

Lemma total_Permutation {A} (f : A → Z) (l1 l2 : list A) :
  l1 ≡ₚ l2 → total f l1 = total f l2.
Proof. induction 1; simpl; lia. Qed.

Section StandingsProperties.
Context `{Host}.

Lemma buildStandings_drivers v drivers teams events results driverById :
  Standings.drivers (buildStandings v drivers teams events results driverById) =
    sort driverCompare
      (map (driverRow (aggregate v drivers teams events results driverById).1)
           drivers).
Proof.
  unfold buildStandings.
  by destruct (aggregate v drivers teams events results driverById).
Qed.

Lemma buildStandings_teams v drivers teams events results driverById :
  Standings.teams (buildStandings v drivers teams events results driverById) =
    sort teamCompare
      (map (teamRow (aggregate v drivers teams events results driverById).2)
           teams).
Proof.
  unfold buildStandings.
  by destruct (aggregate v drivers teams events results driverById).
Qed.

(** The statistics of a driver of the list after the loops. *)
Lemma aggregate_lookup_driver v drivers teams events results driverById d :
  d ∈ drivers →
  (aggregate v drivers teams events results driverById).1 !! Driver.id d =
    Some (recordAll v
            (filter (λ p, ResultEntry.driverId p.2 = Driver.id d)
                    (visited events results))
            Stats.init).
Proof.
  intros Hd. rewrite aggregate_visit, fold_visit_lookup. cbn [fst].
  rewrite initDriverStats_lookup, decide_True; [done|].
  by apply list_elem_of_fmap_2.
Qed.

(** The points of a team of the list after the loops. *)
Lemma aggregate_lookup_team v drivers teams events results driverById t :
  default 0 ((aggregate v drivers teams events results driverById).2 !! t) =
    total (teamCredit drivers driverById t) (visited events results).
Proof.
  rewrite aggregate_visit, (fold_visit_team _ drivers).
  - cbn [snd]. rewrite initTeamPoints_lookup. by case_decide.
  - intros k. cbn [fst]. apply initDriverStats_is_Some.
Qed.

(** The results of unknown drivers can be left out of the input. *)
Lemma aggregate_known v drivers teams events results driverById :
  aggregate v drivers teams events results driverById =
    aggregate v drivers teams events
      (filter (λ r, ResultEntry.driverId r ∈ map Driver.id drivers) results)
      driverById.
Proof.
  rewrite !aggregate_visit.
  rewrite (fold_visit_known _ drivers)
    by (intros k; cbn [fst]; apply initDriverStats_is_Some).
  pose proof (filter_visited (λ k, k ∈ map Driver.id drivers) events results)
    as Hfilter.
  cbv beta in Hfilter. by rewrite Hfilter.
Qed.

End StandingsProperties.

(** ** The rows of the standings *)

(** Data for the examples: a season of two events.  "Cyd" has no result,
    team "Beta" has no driver, and [ghostResult] is the result of a driver
    who is not in the list. *)
Definition ann : Driver.t := Driver.mk "d1" "Ann" "GB" "t1".
Definition bob : Driver.t := Driver.mk "d2" "Bob" "US" "".
Definition cyd : Driver.t := Driver.mk "d3" "Cyd" "FR" "t1".
Definition alpha : Team.t := Team.mk "t1" "Alpha" "red".
Definition beta : Team.t := Team.mk "t2" "Beta" "blue".
Definition seasonDrivers : list Driver.t := [ann; bob; cyd].
Definition seasonTeams : list Team.t := [alpha; beta].
Definition seasonEvents : list Event.t := [gpEvent; sprintEvent].
Definition seasonResults : list ResultEntry.t :=
  [ResultEntry.mk "e1" "d1" 1 FIN true; ResultEntry.mk "e1" "d2" 2 FIN false;
   sprintWinner].
Definition ghostResult : ResultEntry.t := ResultEntry.mk "e1" "d9" 3 FIN false.

(** C10. The driver table has exactly the drivers of the input list, one
    row for each, and the team table exactly the teams of the input list, one
    row for each.  The row of a driver none of whose results belongs to an
    event of the list has the initial statistics: no points, no wins, no
    podiums, the best finish 99 and no finishes.  The row of a team whose
    drivers scored nothing has 0 points. *)
Theorem one_row_per_driver_and_team `{Host} (v : Version)
    (drivers : list Driver.t) (teams : list Team.t) (events : list Event.t)
    (results : list ResultEntry.t) (driverById : gmap string Driver.t) :
  map DriverRow.driver
      (Standings.drivers
         (buildStandings v drivers teams events results driverById))
    ≡ₚ drivers
  ∧ map TeamRow.team
        (Standings.teams
           (buildStandings v drivers teams events results driverById))
      ≡ₚ teams
  ∧ (∀ row,
       row ∈ Standings.drivers
               (buildStandings v drivers teams events results driverById) →
       (∀ e r, e ∈ events → r ∈ results →
               ResultEntry.eventId r = Event.id e →
               ResultEntry.driverId r ≠ Driver.id (DriverRow.driver row)) →
       DriverRow.stats row = Stats.mk 0 0 0 99 [])
  ∧ (∀ row,
       row ∈ Standings.teams
               (buildStandings v drivers teams events results driverById) →
       (∀ e r, e ∈ events → r ∈ results →
               ResultEntry.eventId r = Event.id e →
               ResultEntry.driverId r ∈ map Driver.id drivers →
               teamOf driverById r = Some (Team.id (TeamRow.team row)) →
               entryPts e r = 0) →
       TeamRow.points row = 0).
Proof.
  rewrite buildStandings_drivers, buildStandings_teams. split_and!.
  - rewrite sort_Permutation.
    assert (∀ m l, map DriverRow.driver (map (driverRow m) l) = l) as ->;
      [|done].
    intros m l. induction l; simpl; by f_equal.
  - rewrite sort_Permutation.
    assert (∀ m l, map TeamRow.team (map (teamRow m) l) = l) as ->; [|done].
    intros m l. induction l; simpl; by f_equal.
  - intros row Hrow Hnone.
    apply elem_of_sort, list_elem_of_fmap in Hrow as (d & -> & Hd).
    unfold driverRow. simpl in *.
    rewrite aggregate_lookup_driver by done. simpl.
    assert (filter (λ p, ResultEntry.driverId p.2 = Driver.id d)
                   (visited events results) = []) as ->; [|done].
    apply elem_of_nil_inv. intros p [Hp Hin]%list_elem_of_filter.
    apply elem_of_visited in Hin as (He & Hr & Hid).
    by apply (Hnone p.1 p.2).
  - intros row Hrow Hnone.
    apply elem_of_sort, list_elem_of_fmap in Hrow as (t & -> & Ht).
    unfold teamRow. simpl in *.
    rewrite aggregate_lookup_team. apply total_zero.
    intros p (He & Hr & Hid)%elem_of_visited.
    unfold teamCredit. case_decide as Hc; [|done].
    destruct Hc as [Hknown Hteam]. by apply Hnone.
Qed.

Lemma one_row_per_driver_and_team_witness :
  (∃ row,
     row ∈ Standings.drivers
             (@buildStandings codeUnitHost MultiSeason seasonDrivers
                seasonTeams seasonEvents seasonResults
                (driverByIdOf seasonDrivers))
     ∧ DriverRow.driver row = cyd
     ∧ DriverRow.stats row = Stats.mk 0 0 0 99 [])
  ∧ (∃ row,
       row ∈ Standings.teams
               (@buildStandings codeUnitHost MultiSeason seasonDrivers
                  seasonTeams seasonEvents seasonResults
                  (driverByIdOf seasonDrivers))
       ∧ TeamRow.team row = beta
       ∧ TeamRow.points row = 0).
Proof.
  destruct (@one_row_per_driver_and_team codeUnitHost MultiSeason
              seasonDrivers seasonTeams seasonEvents seasonResults
              (driverByIdOf seasonDrivers))
    as (_ & _ & Hdriver & Hteam).
  split.
  - assert (DriverRow.mk cyd Stats.init
            ∈ Standings.drivers
                (@buildStandings codeUnitHost MultiSeason seasonDrivers
                   seasonTeams seasonEvents seasonResults
                   (driverByIdOf seasonDrivers))) as Hrow.
    { vm_compute. do 2 apply list_elem_of_further. apply list_elem_of_here. }
    exists (DriverRow.mk cyd Stats.init). split_and!; [done..|].
    apply Hdriver; [done|].
    intros e r _ Hr _. apply list_elem_of_In in Hr. simpl in Hr.
    destruct Hr as [<-|[<-|[<-|[]]]]; discriminate.
  - assert (TeamRow.mk beta 0
            ∈ Standings.teams
                (@buildStandings codeUnitHost MultiSeason seasonDrivers
                   seasonTeams seasonEvents seasonResults
                   (driverByIdOf seasonDrivers))) as Hrow.
    { vm_compute. apply list_elem_of_further, list_elem_of_here. }
    exists (TeamRow.mk beta 0). split_and!; [done..|].
    apply Hteam; [done|].
    intros e r _ Hr _ _. apply list_elem_of_In in Hr. simpl in Hr.
    destruct Hr as [<-|[<-|[<-|[]]]]; vm_compute; discriminate.
Defined.

(** A result whose driver is not in the list of drivers is skipped by the
    loop, which leaves both maps as they are, and it does not change the
    tables the builder returns. *)
Lemma buildStandings_unknown_driver `{Host} (v : Version)
    (drivers : list Driver.t) (teams : list Team.t) (events : list Event.t)
    (results1 results2 : list ResultEntry.t) (r : ResultEntry.t)
    (driverById : gmap string Driver.t) :
  ResultEntry.driverId r ∉ map Driver.id drivers →
  (∀ e events' results' teamPoints,
     scoreEntry v driverById e
       ((aggregate v drivers teams events' results' driverById).1, teamPoints)
       r
     = ((aggregate v drivers teams events' results' driverById).1, teamPoints))
  ∧ buildStandings v drivers teams events (results1 ++ r :: results2)
      driverById
    = buildStandings v drivers teams events (results1 ++ results2) driverById.
Proof.
  intros Hunknown. split.
  - intros e events' results' teamPoints. apply scoreEntry_unknown.
    apply eq_None_not_Some. intros Hsome. apply Hunknown.
    rewrite aggregate_visit in Hsome.
    by apply fold_visit_is_Some, initDriverStats_is_Some in Hsome.
  - unfold buildStandings.
    rewrite (aggregate_known _ _ _ _ (results1 ++ r :: results2)).
    rewrite (aggregate_known _ _ _ _ (results1 ++ results2)).
    by rewrite !filter_app, filter_cons, decide_False.
Qed.

(** ** The order of the events *)

Lemma tuple4_eq (a b c d a' b' c' d' : Z) :
  a = a' → b = b' → c = c' → d = d' → (a, b, c, d) = (a', b', c', d').
Proof. by intros -> -> -> ->. Qed.

Lemma totals_recordResult v e r d d' :
  totals d = totals d' →
  totals (recordResult v e r d) = totals (recordResult v e r d').
Proof. unfold totals. simpl. intros [= -> -> -> ->]. done. Qed.

Lemma totals_recordResult_swap v e1 r1 e2 r2 d :
  totals (recordResult v e1 r1 (recordResult v e2 r2 d)) =
    totals (recordResult v e2 r2 (recordResult v e1 r1 d)).
Proof.
  unfold totals. simpl.
  destruct (ResultEntry.position r1 =? 1), (ResultEntry.position r2 =? 1),
    (isPodium v (ResultEntry.position r1)),
    (isPodium v (ResultEntry.position r2)); apply tuple4_eq; lia.
Qed.

Lemma totals_recordAll v l d d' :
  totals d = totals d' → totals (recordAll v l d) = totals (recordAll v l d').
Proof.
  revert d d'. induction l as [|p l IH]; intros d d' Hd; [done|].
  apply IH. by apply totals_recordResult.
Qed.

(** The points, the wins, the podiums and the best finish of a driver do
    not depend on the order in which the results are recorded. *)
Lemma totals_recordAll_Permutation v l l' d :
  l ≡ₚ l' → totals (recordAll v l d) = totals (recordAll v l' d).
Proof.
  intros Hperm. revert d.
  induction Hperm as [|p l l' _ IH|p q l|l1 l2 l3 _ IH1 _ IH2]; intros d.
  - done.
  - apply IH.
  - unfold recordAll. simpl.
    apply (totals_recordAll v l), totals_recordResult_swap.
  - by rewrite IH1.
Qed.

Lemma visited_Permutation events events' results :
  events ≡ₚ events' → visited events results ≡ₚ visited events' results.
Proof. intros Hperm. unfold visited. by rewrite Hperm. Qed.

Section EventOrder.
Context `{Host}.

(** Two rows for the same driver that differ at most in the list of
    finishes. *)
Definition sameTotals (a b : DriverRow.t) : Prop :=
  DriverRow.driver a = DriverRow.driver b
  ∧ totals (DriverRow.stats a) = totals (DriverRow.stats b).

Lemma driverCompare_sameTotals a a' b b' :
  sameTotals a a' → sameTotals b b' → driverCompare a b = driverCompare a' b'.
Proof.
  unfold sameTotals, totals, driverCompare, DriverRow.points, DriverRow.wins,
    DriverRow.podiums, DriverRow.bestFinish.
  intros [-> [= -> -> -> ->]] [-> [= -> -> -> ->]]. done.
Qed.

Lemma aggregate_totals_Permutation v drivers teams events events' results
    driverById k :
  events ≡ₚ events' →
  totals <$> (aggregate v drivers teams events results driverById).1 !! k =
    totals <$> (aggregate v drivers teams events' results driverById).1 !! k.
Proof.
  intros Hperm. rewrite !aggregate_visit, !fold_visit_lookup. cbn [fst].
  destruct (initDriverStats drivers !! k) as [d|]; [|done]. simpl. f_equal.
  apply totals_recordAll_Permutation.
  by apply filter_Permutation, visited_Permutation.
Qed.

Lemma aggregate_team_Permutation v drivers teams events events' results
    driverById t :
  events ≡ₚ events' →
  default 0 ((aggregate v drivers teams events results driverById).2 !! t) =
    default 0 ((aggregate v drivers teams events' results driverById).2 !! t).
Proof.
  intros Hperm. rewrite !aggregate_lookup_team.
  by apply total_Permutation, visited_Permutation.
Qed.

End EventOrder.

(** C5. For every permutation of the list of events, with the drivers, the
    teams and the results fixed, the points of every driver and of every team
    after the loops are the same, and so are the points of the rows of the
    driver table, row by row, and the team table. *)
Theorem totals_independent_of_event_order `{Host} (v : Version)
    (drivers : list Driver.t) (teams : list Team.t)
    (events events' : list Event.t) (results : list ResultEntry.t)
    (driverById : gmap string Driver.t) :
  events ≡ₚ events' →
  (∀ k,
     Stats.points
       <$> (aggregate v drivers teams events results driverById).1 !! k =
     Stats.points
       <$> (aggregate v drivers teams events' results driverById).1 !! k)
  ∧ (∀ t,
       default 0 ((aggregate v drivers teams events results driverById).2 !! t)
       = default 0
           ((aggregate v drivers teams events' results driverById).2 !! t))
  ∧ map (λ row, (DriverRow.driver row, DriverRow.points row))
        (Standings.drivers
           (buildStandings v drivers teams events results driverById))
    = map (λ row, (DriverRow.driver row, DriverRow.points row))
          (Standings.drivers
             (buildStandings v drivers teams events' results driverById))
  ∧ Standings.teams (buildStandings v drivers teams events results driverById)
    = Standings.teams
        (buildStandings v drivers teams events' results driverById).
Proof.
  intros Hperm. split_and!.
  - intros k.
    pose proof (aggregate_totals_Permutation v drivers teams events events'
                  results driverById k Hperm) as Ht.
    destruct ((aggregate v drivers teams events results driverById).1 !! k),
      ((aggregate v drivers teams events' results driverById).1 !! k);
      simpl in *; try done.
    unfold totals in Ht. congruence.
  - intros t. by apply aggregate_team_Permutation.
  - rewrite !buildStandings_drivers.
    assert (Forall2 sameTotals
      (sort driverCompare
         (map (driverRow (aggregate v drivers teams events results
                            driverById).1) drivers))
      (sort driverCompare
         (map (driverRow (aggregate v drivers teams events' results
                            driverById).1) drivers))) as Hrows.
    { apply sort_related; [apply driverCompare_sameTotals|].
      apply Forall2_fmap, Forall_Forall2_diag, Forall_forall.
      intros d _. split; [done|]. unfold driverRow. simpl.
      pose proof (aggregate_totals_Permutation v drivers teams events events'
                    results driverById (Driver.id d) Hperm) as Ht.
      destruct ((aggregate v drivers teams events results driverById).1
                  !! Driver.id d),
        ((aggregate v drivers teams events' results driverById).1
           !! Driver.id d); simpl in *; congruence. }
    induction Hrows as [|a b l l' [Hd Ht] _ IH]; simpl; [done|].
    rewrite IH, Hd. unfold DriverRow.points. unfold totals in Ht.
    congruence.
  - rewrite !buildStandings_teams. f_equal.
    apply list_fmap_ext. intros _ t _. unfold teamRow. f_equal.
    by apply aggregate_team_Permutation.
Qed.

Lemma totals_independent_of_event_order_witness :
  Standings.teams
    (@buildStandings codeUnitHost MultiSeason seasonDrivers seasonTeams
       [gpEvent; sprintEvent] seasonResults (driverByIdOf seasonDrivers))
  = Standings.teams
      (@buildStandings codeUnitHost MultiSeason seasonDrivers seasonTeams
         [sprintEvent; gpEvent] seasonResults (driverByIdOf seasonDrivers)).
Proof.
  apply (@totals_independent_of_event_order codeUnitHost).
  apply Permutation_swap.
Defined.

(** ** The order of the rows *)

Section Ranking.
Context `{Host}.

Lemma driverCompare_le a b :
  driverCompare a b <= 0 ↔
    DriverRow.points b < DriverRow.points a
    ∨ (DriverRow.points a = DriverRow.points b
       ∧ (DriverRow.wins b < DriverRow.wins a
          ∨ (DriverRow.wins a = DriverRow.wins b
             ∧ (DriverRow.podiums b < DriverRow.podiums a
                ∨ (DriverRow.podiums a = DriverRow.podiums b
                   ∧ (DriverRow.bestFinish a < DriverRow.bestFinish b
                      ∨ (DriverRow.bestFinish a = DriverRow.bestFinish b
                         ∧ localeCompare
                             (Driver.name (DriverRow.driver a))
                             (Driver.name (DriverRow.driver b)) <= 0))))))).
Proof. unfold driverCompare. rewrite !orElse_le. lia. Qed.

Lemma driverCompare_tie a b :
  driverCompare a b = 0 ↔
    DriverRow.points a = DriverRow.points b
    ∧ DriverRow.wins a = DriverRow.wins b
    ∧ DriverRow.podiums a = DriverRow.podiums b
    ∧ DriverRow.bestFinish a = DriverRow.bestFinish b
    ∧ localeCompare (Driver.name (DriverRow.driver a))
                    (Driver.name (DriverRow.driver b)) = 0.
Proof. unfold driverCompare. rewrite !orElse_zero. lia. Qed.

Lemma teamCompare_le a b :
  teamCompare a b <= 0 ↔
    TeamRow.points b < TeamRow.points a
    ∨ (TeamRow.points a = TeamRow.points b
       ∧ localeCompare (Team.name (TeamRow.team a))
                       (Team.name (TeamRow.team b)) <= 0).
Proof. unfold teamCompare. rewrite orElse_le. lia. Qed.

Lemma teamCompare_tie a b :
  teamCompare a b = 0 ↔
    TeamRow.points a = TeamRow.points b
    ∧ localeCompare (Team.name (TeamRow.team a))
                    (Team.name (TeamRow.team b)) = 0.
Proof. unfold teamCompare. rewrite orElse_zero. lia. Qed.

(** The two maps do not depend on the order of the drivers and of the
    teams in the input. *)
Lemma aggregate_Permutation v drivers drivers' teams teams' events results
    driverById :
  drivers ≡ₚ drivers' → teams ≡ₚ teams' →
  aggregate v drivers teams events results driverById =
    aggregate v drivers' teams' events results driverById.
Proof.
  intros Hd Ht. unfold aggregate. do 2 f_equal.
  - apply map_eq. intros k. rewrite !initDriverStats_lookup.
    apply decide_ext. by rewrite Hd.
  - apply map_eq. intros k. rewrite !initTeamPoints_lookup.
    apply decide_ext. by rewrite Ht.
Qed.

End Ranking.

(** C4. The driver table is sorted by points descending, then wins
    descending, then podiums descending, then best finish ascending, then
    driver name ascending; the team table is sorted by points descending, then
    team name ascending.  The order is determined by these keys: whatever the
    order of the drivers and of the teams in the input, the rows at the same
    place of the tables agree on every key. *)
Theorem leaderboards_sorted_by_keys `{Host} (v : Version)
    (drivers drivers' : list Driver.t) (teams teams' : list Team.t)
    (events : list Event.t) (results : list ResultEntry.t)
    (driverById : gmap string Driver.t) :
  StronglySorted (λ a b, driverCompare a b <= 0)
    (Standings.drivers
       (buildStandings v drivers teams events results driverById))
  ∧ StronglySorted (λ a b, teamCompare a b <= 0)
      (Standings.teams
         (buildStandings v drivers teams events results driverById))
  ∧ (∀ a b,
       driverCompare a b <= 0 ↔
         DriverRow.points b < DriverRow.points a
         ∨ (DriverRow.points a = DriverRow.points b
            ∧ (DriverRow.wins b < DriverRow.wins a
               ∨ (DriverRow.wins a = DriverRow.wins b
                  ∧ (DriverRow.podiums b < DriverRow.podiums a
                     ∨ (DriverRow.podiums a = DriverRow.podiums b
                        ∧ (DriverRow.bestFinish a < DriverRow.bestFinish b
                           ∨ (DriverRow.bestFinish a = DriverRow.bestFinish b
                              ∧ localeCompare
                                  (Driver.name (DriverRow.driver a))
                                  (Driver.name (DriverRow.driver b))
                                <= 0))))))))
  ∧ (∀ a b,
       teamCompare a b <= 0 ↔
         TeamRow.points b < TeamRow.points a
         ∨ (TeamRow.points a = TeamRow.points b
            ∧ localeCompare (Team.name (TeamRow.team a))
                            (Team.name (TeamRow.team b)) <= 0))
  ∧ (drivers ≡ₚ drivers' → teams ≡ₚ teams' →
     Forall2
       (λ a b,
          DriverRow.points a = DriverRow.points b
          ∧ DriverRow.wins a = DriverRow.wins b
          ∧ DriverRow.podiums a = DriverRow.podiums b
          ∧ DriverRow.bestFinish a = DriverRow.bestFinish b
          ∧ localeCompare (Driver.name (DriverRow.driver a))
                          (Driver.name (DriverRow.driver b)) = 0)
       (Standings.drivers
          (buildStandings v drivers teams events results driverById))
       (Standings.drivers
          (buildStandings v drivers' teams' events results driverById))
     ∧ Forall2
         (λ a b,
            TeamRow.points a = TeamRow.points b
            ∧ localeCompare (Team.name (TeamRow.team a))
                            (Team.name (TeamRow.team b)) = 0)
         (Standings.teams
            (buildStandings v drivers teams events results driverById))
         (Standings.teams
            (buildStandings v drivers' teams' events results driverById))).
Proof.
  split_and!.
  - rewrite buildStandings_drivers. apply (sort_sorted driverCompare).
  - rewrite buildStandings_teams. apply (sort_sorted teamCompare).
  - apply driverCompare_le.
  - apply teamCompare_le.
  - intros Hd Ht.
    rewrite !buildStandings_drivers, !buildStandings_teams.
    rewrite <- (aggregate_Permutation v drivers drivers' teams teams') by done.
    split.
    + eapply Forall2_impl.
      * apply (sort_Permutation_tie driverCompare).
        apply fmap_Permutation, Hd.
      * intros a b. apply driverCompare_tie.
    + eapply Forall2_impl.
      * apply (sort_Permutation_tie teamCompare).
        apply fmap_Permutation, Ht.
      * intros a b. apply teamCompare_tie.
Qed.

Lemma leaderboards_sorted_by_keys_witness :
  Forall2
    (λ a b,
       DriverRow.points a = DriverRow.points b
       ∧ DriverRow.wins a = DriverRow.wins b
       ∧ DriverRow.podiums a = DriverRow.podiums b
       ∧ DriverRow.bestFinish a = DriverRow.bestFinish b
       ∧ @localeCompare codeUnitHost (Driver.name (DriverRow.driver a))
                        (Driver.name (DriverRow.driver b)) = 0)
    (Standings.drivers
       (@buildStandings codeUnitHost MultiSeason [ann; bob; cyd] [alpha; beta]
          seasonEvents seasonResults (driverByIdOf seasonDrivers)))
    (Standings.drivers
       (@buildStandings codeUnitHost MultiSeason [bob; ann; cyd] [beta; alpha]
          seasonEvents seasonResults (driverByIdOf seasonDrivers))).
Proof.
  apply (@leaderboards_sorted_by_keys codeUnitHost MultiSeason
           [ann; bob; cyd] [bob; ann; cyd] [alpha; beta] [beta; alpha]);
    apply Permutation_swap.
Defined.

(** ** The scenarios of the specification, evaluated *)

(** One Grand Prix: the winner claims the fastest lap and has 25 + 1
    points, the second has 18. *)
Example scenario_grand_prix :
  map (λ row, (Driver.name (DriverRow.driver row), DriverRow.points row))
      (Standings.drivers
         (@buildStandings codeUnitHost MultiSeason [ann; bob] [alpha]
            [gpEvent]
            [ResultEntry.mk "e1" "d2" 2 FIN false;
             ResultEntry.mk "e1" "d1" 1 FIN true]
            (driverByIdOf [ann; bob])))
  = [("Ann", 26); ("Bob", 18)].
Proof. reflexivity. Qed.

(** One Sprint: the winner claims the fastest lap and has 8 points. *)
Example scenario_sprint :
  map (λ row, (Driver.name (DriverRow.driver row), DriverRow.points row))
      (Standings.drivers
         (@buildStandings codeUnitHost MultiSeason [ann] [alpha]
            [sprintEvent] [sprintWinner] (driverByIdOf [ann])))
  = [("Ann", 8)].
Proof. reflexivity. Qed.

(** A driver recorded first who did not finish: no points, one win and one
    podium, in both application files. *)
Example scenario_retired_leader (v : Version) :
  Standings.drivers
    (@buildStandings codeUnitHost v [ann] [alpha] [gpEvent]
       [ResultEntry.mk "e1" "d1" 1 DNF false] (driverByIdOf [ann]))
  = [DriverRow.mk ann (Stats.mk 0 1 1 1 [1])].
Proof. by destruct v. Qed.

(** A driver without a team: the points reach no team. *)
Example scenario_unaffiliated :
  Standings.teams
    (@buildStandings codeUnitHost MultiSeason [ann; bob] [alpha] [gpEvent]
       [ResultEntry.mk "e1" "d2" 1 FIN false;
        ResultEntry.mk "e1" "d1" 2 FIN false]
       (driverByIdOf [ann; bob]))
  = [TeamRow.mk alpha 18].
Proof. reflexivity. Qed.

(** Ties on every statistic are broken by the name. *)
Example scenario_name_tie_break :
  map (λ row, Driver.name (DriverRow.driver row))
      (Standings.drivers
         (@buildStandings codeUnitHost MultiSeason [cyd; bob; ann] [] [] []
            ∅))
  = ["Ann"; "Bob"; "Cyd"].
Proof. reflexivity. Qed.

(** The normaliser on malformed entries. *)
Example scenario_normalize :
  @normalizeResults codeUnitHost
    [RawResult.mk "e2" "d1" (VStr "abc") (VStr "DNS") VUndefined;
     RawResult.mk "e1" "d1" (VStr "7") (VStr "DNF") (VStr "yes");
     malformedEntry;
     RawResult.mk "e1" "d3" VUndefined VUndefined VNull]
  = [ResultEntry.mk "e1" "d2" 1 FIN true;
     ResultEntry.mk "e1" "d3" 1 FIN false;
     ResultEntry.mk "e1" "d1" 7 DNF true;
     ResultEntry.mk "e2" "d1" 1 DNS false].
Proof. reflexivity. Qed.

(** * The rest of the application *)

(** ** Deleting and adding records *)

(** [deleteTeam(id)]: the teams and the drivers after
    [setTeams(prev => prev.filter(t => t.id !== id))] and
    [setDrivers(prev => prev.map(d => d.teamId === id ? { ...d, teamId: "" } : d))]. *)
Definition deleteTeam (id : string) (teams : list Team.t)
    (drivers : list Driver.t) : list Team.t * list Driver.t :=
  (filter (λ t, Team.id t ≠ id) teams,
   map (λ d, if String.eqb (Driver.teamId d) id
             then Driver.mk (Driver.id d) (Driver.name d) (Driver.country d) ""
             else d)
       drivers).



(** The argument of [addEvent]: the form gives a name, a type and a date;
    a field that is absent is [None]. *)
Module EventDraft.
Record t : Type :=
  mk { name : string; round : option Z; date : option string;
       type : option string }.
End EventDraft.

(** [addEvent(evt)], with [newId] the result of [uid()] and [today] the
    result of [toISODate(new Date())]:
    [const round = evt.round ?? (prev.length + 1);
     return [...prev, { id: uid(), date: today, type: "GP", ...evt, round }]
              .sort((a,b)=>a.round-b.round)]. *)
Definition addEvent (newId today : string) (evt : EventDraft.t)
    (prev : list Event.t) : list Event.t :=
  let round := default (Z.of_nat (length prev) + 1) (EventDraft.round evt) in
  sort (λ a b, Event.round a - Event.round b)
       (prev ++ [Event.mk newId (EventDraft.name evt) round
                          (default today (EventDraft.date evt))
                          (default "GP" (EventDraft.type evt))]).

(** ** Saving one result, and the entry grid *)

(** The argument of [saveResultEntry]: an object with the two identifiers
    and any of the other fields; a field that is absent is [None]. *)
Module ResultPatch.
Record t : Type :=
  mk { eventId : string; driverId : string;
       position : option Val; status : option Val;
       fastestLap : option Val }.

(** [{ ...old, ...entry }] *)
Definition merge (old : RawResult.t) (entry : t) : RawResult.t :=
  {| RawResult.eventId := eventId entry;
     RawResult.driverId := driverId entry;
     RawResult.position := default (RawResult.position old) (position entry);
     RawResult.status := default (RawResult.status old) (status entry);
     RawResult.fastestLap :=
       default (RawResult.fastestLap old) (fastestLap entry) |}.

(** The entry read as a record: an absent field reads as [undefined]. *)
Definition asRaw (entry : t) : RawResult.t :=
  {| RawResult.eventId := eventId entry;
     RawResult.driverId := driverId entry;
     RawResult.position := default VUndefined (position entry);
     RawResult.status := default VUndefined (status entry);
     RawResult.fastestLap := default VUndefined (fastestLap entry) |}.
End ResultPatch.

(** [saveResultEntry(entry)] of src/App.jsx, as a function of the stored
    results [prev]:
    [const idx = prev.findIndex(r => r.eventId === entry.eventId
                                     && r.driverId === entry.driverId);
     if (idx >= 0) { const copy = [...prev];
                     copy[idx] = { ...copy[idx], ...entry };
                     return normalizeResults(copy); }
     return normalizeResults([...prev, entry])]. *)
Definition saveResultEntry `{Host} (entry : ResultPatch.t)
    (prev : list RawResult.t) : list ResultEntry.t :=
  match list_find (λ r, RawResult.eventId r = ResultPatch.eventId entry
                        ∧ RawResult.driverId r = ResultPatch.driverId entry)
                  prev with
  | Some (idx, old) =>
      normalizeResults (<[idx := ResultPatch.merge old entry]> prev)
  | None => normalizeResults (prev ++ [ResultPatch.asRaw entry])
  end.

(** The empty grid of the entry panel:
    [Array.from({length: Math.max(20, drivers.length)},
                (_,i)=>({ driverId: "", position: i+1, status: "FIN", fastestLap: false }))];
    the rows of src/App.jsx have no [fastestLap]. *)
Definition blankGrid (v : Version) (drivers : list Driver.t)
    : list GridRow.t :=
  map (λ i, GridRow.mk "" (VNum (Int (Z.of_nat i + 1))) (VStr "FIN")
                       (match v with
                        | SingleSeason => VUndefined
                        | MultiSeason => VBool false
                        end))
      (seq 0 (Nat.max 20 (length drivers))).

(** The grid of the entry panel for the event [eventId]: the stored results
    of the event by position,
    [results.filter(r=>r.eventId===eventId).sort((a,b)=>a.position-b.position)],
    each as a row
    [{ driverId: r.driverId, position: r.position, status: r.status||"FIN",
       fastestLap: !!r.fastestLap }],
    or the empty grid when the event has no result. *)
Definition gridOf (v : Version) (eventId : string) (drivers : list Driver.t)
    (results : list ResultEntry.t) : list GridRow.t :=
  let existing :=
    sort comparePositions
         (filter (λ r, ResultEntry.eventId r = eventId) results) in
  match existing with
  | [] => blankGrid v drivers
  | _ =>
      map (λ r, GridRow.mk (ResultEntry.driverId r)
                           (VNum (Int (ResultEntry.position r)))
                           (VStr (statusString (ResultEntry.status r)))
                           (match v with
                            | SingleSeason => VUndefined
                            | MultiSeason => VBool (ResultEntry.fastestLap r)
                            end))
          existing
  end.

(** The button "Normalize Positions":
    [g.map((r,i)=>({ ...r, position: i+1 }))] *)
Definition normalizePositions (grid : list GridRow.t) : list GridRow.t :=
  imap (λ i g, GridRow.mk (GridRow.driverId g) (VNum (Int (Z.of_nat i + 1)))
                          (GridRow.status g) (GridRow.fastestLap g))
       grid.

(** ** The analytics *)

(** [sortEventsByRound(events)]:
    [[...events].sort((a,b) => (a.round ?? 0) - (b.round ?? 0))].  The round
    of an event record is a number, so [a.round ?? 0] is [a.round]. *)
Definition sortEventsByRound (events : list Event.t) : list Event.t :=
  sort (λ a b, Event.round a - Event.round b) events.

(** [groupResultsByEvent(results)]: for each result,
    [if (!m.has(r.eventId)) m.set(r.eventId, []); m.get(r.eventId).push(r)]. *)
Definition groupResultsByEvent (results : list ResultEntry.t)
    : gmap string (list ResultEntry.t) :=
  fold_left
    (λ m r,
       let m' := match m !! ResultEntry.eventId r with
                 | Some _ => m
                 | None => <[ResultEntry.eventId r := []]> m
                 end in
       alter (λ l, l ++ [r]) (ResultEntry.eventId r) m')
    results ∅.

(** The statistics of a driver in the analytics:
    [{ name, teamId, points, finishes, dnfs, podiums }].  The field
    [avgFinish], a quotient rounded to two decimals, is a floating-point
    number and is not part of the model. *)
Module DriverAnalytics.
Record t : Type :=
  mk { name : string; teamId : string; points : Z; finishes : list Z;
       dnfs : Z; podiums : Z }.
End DriverAnalytics.

(** [n + z] where [n] is a number read from an object. *)
Definition numAdd (n : Num) (z : Z) : Num :=
  match n with
  | Int a => Int (a + z)
  | NaN => NaN
  end.

(** [arr[i] = x] on an array that may have holes ([None]): a write past the
    end extends the array. *)
Definition arraySet {A} (arr : list (option A)) (i : nat) (x : A)
    : list (option A) :=
  if decide (i < length arr)%nat then <[i := Some x]> arr
  else arr ++ replicate (i - length arr) None ++ [Some x].

(** The three tables the analytics fill: the map [driverStats], the map
    [driverCumSeries] and the object [cumByDriver]. *)
Module Analytics.
Record t : Type :=
  mk { driverStats : gmap string DriverAnalytics.t;
       driverCumSeries : gmap string (list (option Num));
       cumByDriver : gmap string Num }.
End Analytics.

(** The tables before the events:
    [driverStats.set(d.id, { name: d.name, teamId: d.teamId || "", points: 0,
                             finishes: [], dnfs: 0, podiums: 0 })],
    [driverCumSeries.set(d.id, [])] for each driver, and
    [cumByDriver = Object.fromEntries(drivers.map(d => [d.id, 0]))]. *)
Definition analyticsInit (drivers : list Driver.t) : Analytics.t :=
  {| Analytics.driverStats :=
       fold_left (λ m d, <[Driver.id d :=
                             DriverAnalytics.mk (Driver.name d)
                               (Driver.teamId d) 0 [] 0 0]> m)
                 drivers ∅;
     Analytics.driverCumSeries :=
       fold_left (λ m d, <[Driver.id d := []]> m) drivers ∅;
     Analytics.cumByDriver :=
       fold_left (λ m d, <[Driver.id d := Int 0]> m) drivers ∅ |}.

(** The updates of the statistics [ds] for a scored row:
    [ds.points += row.pts; if (row.status === 'DNF') ds.dnfs += 1;
     ds.finishes.push(row.pos); if (row.pos <= 3) ds.podiums += 1]. *)
Definition analyticsRecord (row : ScoredOutcome.t) (ds : DriverAnalytics.t)
    : DriverAnalytics.t :=
  {| DriverAnalytics.name := DriverAnalytics.name ds;
     DriverAnalytics.teamId := DriverAnalytics.teamId ds;
     DriverAnalytics.points := DriverAnalytics.points ds + ScoredOutcome.pts row;
     DriverAnalytics.finishes :=
       DriverAnalytics.finishes ds ++ [ScoredOutcome.pos row];
     DriverAnalytics.dnfs :=
       match ScoredOutcome.status row with
       | DNF => DriverAnalytics.dnfs ds + 1
       | _ => DriverAnalytics.dnfs ds
       end;
     DriverAnalytics.podiums :=
       if ScoredOutcome.pos row <=? 3 then DriverAnalytics.podiums ds + 1
       else DriverAnalytics.podiums ds |}.

(** The body of the loop over the scored rows of the event of index [idx]:
    [const ds = driverStats.get(row.driverId); if (!ds) continue;],
    the updates of [ds],
    [cumByDriver[row.driverId] += row.pts;
     driverCumSeries.get(row.driverId)[idx] = cumByDriver[row.driverId]]. *)
Definition analyticsRow (idx : nat) (st : Analytics.t)
    (row : ScoredOutcome.t) : Analytics.t :=
  let id := ScoredOutcome.driverId row in
  match Analytics.driverStats st !! id with
  | None => st                                      (* continue *)
  | Some ds =>
      let cum :=
        numAdd (default NaN (Analytics.cumByDriver st !! id))
               (ScoredOutcome.pts row) in
      {| Analytics.driverStats :=
           <[id := analyticsRecord row ds]> (Analytics.driverStats st);
         Analytics.driverCumSeries :=
           alter (λ arr, arraySet arr idx cum) id
                 (Analytics.driverCumSeries st);
         Analytics.cumByDriver := <[id := cum]> (Analytics.cumByDriver st) |}
  end.

(** The body of the loop over the drivers after the rows of the event of
    index [idx]:
    [const arr = driverCumSeries.get(d.id);
     if (arr[idx] == null) arr[idx] = cumByDriver[d.id] || 0]. *)
Definition analyticsFill (idx : nat) (st : Analytics.t) (d : Driver.t)
    : Analytics.t :=
  {| Analytics.driverStats := Analytics.driverStats st;
     Analytics.driverCumSeries :=
       alter (λ arr,
                match arr !! idx with
                | Some (Some _) => arr
                | _ =>
                    arraySet arr idx
                      (Int (numOr (default NaN (Analytics.cumByDriver st
                                                  !! Driver.id d)) 0))
                end)
             (Driver.id d) (Analytics.driverCumSeries st);
     Analytics.cumByDriver := Analytics.cumByDriver st |}.

(** The callback of [eventsSorted.forEach((e, idx) => { ... })]. *)
Definition analyticsEvent (drivers : list Driver.t)
    (resultsByEvent : gmap string (list ResultEntry.t)) (idx : nat)
    (e : Event.t) (st : Analytics.t) : Analytics.t :=
  let entries :=
    scoreEventEntries e (default [] (resultsByEvent !! Event.id e)) in
  fold_left (analyticsFill idx) drivers
            (fold_left (analyticsRow idx) entries st).

(** [eventsSorted.forEach] from the index [idx] on. *)
Fixpoint analyticsEvents (drivers : list Driver.t)
    (resultsByEvent : gmap string (list ResultEntry.t)) (idx : nat)
    (events : list Event.t) (st : Analytics.t) : Analytics.t :=
  match events with
  | [] => st
  | e :: rest =>
      analyticsEvents drivers resultsByEvent (S idx) rest
                      (analyticsEvent drivers resultsByEvent idx e st)
  end.

(** The tables of the analytics panel for the drivers, events and results
    of the season. *)
Definition analytics (drivers : list Driver.t) (events : list Event.t)
    (results : list ResultEntry.t) : Analytics.t :=
  analyticsEvents drivers (groupResultsByEvent results) 0
                  (sortEventsByRound events) (analyticsInit drivers).

(** [rounds = eventsSorted.map(e => e.round ?? 0)] *)
Definition analyticsRounds (events : list Event.t) : list Z :=
  map Event.round (sortEventsByRound events).

(** A row of the driver table of the analytics; [avgFinish] is left out as
    in [DriverAnalytics.t]. *)
Module AnalyticsRow.
Record t : Type :=
  mk { id : string; name : string; team : string; points : Z;
       podiums : Z; dnfs : Z }.
End AnalyticsRow.

(** A row of the team table of the analytics: [{ id, name, points }] *)
Module TeamTotal.
Record t : Type := mk { id : string; name : string; points : Z }.
End TeamTotal.

Section AnalyticsTables.
Context `{Host}.

(** [driverRows]: for each driver
    [{ id: d.id, name: d.name,
       team: teams.find(t=>t.id===d.teamId)?.name || '—',
       points: s?.points || 0, podiums: s?.podiums || 0, dnfs: s?.dnfs || 0 }]
    with [s = driverStats.get(d.id)], sorted by
    [b.points - a.points || a.name.localeCompare(b.name)]. *)
Definition analyticsDriverRow (teams : list Team.t)
    (driverStats : gmap string DriverAnalytics.t) (d : Driver.t)
    : AnalyticsRow.t :=
  let s := driverStats !! Driver.id d in
  {| AnalyticsRow.id := Driver.id d;
     AnalyticsRow.name := Driver.name d;
     AnalyticsRow.team :=
       match list_find (λ t, Team.id t = Driver.teamId d) teams with
       | Some (_, t) => if String.eqb (Team.name t) "" then "—" else Team.name t
       | None => "—"
       end;
     AnalyticsRow.points := default 0 (DriverAnalytics.points <$> s);
     AnalyticsRow.podiums := default 0 (DriverAnalytics.podiums <$> s);
     AnalyticsRow.dnfs := default 0 (DriverAnalytics.dnfs <$> s) |}.

Definition analyticsRowCompare (a b : AnalyticsRow.t) : Z :=
  orElse (AnalyticsRow.points b - AnalyticsRow.points a)
         (localeCompare (AnalyticsRow.name a) (AnalyticsRow.name b)).

Definition driverRows (drivers : list Driver.t) (teams : list Team.t)
    (driverStats : gmap string DriverAnalytics.t) : list AnalyticsRow.t :=
  sort analyticsRowCompare (map (analyticsDriverRow teams driverStats) drivers).

(** The loop of [teamTotals] over the rows:
    [const teamId = drivers.find(x => x.id === d.id)?.teamId;
     if (!teamId) continue;
     totals.set(teamId, (totals.get(teamId) || 0) + (d.points || 0))]. *)
Definition addToTeam (drivers : list Driver.t) (totals : gmap string Z)
    (d : AnalyticsRow.t) : gmap string Z :=
  match list_find (λ x, Driver.id x = AnalyticsRow.id d) drivers with
  | Some (_, x) =>
      if String.eqb (Driver.teamId x) "" then totals
      else <[Driver.teamId x :=
               default 0 (totals !! Driver.teamId x) + AnalyticsRow.points d]>
             totals
  | None => totals
  end.

Definition teamTotalCompare (a b : TeamTotal.t) : Z :=
  orElse (TeamTotal.points b - TeamTotal.points a)
         (localeCompare (TeamTotal.name a) (TeamTotal.name b)).

(** [teamTotals]: the totals of the loop, then
    [teams.map(t => ({ id: t.id, name: t.name, points: totals.get(t.id) || 0 }))]
    sorted by [b.points - a.points || a.name.localeCompare(b.name)]. *)
Definition teamTotals (drivers : list Driver.t) (teams : list Team.t)
    (rows : list AnalyticsRow.t) : list TeamTotal.t :=
  let totals := fold_left (addToTeam drivers) rows ∅ in
  sort teamTotalCompare
       (map (λ t, TeamTotal.mk (Team.id t) (Team.name t)
                               (default 0 (totals !! Team.id t)))
            teams).

(** [topDrivers = driverRows.slice(0,5)] *)
Definition topDrivers (rows : list AnalyticsRow.t) : list AnalyticsRow.t :=
  take 5 rows.

End AnalyticsTables.

(** ** Editing records *)

(** The fields given to [updateTeam]; a field that is not given is left as
    it is. *)
Module TeamPatch.
Record t : Type :=
  mk { id : option string; name : option string; color : option string }.

(** [{ ...t, ...patch }] *)
Definition merge (t0 : Team.t) (p : t) : Team.t :=
  Team.mk (default (Team.id t0) (id p)) (default (Team.name t0) (name p))
          (default (Team.color t0) (color p)).
End TeamPatch.

(** [updateTeam(id, patch)]:
    [prev.map(t => t.id === id ? { ...t, ...patch } : t)] *)
Definition updateTeam (id : string) (patch : TeamPatch.t)
    (prev : list Team.t) : list Team.t :=
  map (λ t, if decide (Team.id t = id) then TeamPatch.merge t patch else t)
      prev.

(** The fields given to [updateDriver]. *)
Module DriverPatch.
Record t : Type :=
  mk { id : option string; name : option string; country : option string;
       teamId : option string }.

(** [{ ...d, ...patch }] *)
Definition merge (d : Driver.t) (p : t) : Driver.t :=
  Driver.mk (default (Driver.id d) (id p)) (default (Driver.name d) (name p))
            (default (Driver.country d) (country p))
            (default (Driver.teamId d) (teamId p)).
End DriverPatch.

(** [updateDriver(id, patch)]:
    [prev.map(d => d.id === id ? { ...d, ...patch } : d)] *)
Definition updateDriver (id : string) (patch : DriverPatch.t)
    (prev : list Driver.t) : list Driver.t :=
  map (λ d, if decide (Driver.id d = id) then DriverPatch.merge d patch else d)
      prev.

(** ** The seasons *)

(** A season: [{ id, name }] *)
Module Season.
Record t : Type := mk { id : string; name : string }.
End Season.

(** The state [meta]: [{ seasons, activeId }] *)
Module Meta.
Record t : Type := mk { seasons : list Season.t; activeId : string }.
End Meta.

(** [activeSeason = meta.seasons.find(s => s.id === meta.activeId)
                    || meta.seasons[0]] *)
Definition activeSeason (meta : Meta.t) : option Season.t :=
  match list_find (λ s, Season.id s = Meta.activeId meta) (Meta.seasons meta)
  with
  | Some (_, s) => Some s
  | None => head (Meta.seasons meta)
  end.

(** The effect that runs when there is no season:
    [if (!meta.seasons?.length)
       setMeta({ seasons: [{ id, name: "Season 1" }], activeId: id })],
    with [id] the fresh identifier. *)
Definition ensureSeason (newId : string) (meta : Meta.t) : Meta.t :=
  match Meta.seasons meta with
  | [] => Meta.mk [Season.mk newId "Season 1"] newId
  | _ => meta
  end.

(** [createSeason]: [answer] is what [prompt] returns, [None] when the
    dialog is cancelled, and [newId] the fresh identifier.
    [const base = `Season ${meta.seasons.length + 1}`;
     const name = prompt("New season name:", base) || base;
     setMeta({ seasons: [...meta.seasons, { id, name }], activeId: id })] *)
Definition createSeason (answer : option string) (newId : string)
    (meta : Meta.t) : Meta.t :=
  let base := "Season " +:+ pretty (S (length (Meta.seasons meta))) in
  let name := match answer with
              | Some s => if String.eqb s "" then base else s
              | None => base
              end in
  Meta.mk (Meta.seasons meta ++ [Season.mk newId name]) newId.

(** [renameSeason]:
    [if (!activeSeason) return;
     const name = prompt("Rename season:", activeSeason.name);
     if (!name) return;
     setMeta({ ...meta, seasons: meta.seasons.map(s =>
       s.id === activeSeason.id ? { ...s, name } : s) })] *)
Definition renameSeason (answer : option string) (meta : Meta.t) : Meta.t :=
  match activeSeason meta with
  | None => meta
  | Some a =>
      match answer with
      | None => meta
      | Some name =>
          if String.eqb name "" then meta
          else
            Meta.mk
              (map (λ s, if decide (Season.id s = Season.id a)
                         then Season.mk (Season.id s) name else s)
                   (Meta.seasons meta))
              (Meta.activeId meta)
      end
  end.

(** The key of the stored data of a season: [`f1_${kind}_${id}`] *)
Definition seasonKey (kind id : string) : string :=
  "f1_" +:+ kind +:+ "_" +:+ id.

Definition seasonKinds : list string := ["teams"; "drivers"; "events"; "results"].

(** [deleteSeason], on [meta] and the local storage: [confirmed] is what
    [confirm] returns.
    [if (!activeSeason) return;
     if (!confirm(...)) return;
     ["teams","drivers","events","results"].forEach(kind =>
       localStorage.removeItem(`f1_${kind}_${activeSeason.id}`));
     const seasons = meta.seasons.filter(s => s.id !== activeSeason.id);
     setMeta({ seasons, activeId: seasons[0]?.id || "" })] *)
Definition deleteSeason (confirmed : bool) (meta : Meta.t)
    (storage : gmap string string) : Meta.t * gmap string string :=
  match activeSeason meta with
  | None => (meta, storage)
  | Some a =>
      if confirmed then
        let storage' :=
          fold_left (λ st kind, delete (seasonKey kind (Season.id a)) st)
                    seasonKinds storage in
        let seasons :=
          filter (λ s, Season.id s ≠ Season.id a) (Meta.seasons meta) in
        (Meta.mk seasons
                 (match seasons with s :: _ => Season.id s | [] => "" end),
         storage')
      else (meta, storage)
  end.

(** [switchSeason(id)]: [setMeta({ ...meta, activeId: id })] *)
Definition switchSeason (id : string) (meta : Meta.t) : Meta.t :=
  Meta.mk (Meta.seasons meta) id.

(** ** Properties of deleting and adding records *)



(** X1. After a team is deleted the list holds the other teams and not
    the deleted one.  The drivers are the same drivers in the same order, with
    their identifiers, names and countries; the team of a driver is emptied
    when it was the deleted team and left as it is otherwise, so no driver is
    left with the deleted team.  When every driver had no team or a team of
    the list, this still holds afterwards. *)
Theorem deleteTeam_leaves_no_reference (id : string) (teams : list Team.t)
    (drivers : list Driver.t) :
  (id ∉ map Team.id (deleteTeam id teams drivers).1)
  ∧ (∀ t, t ∈ (deleteTeam id teams drivers).1 ↔ t ∈ teams ∧ Team.id t ≠ id)
  ∧ map Driver.id (deleteTeam id teams drivers).2 = map Driver.id drivers
  ∧ Forall2
      (λ d d',
         Driver.id d' = Driver.id d
         ∧ Driver.name d' = Driver.name d
         ∧ Driver.country d' = Driver.country d
         ∧ Driver.teamId d' =
             if decide (Driver.teamId d = id) then "" else Driver.teamId d)
      drivers (deleteTeam id teams drivers).2
  ∧ (id ≠ "" →
     Forall (λ d, Driver.teamId d ≠ id) (deleteTeam id teams drivers).2)
  ∧ (Forall (λ d, Driver.teamId d = ""
                  ∨ Driver.teamId d ∈ map Team.id teams) drivers →
     Forall (λ d, Driver.teamId d = ""
                  ∨ Driver.teamId d
                    ∈ map Team.id (deleteTeam id teams drivers).1)
            (deleteTeam id teams drivers).2).
Proof.
  unfold deleteTeam. cbn [fst snd]. split_and!.
  - intros (t & Hid & Ht)%list_elem_of_fmap.
    by apply list_elem_of_filter in Ht as [Hne _].
  - intros t. rewrite list_elem_of_filter. tauto.
  - rewrite <- list_fmap_compose. apply list_fmap_ext. intros _ d _. simpl.
    by destruct (String.eqb (Driver.teamId d) id).
  - induction drivers as [|d drivers IH]; simpl; constructor; [|exact IH].
    destruct (String.eqb_spec (Driver.teamId d) id) as [Heq|Hne]; simpl.
    + by rewrite decide_True.
    + by rewrite decide_False.
  - intros Hid. apply Forall_fmap, Forall_forall. intros d _. simpl.
    destruct (String.eqb_spec (Driver.teamId d) id); simpl; congruence.
  - intros Hrefs. apply Forall_fmap. eapply Forall_impl; [exact Hrefs|].
    intros d Hd. simpl.
    destruct (String.eqb_spec (Driver.teamId d) id) as [Heq|Hne]; simpl;
      [by left|].
    destruct Hd as [Hd|Hd]; [by left|right].
    apply list_elem_of_fmap in Hd as (t & Hid & Ht).
    apply list_elem_of_fmap. exists t. split; [done|].
    apply list_elem_of_filter. split; [congruence|done].
Qed.

Lemma deleteTeam_leaves_no_reference_witness :
  Forall (λ d, Driver.teamId d ≠ "t1") (deleteTeam "t1" [alpha; beta] [ann; bob; cyd]).2
  ∧ Forall (λ d, Driver.teamId d = ""
                 ∨ Driver.teamId d
                   ∈ map Team.id (deleteTeam "t1" [alpha; beta] [ann; bob; cyd]).1)
           (deleteTeam "t1" [alpha; beta] [ann; bob; cyd]).2.
Proof.
  destruct (deleteTeam_leaves_no_reference "t1" [alpha; beta] [ann; bob; cyd])
    as (_ & _ & _ & _ & Hgone & Hrefs).
  split.
  - apply Hgone. discriminate.
  - apply Hrefs.
    apply Forall_cons. split; [right; apply list_elem_of_here|].
    apply Forall_cons. split; [by left|].
    apply Forall_cons. split; [right; apply list_elem_of_here|].
    apply Forall_nil_2.
Defined.



Lemma StronglySorted_weaken {A} (R R' : A → A → Prop) (l : list A) :
  (∀ a b, R a b → R' a b) → StronglySorted R l → StronglySorted R' l.
Proof.
  intros HR. induction 1 as [|a l Hs IH Ha]; constructor; [done|].
  eapply Forall_impl; [exact Ha|]. intros b. apply HR.
Qed.

Lemma sorted_by_round_snoc (prev : list Event.t) (e : Event.t) :
  StronglySorted (λ a b, Event.round a - Event.round b <= 0) prev →
  Forall (λ a, Event.round a <= Event.round e) prev →
  StronglySorted (λ a b, Event.round a - Event.round b <= 0) (prev ++ [e]).
Proof.
  induction 1 as [|a prev Hs IH Ha]; intros Hle; simpl.
  - repeat constructor.
  - apply Forall_cons in Hle as [Hae Hle]. constructor; [by apply IH|].
    apply Forall_app. split; [done|]. repeat constructor. lia.
Qed.

(** X4. After an event is added the list holds the events it held and the
    new one, in the order of their rounds.  An event added without a round
    gets the round after the number of events; when the list is in the order
    of the rounds and no round is greater than that, the new event is
    appended at the end. *)
Theorem addEvent_by_round (newId today : string) (evt : EventDraft.t)
    (prev : list Event.t) :
  let round := default (Z.of_nat (length prev) + 1) (EventDraft.round evt) in
  let new := Event.mk newId (EventDraft.name evt) round
                      (default today (EventDraft.date evt))
                      (default "GP" (EventDraft.type evt)) in
  (addEvent newId today evt prev ≡ₚ prev ++ [new])
  ∧ StronglySorted (λ a b, Event.round a <= Event.round b)
                   (addEvent newId today evt prev)
  ∧ (StronglySorted (λ a b, Event.round a <= Event.round b) prev →
     Forall (λ a, Event.round a <= round) prev →
     addEvent newId today evt prev = prev ++ [new]).
Proof.
  intros round new. unfold addEvent. fold round. fold new.
  pose proof (consistent_asc Event.round) as Hcons.
  split_and!.
  - apply sort_Permutation.
  - eapply StronglySorted_weaken;
      [|apply (sort_sorted (λ a b, Event.round a - Event.round b))].
    unfold cmpLe. intros a b. lia.
  - intros Hs Hle. apply sort_sorted_id. apply sorted_by_round_snoc; [|done].
    eapply StronglySorted_weaken; [|exact Hs]. intros a b. simpl. lia.
Qed.

Lemma addEvent_by_round_witness :
  addEvent "e3" "2024-03-16"
           (EventDraft.mk "Third" None None (Some "Sprint"))
           [gpEvent; sprintEvent]
  = [gpEvent; sprintEvent] ++ [Event.mk "e3" "Third" 3 "2024-03-16" "Sprint"].
Proof.
  apply (addEvent_by_round "e3" "2024-03-16"
           (EventDraft.mk "Third" None None (Some "Sprint"))
           [gpEvent; sprintEvent]).
  - repeat constructor; simpl; lia.
  - repeat constructor; simpl; lia.
Defined.

(** ** Properties of saving results *)

(** Rewriting with an instance of a lemma, after its beta-reduction. *)
Ltac rewrite_beta H :=
  let Hb := fresh "Hb" in
  pose proof H as Hb; cbv beta in Hb; rewrite Hb; clear Hb.

Lemma filter_none {A} (P : A → Prop) `{!∀ x, Decision (P x)} (l : list A) :
  Forall (λ x, ¬ P x) l → filter P l = [].
Proof.
  induction 1 as [|x l Hx _ IH]; [done|]. by rewrite filter_cons_False.
Qed.

Lemma filter_all {A} (P : A → Prop) `{!∀ x, Decision (P x)} (l : list A) :
  Forall P l → filter P l = l.
Proof.
  induction 1 as [|x l Hx _ IH]; [done|]. by rewrite filter_cons_True, IH.
Qed.

Lemma markFastestLap_driverIds (driverId : string)
    (entries : list RawResult.t) :
  map RawResult.driverId (markFastestLap driverId entries) =
    map RawResult.driverId entries.
Proof.
  induction entries as [|e rest IH]; simpl; [done|].
  destruct (String.eqb (RawResult.driverId e) driverId); simpl; [done|].
  by rewrite IH.
Qed.

Section SavingProperties.
Context `{Host}.

Lemma normalizeResults_keys (rawList : list RawResult.t) :
  map ResultEntry.key (normalizeResults rawList) ≡ₚ map rawKey rawList.
Proof.
  rewrite normalizeResults_Permutation, <- list_fmap_compose.
  by rewrite (list_fmap_ext (ResultEntry.key ∘ normalizeEntry) rawKey _)
    by (intros; apply normalizeEntry_key).
Qed.

Lemma normalizeResults_length (rawList : list RawResult.t) :
  length (normalizeResults rawList) = length rawList.
Proof. by rewrite normalizeResults_Permutation, length_fmap. Qed.

(** Selecting by event commutes with the normalisation of the entries. *)
Lemma filter_normalizeEntry (Q : string → Prop) `{!∀ k, Decision (Q k)}
    (rawList : list RawResult.t) :
  filter (λ r, Q (ResultEntry.eventId r)) (map normalizeEntry rawList) =
    map normalizeEntry (filter (λ r, Q (RawResult.eventId r)) rawList).
Proof.
  induction rawList as [|r l IH]; [done|].
  simpl. rewrite !filter_cons, IH. simpl.
  by destruct (decide (Q (RawResult.eventId r))).
Qed.

(** The stored results of the event [ev] after a bulk replace. *)
Lemma bulkReplace_of_event (ev : string) (entries prev : list RawResult.t) :
  Forall (λ r, RawResult.eventId r = ev) entries →
  filter (λ r, ResultEntry.eventId r = ev)
         (bulkReplaceEventResults ev entries prev)
    ≡ₚ map normalizeEntry entries.
Proof.
  intros Hev. unfold bulkReplaceEventResults.
  rewrite normalizeResults_Permutation.
  rewrite_beta (filter_normalizeEntry (λ k, k = ev)
                  (filter (λ r, RawResult.eventId r ≠ ev) prev ++ entries)).
  rewrite filter_app, list_filter_filter.
  rewrite (filter_none _ prev), app_nil_l.
  - by rewrite (filter_all _ entries).
  - apply Forall_forall. intros r _ [Heq Hne]. done.
Qed.

(** The stored results of the other events after a bulk replace. *)
Lemma bulkReplace_of_others (ev : string) (entries prev : list RawResult.t) :
  Forall (λ r, RawResult.eventId r = ev) entries →
  filter (λ r, ResultEntry.eventId r ≠ ev)
         (bulkReplaceEventResults ev entries prev)
    ≡ₚ map normalizeEntry (filter (λ r, RawResult.eventId r ≠ ev) prev).
Proof.
  intros Hev. unfold bulkReplaceEventResults.
  rewrite normalizeResults_Permutation.
  rewrite_beta (filter_normalizeEntry (λ k, k ≠ ev)
                  (filter (λ r, RawResult.eventId r ≠ ev) prev ++ entries)).
  rewrite filter_app, list_filter_filter.
  rewrite (filter_none _ entries), app_nil_r.
  - rewrite (list_filter_iff
               (λ r, RawResult.eventId r ≠ ev ∧ RawResult.eventId r ≠ ev)
               (λ r, RawResult.eventId r ≠ ev)); [done|].
    tauto.
  - eapply Forall_impl; [exact Hev|]. intros r Hr Hne. done.
Qed.

Lemma saveAll_Some v ev fastestLapDriverId grid prev stored :
  saveAll v (Some ev) fastestLapDriverId grid prev = Some stored →
  ∃ entries,
    stored = bulkReplaceEventResults (Event.id ev) entries prev
    ∧ NoDup (map GridRow.driverId (filter (λ g, GridRow.driverId g ≠ "") grid))
    ∧ map RawResult.driverId entries =
        map GridRow.driverId (filter (λ g, GridRow.driverId g ≠ "") grid)
    ∧ Forall (λ r, RawResult.eventId r = Event.id ev) entries
    ∧ (entries = map (gridEntry v ev)
                     (filter (λ g, GridRow.driverId g ≠ "") grid)
       ∨ (Event.type ev = "GP" ∧ fastestLapDriverId ≠ ""
          ∧ entries = markFastestLap fastestLapDriverId
                        (map (gridEntry v ev)
                             (filter (λ g, GridRow.driverId g ≠ "") grid)))).
Proof.
  unfold saveAll. intros Hsave.
  destruct (duplicateDriver ∅ _) eqn:Hd; [done|].
  apply duplicateDriver_false in Hd as [Hnd _].
  injection Hsave as <-.
  set (filled := filter (λ g, GridRow.driverId g ≠ "") grid) in *.
  assert (map RawResult.driverId (map (gridEntry v ev) filled)
          = map GridRow.driverId filled) as Hids.
  { rewrite <- list_fmap_compose. by apply list_fmap_ext. }
  assert (Forall (λ r, RawResult.eventId r = Event.id ev)
                 (map (gridEntry v ev) filled)) as Hev.
  { apply Forall_fmap, Forall_true. done. }
  destruct (String.eqb_spec (Event.type ev) "GP") as [Hgp|Hgp];
    destruct (String.eqb_spec fastestLapDriverId "") as [Hfl|Hfl]; simpl.
  - exists (map (gridEntry v ev) filled). split_and!; try done. by left.
  - exists (markFastestLap fastestLapDriverId (map (gridEntry v ev) filled)).
    split_and!; try done.
    + by rewrite markFastestLap_driverIds.
    + by apply markFastestLap_eventId.
    + by right.
  - exists (map (gridEntry v ev) filled). split_and!; try done. by left.
  - exists (map (gridEntry v ev) filled). split_and!; try done. by left.
Qed.

Lemma blankGrid_unfilled v drivers :
  filter (λ g, GridRow.driverId g ≠ "") (blankGrid v drivers) = [].
Proof.
  unfold blankGrid. generalize (seq 0 (Nat.max 20 (length drivers))).
  intros l. induction l as [|i l IH]; [done|].
  simpl. rewrite filter_cons_False; [done|]. simpl. tauto.
Qed.

End SavingProperties.

Lemma head_filter_list_find {A} (P : A → Prop) `{!∀ x, Decision (P x)}
    (l : list A) :
  head (filter P l) = snd <$> list_find P l.
Proof.
  induction l as [|x l IH]; [done|].
  rewrite filter_cons. cbn [list_find]. case_decide; [done|].
  rewrite IH. by destruct (list_find P l) as [[i y]|].
Qed.

Lemma NoDup_fmap_eq {A B} (f : A → B) (l : list A) (x y : A) :
  NoDup (map f l) → x ∈ l → y ∈ l → f x = f y → x = y.
Proof.
  induction l as [|z l IH]; simpl; [by intros _ ?%elem_of_nil|].
  intros [Hz Hl]%NoDup_cons [->|Hx]%elem_of_cons [->|Hy]%elem_of_cons Heq.
  - done.
  - destruct Hz. rewrite Heq. by apply list_elem_of_fmap_2.
  - destruct Hz. rewrite <- Heq. by apply list_elem_of_fmap_2.
  - by apply IH.
Qed.

(** X5. Saving one result stores, for the event and the driver of the
    entry, the first stored result of this event and driver with the fields
    of the entry in place of its own, or the entry itself when there is no
    such result, normalised: every field the entry gives is stored as
    [normalizeResults] coerces it, and a field it does not give keeps the
    stored value.  Every result of another event or driver stays, the store
    grows by one exactly when the event and driver had no result, and a store
    with at most one result for each event and driver stays so, the saved
    result being the one of its event and driver. *)
Theorem saveResultEntry_upsert `{Host} (entry : ResultPatch.t)
    (prev : list RawResult.t) :
  let k := (ResultPatch.eventId entry, ResultPatch.driverId entry) in
  let old := head (filter (λ r, rawKey r = k) prev) in
  let saved :=
    normalizeEntry
      (match old with
       | Some r => ResultPatch.merge r entry
       | None => ResultPatch.asRaw entry
       end) in
  k ∈ map ResultEntry.key (saveResultEntry entry prev)
  ∧ length (saveResultEntry entry prev) =
      (if decide (k ∈ map rawKey prev) then length prev
       else S (length prev))
  ∧ (∀ r, r ∈ prev → rawKey r ≠ k →
          normalizeEntry r ∈ saveResultEntry entry prev)
  ∧ (NoDup (map rawKey prev) →
     NoDup (map ResultEntry.key (saveResultEntry entry prev)))
  ∧ saved ∈ saveResultEntry entry prev
  ∧ ResultEntry.key saved = k
  ∧ (∀ p, ResultPatch.position entry = Some p →
          ResultEntry.position saved = Z.max 1 (numOr (ToNumber p) 1))
  ∧ (∀ st, ResultPatch.status entry = Some st →
           ResultEntry.status saved =
             if strictEqStr st "DNF" then DNF
             else if strictEqStr st "DNS" then DNS else FIN)
  ∧ (∀ f, ResultPatch.fastestLap entry = Some f →
          ResultEntry.fastestLap saved = ToBoolean f)
  ∧ (∀ r, old = Some r →
          (ResultPatch.position entry = None →
           ResultEntry.position saved = ResultEntry.position (normalizeEntry r))
          ∧ (ResultPatch.status entry = None →
             ResultEntry.status saved = ResultEntry.status (normalizeEntry r))
          ∧ (ResultPatch.fastestLap entry = None →
             ResultEntry.fastestLap saved
             = ResultEntry.fastestLap (normalizeEntry r)))
  ∧ (NoDup (map rawKey prev) →
     ∀ r, r ∈ saveResultEntry entry prev → ResultEntry.key r = k → r = saved).
Proof.
  intros k old saved.
  assert (old = snd <$> list_find
                  (λ r, RawResult.eventId r = ResultPatch.eventId entry
                        ∧ RawResult.driverId r = ResultPatch.driverId entry)
                  prev) as Hold_find.
  { unfold old. rewrite head_filter_list_find. f_equal.
    apply list_find_ext. intros r. unfold rawKey, k. split.
    - by intros [= -> ->].
    - by intros [-> ->]. }
  assert (ResultEntry.key saved = k) as Hkey.
  { unfold saved. by destruct old. }
  assert (k ∈ map ResultEntry.key (saveResultEntry entry prev)
          ∧ length (saveResultEntry entry prev) =
              (if decide (k ∈ map rawKey prev) then length prev
               else S (length prev))
          ∧ (∀ r, r ∈ prev → rawKey r ≠ k →
                  normalizeEntry r ∈ saveResultEntry entry prev)
          ∧ (NoDup (map rawKey prev) →
             NoDup (map ResultEntry.key (saveResultEntry entry prev)))
          ∧ saved ∈ saveResultEntry entry prev) as (Hin & Hlen & Hstay & Hnd & Hsaved).
  { unfold saved. rewrite Hold_find. unfold saveResultEntry.
    destruct (list_find _ prev) as [[idx old']|] eqn:Hfind; cbn [fmap option_fmap option_map snd].
    - apply list_find_Some in Hfind as (Hidx & [Hev Hdr] & _).
      assert (rawKey (ResultPatch.merge old' entry) = rawKey old') as Hsame.
      { unfold rawKey. simpl. by rewrite Hev, Hdr. }
      assert (rawKey old' = k) as Hold
        by (unfold rawKey, k; by rewrite Hev, Hdr).
      assert (map rawKey (<[idx := ResultPatch.merge old' entry]> prev)
              = map rawKey prev) as Hkeys.
      { rewrite list_fmap_insert, Hsame. apply list_insert_id.
        by rewrite list_lookup_fmap, Hidx. }
      assert (k ∈ map rawKey prev) as Hin.
      { rewrite <- Hold. apply list_elem_of_fmap_2.
        by eapply list_elem_of_lookup_2. }
      split_and!.
      + by rewrite normalizeResults_keys, Hkeys.
      + rewrite normalizeResults_length, length_insert. by rewrite decide_True.
      + intros r Hr Hne. unfold normalizeResults.
        apply elem_of_sort, list_elem_of_fmap_2.
        apply list_elem_of_lookup in Hr as [j Hj].
        apply list_elem_of_lookup. exists j.
        rewrite list_lookup_insert_ne; [done|].
        intros <-. rewrite Hidx in Hj. injection Hj as <-. congruence.
      + intros Hnd. by rewrite normalizeResults_keys, Hkeys.
      + unfold normalizeResults. apply elem_of_sort, list_elem_of_fmap_2.
        apply list_elem_of_lookup. exists idx.
        apply list_lookup_insert_eq. by eapply lookup_lt_Some.
    - apply list_find_None in Hfind.
      assert (k ∉ map rawKey prev) as Hnin.
      { intros (r & Hk & Hr)%list_elem_of_fmap.
        rewrite Forall_forall in Hfind. apply (Hfind r Hr).
        unfold k, rawKey in Hk. by simplify_eq. }
      split_and!.
      + rewrite normalizeResults_keys, fmap_app. apply elem_of_app. right.
        apply list_elem_of_here.
      + rewrite normalizeResults_length, length_app. simpl.
        rewrite decide_False by done. lia.
      + intros r Hr _. unfold normalizeResults.
        apply elem_of_sort, list_elem_of_fmap_2, elem_of_app. by left.
      + intros Hnd. rewrite normalizeResults_keys, fmap_app.
        apply NoDup_app. split_and!; [done| |apply NoDup_singleton].
        intros x Hx Hx'. apply list_elem_of_singleton in Hx'. by subst.
      + unfold normalizeResults. apply elem_of_sort, list_elem_of_fmap_2.
        apply elem_of_app. right. apply list_elem_of_here. }
  split_and!; try done.
  - intros p Hp. unfold saved. destruct old; simpl; by rewrite Hp.
  - intros st Hst. unfold saved. destruct old; simpl; by rewrite Hst.
  - intros f Hf. unfold saved. destruct old; simpl; by rewrite Hf.
  - intros r Hr. unfold saved. rewrite Hr. simpl.
    split_and!; by intros ->.
  - intros Hnodup r Hr Hk.
    apply (NoDup_fmap_eq ResultEntry.key (saveResultEntry entry prev));
      [by apply Hnd|done|done|congruence].
Qed.

Lemma saveResultEntry_upsert_witness :
  NoDup (map ResultEntry.key
           (@saveResultEntry codeUnitHost
              (ResultPatch.mk "e1" "d1" (Some (VNum (Int 2))) None None)
              [RawResult.mk "e1" "d1" (VNum (Int 1)) (VStr "DNF") (VBool true);
               RawResult.mk "e1" "d2" (VNum (Int 2)) (VStr "FIN") (VBool false)]))
  ∧ ResultEntry.mk "e1" "d1" 2 DNF true
    ∈ @saveResultEntry codeUnitHost
        (ResultPatch.mk "e1" "d1" (Some (VNum (Int 2))) None None)
        [RawResult.mk "e1" "d1" (VNum (Int 1)) (VStr "DNF") (VBool true);
         RawResult.mk "e1" "d2" (VNum (Int 2)) (VStr "FIN") (VBool false)].
Proof.
  destruct (@saveResultEntry_upsert codeUnitHost
              (ResultPatch.mk "e1" "d1" (Some (VNum (Int 2))) None None)
              [RawResult.mk "e1" "d1" (VNum (Int 1)) (VStr "DNF") (VBool true);
               RawResult.mk "e1" "d2" (VNum (Int 2)) (VStr "FIN") (VBool false)])
    as (_ & _ & _ & Hnd & Hsaved & _).
  split; [|exact Hsaved].
  apply Hnd. apply (bool_decide_unpack _). by vm_compute.
Defined.

(** A grid for the examples: two filled rows and an empty one. *)
Definition exampleGrid : list GridRow.t :=
  [GridRow.mk "d2" (VNum (Int 1)) (VStr "FIN") (VBool false);
   GridRow.mk "" (VNum (Int 2)) (VStr "FIN") (VBool false);
   GridRow.mk "d1" (VNum (Int 3)) (VStr "DNF") (VBool true)].

(** Stored results for the examples, as raw records. *)
Definition storedResults : list RawResult.t :=
  map ResultEntry.toRaw seasonResults.

(** X6. A save of the grid replaces the results of the current event and
    no others: the results of the other events are the stored ones,
    normalised, and the event has exactly one result for each driver of a
    filled row.  Saving the empty grid removes every result of the event, and
    without a current event nothing is stored. *)
Theorem saveAll_replaces_event `{Host} (v : Version) (ev : Event.t)
    (fastestLapDriverId : string) (grid : list GridRow.t)
    (prev : list RawResult.t) :
  (∀ stored,
     saveAll v (Some ev) fastestLapDriverId grid prev = Some stored →
     filter (λ r, ResultEntry.eventId r ≠ Event.id ev) stored
       ≡ₚ map normalizeEntry
              (filter (λ r, RawResult.eventId r ≠ Event.id ev) prev)
     ∧ map ResultEntry.driverId
           (filter (λ r, ResultEntry.eventId r = Event.id ev) stored)
         ≡ₚ map GridRow.driverId (filter (λ g, GridRow.driverId g ≠ "") grid)
     ∧ NoDup (map ResultEntry.driverId
                  (filter (λ r, ResultEntry.eventId r = Event.id ev) stored)))
  ∧ (∀ drivers,
       saveAll v (Some ev) fastestLapDriverId (blankGrid v drivers) prev =
         Some (normalizeResults
                 (filter (λ r, RawResult.eventId r ≠ Event.id ev) prev)))
  ∧ saveAll v None fastestLapDriverId grid prev = None.
Proof.
  split_and!; [|intros drivers|done].
  - intros stored (entries & -> & Hnd & Hids & Hev & _)%saveAll_Some.
    assert (map ResultEntry.driverId
              (filter (λ r, ResultEntry.eventId r = Event.id ev)
                 (bulkReplaceEventResults (Event.id ev) entries prev))
            ≡ₚ map GridRow.driverId
                 (filter (λ g, GridRow.driverId g ≠ "") grid)) as Hdrivers.
    { rewrite bulkReplace_of_event by done.
      rewrite <- list_fmap_compose, <- Hids.
      assert (ResultEntry.driverId ∘ normalizeEntry <$> entries
              = map RawResult.driverId entries) as -> by by apply list_fmap_ext.
      done. }
    split_and!.
    + by apply bulkReplace_of_others.
    + done.
    + by rewrite Hdrivers.
  - unfold saveAll. rewrite blankGrid_unfilled. simpl.
    destruct (_ && _); simpl; unfold bulkReplaceEventResults;
      by rewrite app_nil_r.
Qed.

Lemma saveAll_replaces_event_witness :
  NoDup (map ResultEntry.driverId
           (filter (λ r, ResultEntry.eventId r = "e1")
              [ResultEntry.mk "e1" "d2" 1 FIN false;
               ResultEntry.mk "e1" "d1" 3 DNF true;
               ResultEntry.mk "e2" "d1" 1 FIN true])).
Proof.
  apply (@saveAll_replaces_event codeUnitHost MultiSeason gpEvent ""
           exampleGrid storedResults).
  reflexivity.
Defined.

Lemma elem_of_markFastestLap (driverId : string) (entries : list RawResult.t)
    (e : RawResult.t) :
  e ∈ markFastestLap driverId entries →
  e ∈ entries
  ∨ (RawResult.fastestLap e = VBool true ∧ RawResult.driverId e = driverId).
Proof.
  induction entries as [|x rest IH]; simpl; [by left|].
  destruct (String.eqb_spec (RawResult.driverId x) driverId) as [Heq|Hne].
  - intros [->|Hin]%elem_of_cons.
    + right. by split.
    + left. by apply list_elem_of_further.
  - intros [->|Hin]%elem_of_cons.
    + left. apply list_elem_of_here.
    + destruct (IH Hin) as [?|?]; [left|by right].
      by apply list_elem_of_further.
Qed.

Lemma filter_length_at_most_one {A B} (f : A → B) (P : A → Prop)
    `{!∀ x, Decision (P x)} (d : B) (l : list A) :
  NoDup (map f l) → (∀ x, x ∈ l → P x → f x = d) →
  (length (filter P l) ≤ 1)%nat.
Proof.
  intros Hnd Hd.
  assert (NoDup (map f (filter P l))) as Hnd'.
  { revert Hnd. clear Hd. induction l as [|x l IH]; simpl; [done|].
    intros [Hx Hl]%NoDup_cons. rewrite filter_cons.
    case_decide; [|by apply IH]. simpl. apply NoDup_cons. split; [|by apply IH].
    intros (y & Hy & Hin)%list_elem_of_fmap. apply Hx.
    apply list_elem_of_filter in Hin as [_ Hin].
    apply list_elem_of_fmap. by exists y. }
  assert (∀ x, x ∈ filter P l → f x = d) as Hall.
  { intros x [HP Hx]%list_elem_of_filter. by apply Hd. }
  destruct (filter P l) as [|x [|y k]]; simpl; [lia..|].
  exfalso. simpl in Hnd'. apply NoDup_cons in Hnd' as [Hx _].
  apply Hx. rewrite (Hall x), <- (Hall y).
  - apply list_elem_of_here.
  - apply list_elem_of_further, list_elem_of_here.
  - apply list_elem_of_here.
Qed.

(** X7. In src/App.jsx, after a save of the grid a result of the current
    event claims the fastest lap only when the event is a Grand Prix and the
    result is the one of the driver selected for the fastest lap; so at most
    one result of the event claims it. *)
Theorem saveAll_single_fastest_lap `{Host} (ev : Event.t)
    (fastestLapDriverId : string) (grid : list GridRow.t)
    (prev : list RawResult.t) (stored : list ResultEntry.t) :
  saveAll SingleSeason (Some ev) fastestLapDriverId grid prev = Some stored →
  (∀ r, r ∈ stored → ResultEntry.eventId r = Event.id ev →
        ResultEntry.fastestLap r = true →
        Event.type ev = "GP" ∧ ResultEntry.driverId r = fastestLapDriverId)
  ∧ (length (filter (λ r, ResultEntry.fastestLap r = true)
                    (filter (λ r, ResultEntry.eventId r = Event.id ev) stored))
     ≤ 1)%nat.
Proof.
  intros (entries & -> & Hnd & Hids & Hev & Hentries)%saveAll_Some.
  set (filled := filter (λ g, GridRow.driverId g ≠ "") grid) in *.
  assert (∀ r,
    r ∈ filter (λ r, ResultEntry.eventId r = Event.id ev)
               (bulkReplaceEventResults (Event.id ev) entries prev) →
    ResultEntry.fastestLap r = true →
    Event.type ev = "GP" ∧ ResultEntry.driverId r = fastestLapDriverId)
    as Hclaim.
  { intros r Hr Hfl. rewrite bulkReplace_of_event in Hr by done.
    apply list_elem_of_fmap in Hr as (e & -> & He). simpl in *.
    assert (∀ e', e' ∈ map (gridEntry SingleSeason ev) filled →
                  ToBoolean (RawResult.fastestLap e') = false) as Hbase.
    { by intros e' (g & -> & _)%list_elem_of_fmap. }
    destruct Hentries as [->|(Hgp & _ & ->)].
    - by rewrite Hbase in Hfl.
    - apply elem_of_markFastestLap in He as [He|[_ Hd]]; [|done].
      by rewrite Hbase in Hfl. }
  split.
  - intros r Hr Hid Hfl. apply Hclaim; [|done].
    by apply list_elem_of_filter.
  - apply (filter_length_at_most_one ResultEntry.driverId _
             fastestLapDriverId).
    + rewrite bulkReplace_of_event by done.
      rewrite <- list_fmap_compose.
      assert (ResultEntry.driverId ∘ normalizeEntry <$> entries
              = map RawResult.driverId entries) as -> by by apply list_fmap_ext.
      by rewrite Hids.
    + intros r Hr Hfl. by apply Hclaim.
Qed.

Lemma saveAll_single_fastest_lap_witness :
  (length (filter (λ r, ResultEntry.fastestLap r = true)
             (filter (λ r, ResultEntry.eventId r = "e1")
                [ResultEntry.mk "e1" "d2" 1 FIN true;
                 ResultEntry.mk "e1" "d1" 3 DNF false;
                 ResultEntry.mk "e2" "d1" 1 FIN true])) ≤ 1)%nat.
Proof.
  apply (@saveAll_single_fastest_lap codeUnitHost gpEvent "d2" exampleGrid
           storedResults).
  reflexivity.
Defined.

(** The row of the grid for a stored result. *)
Definition rowOf (v : Version) (r : ResultEntry.t) : GridRow.t :=
  GridRow.mk (ResultEntry.driverId r) (VNum (Int (ResultEntry.position r)))
             (VStr (statusString (ResultEntry.status r)))
             (match v with
              | SingleSeason => VUndefined
              | MultiSeason => VBool (ResultEntry.fastestLap r)
              end).

(** A stored result after its event [ev] is saved again from the grid: the
    grid of src/App.jsx does not keep the fastest lap. *)
Definition resaved (v : Version) (ev : string) (r : ResultEntry.t)
    : ResultEntry.t :=
  match v with
  | MultiSeason => r
  | SingleSeason =>
      if decide (ResultEntry.eventId r = ev)
      then ResultEntry.mk (ResultEntry.eventId r) (ResultEntry.driverId r)
                          (ResultEntry.position r) (ResultEntry.status r) false
      else r
  end.

Section ResaveProperties.
Context `{Host}.

Lemma gridOf_filled v ev drivers results :
  Forall (λ r, ResultEntry.eventId r = ev → ResultEntry.driverId r ≠ "")
         results →
  filter (λ g, GridRow.driverId g ≠ "") (gridOf v ev drivers results) =
    map (rowOf v) (entriesOf results (Event.mk ev "" 0 "" "")).
Proof.
  intros Hids. unfold gridOf, entriesOf. cbn [Event.id].
  assert (Forall (λ r, ResultEntry.driverId r ≠ "")
            (sort comparePositions
               (filter (λ r, ResultEntry.eventId r = ev) results))) as Hall.
  { apply Forall_forall. intros r Hr. apply elem_of_sort in Hr.
    apply list_elem_of_filter in Hr as [Hev Hr].
    rewrite Forall_forall in Hids. by apply Hids. }
  destruct (sort comparePositions _) as [|r l] eqn:Hsorted.
  - apply blankGrid_unfilled.
  - change (filter (λ g, GridRow.driverId g ≠ "") (map (rowOf v) (r :: l))
            = map (rowOf v) (r :: l)).
    apply filter_all, Forall_fmap. eapply Forall_impl; [exact Hall|]. done.
Qed.

Lemma normalize_gridEntry v ev r :
  ResultEntry.eventId r = Event.id ev → 1 <= ResultEntry.position r →
  normalizeEntry (gridEntry v ev (rowOf v r)) = resaved v (Event.id ev) r.
Proof.
  destruct r as [e d p s f]. simpl. intros -> Hp.
  unfold normalizeEntry, gridEntry, rowOf, resaved. simpl.
  destruct (Z.eqb_spec p 0); [lia|]. rewrite Z.max_r by lia.
  destruct v; simpl.
  - rewrite decide_True by done. by destruct s.
  - by destruct s, f.
Qed.

Lemma filter_toRaw (Q : string → Prop) `{!∀ k, Decision (Q k)}
    (results : list ResultEntry.t) :
  filter (λ r, Q (RawResult.eventId r)) (map ResultEntry.toRaw results) =
    map ResultEntry.toRaw (filter (λ r, Q (ResultEntry.eventId r)) results).
Proof.
  induction results as [|r l IH]; [done|].
  simpl. rewrite !filter_cons, IH. simpl.
  by destruct (decide (Q (ResultEntry.eventId r))).
Qed.

Lemma normalizeEntry_toRaw_all (results : list ResultEntry.t) :
  Forall (λ r, 1 <= ResultEntry.position r) results →
  map normalizeEntry (map ResultEntry.toRaw results) = results.
Proof.
  induction 1 as [|r l Hr _ IH]; simpl; [done|].
  by rewrite normalizeEntry_toRaw, IH.
Qed.

End ResaveProperties.

(** X8. Opening the grid of an event and saving it unchanged, with no
    driver selected for the fastest lap, keeps the stored results: in the
    multi-season application the store holds the same results, and in
    src/App.jsx the same results with the fastest lap of the event cleared.
    This needs the stored positions to be at least 1, and the results of the
    event to have distinct, non-empty drivers. *)
Theorem resave_unchanged_grid `{Host} (v : Version) (ev : Event.t)
    (drivers : list Driver.t) (results : list ResultEntry.t) :
  Forall (λ r, 1 <= ResultEntry.position r) results →
  Forall (λ r, ResultEntry.eventId r = Event.id ev →
               ResultEntry.driverId r ≠ "") results →
  NoDup (map ResultEntry.driverId
             (filter (λ r, ResultEntry.eventId r = Event.id ev) results)) →
  ∃ stored,
    saveAll v (Some ev) "" (gridOf v (Event.id ev) drivers results)
            (map ResultEntry.toRaw results) = Some stored
    ∧ stored ≡ₚ map (resaved v (Event.id ev)) results.
Proof.
  intros Hpos Hids Hnd.
  set (existing := entriesOf results (Event.mk (Event.id ev) "" 0 "" "")).
  assert (existing ≡ₚ filter (λ r, ResultEntry.eventId r = Event.id ev) results)
    as Hexisting by apply sort_Permutation.
  assert (Forall (λ r, ResultEntry.eventId r = Event.id ev
                       ∧ 1 <= ResultEntry.position r) existing) as Hall.
  { rewrite Hexisting. apply Forall_forall.
    intros r [Hev Hr]%list_elem_of_filter. split; [done|].
    rewrite Forall_forall in Hpos. by apply Hpos. }
  unfold saveAll. rewrite gridOf_filled by done. fold existing.
  rewrite andb_false_r.
  assert (duplicateDriver ∅ (map (rowOf v) existing) = false) as ->.
  { apply duplicateDriver_false. split.
    - rewrite <- list_fmap_compose.
      assert (GridRow.driverId ∘ rowOf v <$> existing
              = map ResultEntry.driverId existing) as ->
        by by apply list_fmap_ext.
      by rewrite Hexisting.
    - apply Forall_true. intros g. apply not_elem_of_empty. }
  eexists. split; [done|].
  unfold bulkReplaceEventResults.
  rewrite normalizeResults_Permutation, fmap_app.
  rewrite_beta (filter_toRaw (λ k, k ≠ Event.id ev) results).
  rewrite normalizeEntry_toRaw_all.
  2:{ apply Forall_forall. intros r [_ Hr]%list_elem_of_filter.
      rewrite Forall_forall in Hpos. by apply Hpos. }
  rewrite <- !list_fmap_compose.
  assert (normalizeEntry ∘ gridEntry v ev ∘ rowOf v <$> existing
          = map (resaved v (Event.id ev)) existing) as ->.
  { apply Forall_fmap_ext_1. eapply Forall_impl; [exact Hall|].
    intros r [Hev Hp]. by apply normalize_gridEntry. }
  assert (filter (λ r, ResultEntry.eventId r ≠ Event.id ev) results
          = map (resaved v (Event.id ev))
                (filter (λ r, ResultEntry.eventId r ≠ Event.id ev) results))
    as ->.
  { symmetry. rewrite <- (list_fmap_id (filter _ results)) at 2.
    apply Forall_fmap_ext_1, Forall_forall.
    intros r [Hne _]%list_elem_of_filter. unfold resaved.
    destruct v; [|done]. by rewrite decide_False. }
  rewrite Hexisting, <- fmap_app. apply fmap_Permutation.
  rewrite Permutation_app_comm.
  apply (filter_app_complement (λ r, ResultEntry.eventId r = Event.id ev)).
Qed.

Lemma resave_unchanged_grid_witness :
  ∃ stored,
    @saveAll codeUnitHost MultiSeason (Some gpEvent) ""
      (gridOf MultiSeason "e1" seasonDrivers seasonResults)
      (map ResultEntry.toRaw seasonResults) = Some stored
    ∧ stored ≡ₚ map (resaved MultiSeason "e1") seasonResults.
Proof.
  apply (@resave_unchanged_grid codeUnitHost MultiSeason gpEvent seasonDrivers
           seasonResults).
  - repeat constructor; discriminate.
  - repeat constructor; discriminate.
  - apply (bool_decide_unpack _). by vm_compute.
Defined.

(** ** Invariants of the standings *)

Lemma computePointsFor_bounds (p : Z) (type : string) :
  0 <= computePointsFor p type <= 25.
Proof.
  unfold computePointsFor.
  change (Z.of_nat (length SPRINT_POINTS)) with 8.
  change (Z.of_nat (length RACE_POINTS)) with 10.
  destruct (String.eqb type "Sprint").
  - destruct (Z.leb_spec 1 p), (Z.leb_spec p 8); cbn [andb]; try lia.
    assert (p = 1 ∨ p = 2 ∨ p = 3 ∨ p = 4 ∨ p = 5 ∨ p = 6 ∨ p = 7 ∨ p = 8)
      as Hcases by lia.
    destruct_or!; subst p; simpl; lia.
  - destruct (Z.leb_spec 1 p), (Z.leb_spec p 10); cbn [andb]; try lia.
    assert (p = 1 ∨ p = 2 ∨ p = 3 ∨ p = 4 ∨ p = 5 ∨ p = 6 ∨ p = 7 ∨ p = 8
            ∨ p = 9 ∨ p = 10) as Hcases by lia.
    destruct_or!; subst p; simpl; lia.
Qed.

Lemma entryPts_bounds (e : Event.t) (r : ResultEntry.t) :
  0 <= entryPts e r <= 26.
Proof.
  unfold entryPts, basePts, flBonus.
  pose proof (computePointsFor_bounds (ResultEntry.position r) (Event.type e)).
  destruct (ResultEntry.status r), (_ && _); lia.
Qed.

Lemma foldr_min_snoc (l : list Z) (p : Z) :
  foldr Z.min 99 (l ++ [p]) = Z.min (foldr Z.min 99 l) p.
Proof. induction l as [|x l IH]; simpl; [lia|]. rewrite IH. lia. Qed.

(** The counters of a driver, as functions of the list of finishes. *)
Definition countersOk (v : Version) (d : Stats.t) : Prop :=
  Stats.wins d = Z.of_nat (length (filter (λ p, p = 1) (Stats.finishes d)))
  ∧ Stats.podiums d =
      Z.of_nat (length (filter (λ p, isPodium v p = true) (Stats.finishes d)))
  ∧ Stats.bestFinish d = foldr Z.min 99 (Stats.finishes d)
  ∧ 0 <= Stats.points d <= 26 * Z.of_nat (length (Stats.finishes d)).

Lemma countersOk_recordResult v e r d :
  countersOk v d → countersOk v (recordResult v e r d).
Proof.
  intros (Hw & Hp & Hb & Hpts). unfold countersOk. simpl.
  pose proof (entryPts_bounds e r).
  rewrite !filter_app, !length_app, !filter_cons, !filter_nil, foldr_min_snoc.
  split_and!.
  - destruct (Z.eqb_spec (ResultEntry.position r) 1);
      [rewrite decide_True by done|rewrite decide_False by done]; simpl; lia.
  - destruct (isPodium v (ResultEntry.position r));
      [rewrite decide_True by done|rewrite decide_False by done]; simpl; lia.
  - by rewrite Hb.
  - simpl. lia.
  - simpl. lia.
Qed.

Lemma countersOk_recordAll v l d : countersOk v d → countersOk v (recordAll v l d).
Proof.
  revert d. induction l as [|p l IH]; intros d Hd; [done|].
  apply IH. by apply countersOk_recordResult.
Qed.

Lemma filter_wins_podiums v (l : list Z) :
  (length (filter (λ p : Z, p = 1%Z) l)
   ≤ length (filter (λ p : Z, isPodium v p = true) l))%nat.
Proof.
  induction l as [|p l IH]; [done|]. rewrite !filter_cons.
  destruct (decide (p = 1)) as [->|Hne].
  - rewrite decide_True by (by destruct v). simpl. lia.
  - case_decide; simpl; lia.
Qed.

(** X9. In every row of the driver table the counters are functions of the
    list of finishes: the wins are the finishes in position 1, the podiums
    the finishes that pass the podium test, and the best finish the least of
    99 and the finishes (so it is never above 99).  The wins are at most the
    podiums, the podiums at most the finishes, and the points are between 0
    and 26 for each finish. *)
Theorem standings_counters `{Host} (v : Version) (drivers : list Driver.t)
    (teams : list Team.t) (events : list Event.t)
    (results : list ResultEntry.t) (driverById : gmap string Driver.t) :
  Forall
    (λ row,
       DriverRow.wins row =
         Z.of_nat (length (filter (λ p, p = 1) (DriverRow.finishes row)))
       ∧ DriverRow.podiums row =
           Z.of_nat (length (filter (λ p, isPodium v p = true)
                                    (DriverRow.finishes row)))
       ∧ DriverRow.bestFinish row = foldr Z.min 99 (DriverRow.finishes row)
       ∧ 0 <= DriverRow.wins row <= DriverRow.podiums row
       ∧ DriverRow.podiums row <= Z.of_nat (length (DriverRow.finishes row))
       ∧ DriverRow.bestFinish row <= 99
       ∧ 0 <= DriverRow.points row
            <= 26 * Z.of_nat (length (DriverRow.finishes row)))
    (Standings.drivers
       (buildStandings v drivers teams events results driverById)).
Proof.
  rewrite buildStandings_drivers. apply Forall_forall. intros row Hrow.
  apply elem_of_sort, list_elem_of_fmap in Hrow as (d & -> & Hd).
  unfold driverRow, DriverRow.wins, DriverRow.podiums, DriverRow.bestFinish,
    DriverRow.points, DriverRow.finishes. cbn [DriverRow.stats].
  rewrite aggregate_lookup_driver by done. unfold default. cbn [from_option].
  unfold id.
  set (l := filter _ (visited events results)).
  assert (countersOk v (recordAll v l Stats.init)) as (Hw & Hp & Hb & Hpts).
  { apply countersOk_recordAll. unfold countersOk. simpl. lia. }
  pose proof (filter_wins_podiums v (Stats.finishes (recordAll v l Stats.init))).
  pose proof (length_filter (λ p, isPodium v p = true)
                (Stats.finishes (recordAll v l Stats.init))).
  assert (foldr Z.min 99 (Stats.finishes (recordAll v l Stats.init)) <= 99).
  { generalize (Stats.finishes (recordAll v l Stats.init)).
    intros k. induction k; simpl; lia. }
  split_and!; try done; lia.
Qed.

(** X10. The first row of each table has the most points: no driver has
    more points than the driver of the first row, and no team more than the
    team of the first row; a table is empty only when the input list is. *)
Theorem leaders_have_most_points `{Host} (v : Version)
    (drivers : list Driver.t) (teams : list Team.t) (events : list Event.t)
    (results : list ResultEntry.t) (driverById : gmap string Driver.t) :
  match Standings.drivers
          (buildStandings v drivers teams events results driverById) with
  | first :: rest =>
      Forall (λ row, DriverRow.points row <= DriverRow.points first) rest
  | [] => drivers = []
  end
  ∧ match Standings.teams
            (buildStandings v drivers teams events results driverById) with
    | first :: rest =>
        Forall (λ row, TeamRow.points row <= TeamRow.points first) rest
    | [] => teams = []
    end.
Proof.
  rewrite buildStandings_drivers, buildStandings_teams. split.
  - pose proof (sort_sorted driverCompare
                  (map (driverRow (aggregate v drivers teams events results
                                     driverById).1) drivers)) as Hs.
    pose proof (sort_length driverCompare
                  (map (driverRow (aggregate v drivers teams events results
                                     driverById).1) drivers)) as Hlen.
    destruct (sort driverCompare _) as [|first rest].
    + rewrite length_fmap in Hlen. by destruct drivers.
    + apply StronglySorted_inv in Hs as [_ Hfirst].
      eapply Forall_impl; [exact Hfirst|]. intros row Hle.
      apply driverCompare_le in Hle. lia.
  - pose proof (sort_sorted teamCompare
                  (map (teamRow (aggregate v drivers teams events results
                                   driverById).2) teams)) as Hs.
    pose proof (sort_length teamCompare
                  (map (teamRow (aggregate v drivers teams events results
                                   driverById).2) teams)) as Hlen.
    destruct (sort teamCompare _) as [|first rest].
    + rewrite length_fmap in Hlen. by destruct teams.
    + apply StronglySorted_inv in Hs as [_ Hfirst].
      eapply Forall_impl; [exact Hfirst|]. intros row Hle.
      apply teamCompare_le in Hle. lia.
Qed.

(** ** Sums of points *)

Lemma total_ext {A} (f g : A → Z) (l : list A) :
  (∀ x, x ∈ l → f x = g x) → total f l = total g l.
Proof.
  induction l as [|x l IH]; intros Hfg; simpl; [done|].
  rewrite (Hfg x) by apply list_elem_of_here.
  rewrite IH; [done|]. intros y Hy. by apply Hfg, list_elem_of_further.
Qed.

Lemma total_le {A} (f g : A → Z) (l : list A) :
  (∀ x, x ∈ l → f x <= g x) → total f l <= total g l.
Proof.
  induction l as [|x l IH]; intros Hfg; simpl; [done|].
  pose proof (Hfg x (list_elem_of_here _ _)).
  assert (total f l <= total g l); [|lia].
  apply IH. intros y Hy. by apply Hfg, list_elem_of_further.
Qed.

Lemma total_fmap {A B} (f : B → Z) (g : A → B) (l : list A) :
  total f (map g l) = total (λ x, f (g x)) l.
Proof. induction l as [|x l IH]; simpl; [done|]. by rewrite IH. Qed.

Lemma total_app {A} (f : A → Z) (l1 l2 : list A) :
  total f (l1 ++ l2) = total f l1 + total f l2.
Proof. induction l1 as [|x l IH]; simpl; [done|]. rewrite IH. lia. Qed.

Lemma total_filter {A} (f : A → Z) (P : A → Prop) `{!∀ x, Decision (P x)}
    (l : list A) :
  total f (filter P l) = total (λ x, if decide (P x) then f x else 0) l.
Proof.
  induction l as [|x l IH]; simpl; [done|].
  rewrite filter_cons. destruct (decide (P x)); simpl; rewrite IH; lia.
Qed.

Lemma total_swap {A B} (g : A → B → Z) (l : list A) (k : list B) :
  total (λ x, total (g x) k) l = total (λ y, total (λ x, g x y) l) k.
Proof.
  induction l as [|x l IH]; simpl.
  - symmetry. by apply total_zero.
  - rewrite IH. clear IH. induction k as [|y k IH]; simpl; [done|].
    rewrite <- IH. lia.
Qed.

(** The sum of [c] over the elements with the key [k]. *)
Lemma total_key_at_most {A} (f : A → string) (k : string) (c : Z)
    (l : list A) :
  NoDup (map f l) → 0 <= c →
  total (λ x, if decide (f x = k) then c else 0) l <= c.
Proof.
  intros Hnd Hc. induction l as [|x l IH]; simpl; [done|].
  simpl in Hnd. apply NoDup_cons in Hnd as [Hx Hl].
  destruct (decide (f x = k)) as [Hk|Hk]; [|by apply IH].
  rewrite (total_zero _ l); [lia|].
  intros y Hy. rewrite decide_False; [done|].
  intros Hyk. apply Hx. rewrite Hk, <- Hyk. by apply list_elem_of_fmap_2.
Qed.

Lemma total_cons {A} (f : A → Z) (x : A) (l : list A) :
  total f (x :: l) = f x + total f l.
Proof. done. Qed.

Lemma total_key_at_least {A} (f : A → string) (k : string) (c : Z)
    (l : list A) :
  0 <= c →
  (if decide (k ∈ map f l) then c else 0)
  <= total (λ x, if decide (f x = k) then c else 0) l.
Proof.
  intros Hc. induction l as [|x l IH].
  - destruct (decide (k ∈ map f [])) as [Hin|_]; [|done].
    by apply elem_of_nil in Hin.
  - rewrite total_cons.
    assert (0 <= total (λ x, if decide (f x = k) then c else 0) l) as Hnn.
    { destruct (decide (k ∈ map f l)); lia. }
    destruct (decide (f x = k)) as [Hk|Hk].
    + destruct (decide (k ∈ map f (x :: l))); lia.
    + destruct (decide (k ∈ map f (x :: l))) as [Hin|Hnin]; [|lia].
      apply elem_of_cons in Hin as [?|Hin]; [congruence|].
      rewrite decide_True in IH by done. lia.
Qed.

Lemma points_recordAll v l d :
  Stats.points (recordAll v l d) =
    Stats.points d + total (λ p, entryPts p.1 p.2) l.
Proof.
  revert d. induction l as [|p l IH]; intros d; simpl; [lia|].
  unfold recordAll in *. simpl. rewrite IH. simpl. lia.
Qed.

Lemma filter_NoDup_key {A} (f : A → string) (x : A) (l : list A) :
  NoDup (map f l) → x ∈ l → filter (λ y, f y = f x) l = [x].
Proof.
  induction l as [|y l IH]; simpl; [by intros _ ?%elem_of_nil|].
  intros [Hy Hl]%NoDup_cons [->|Hx]%elem_of_cons.
  - rewrite filter_cons_True by done. f_equal.
    apply filter_none, Forall_forall. intros z Hz Heq.
    apply Hy. rewrite <- Heq. by apply list_elem_of_fmap_2.
  - rewrite filter_cons_False; [by apply IH|].
    intros Heq. apply Hy. rewrite Heq. by apply list_elem_of_fmap_2.
Qed.

(** [driverById] holds, for each identifier, the last driver of the list
    with the identifier. *)
Lemma driverByIdOf_lookup (drivers : list Driver.t) (k : string) :
  driverByIdOf drivers !! k = last (filter (λ d, Driver.id d = k) drivers).
Proof.
  unfold driverByIdOf.
  assert (∀ m : gmap string Driver.t,
    fold_left (λ acc d, <[Driver.id d := d]> acc) drivers m !! k
    = match last (filter (λ d, Driver.id d = k) drivers) with
      | Some d => Some d
      | None => m !! k
      end) as Hgen.
  { induction drivers as [|d l IH]; intros m; simpl; [done|].
    rewrite IH, filter_cons.
    destruct (decide (Driver.id d = k)) as [<-|Hne].
    - rewrite last_cons. destruct (last (filter _ l)); [done|].
      by rewrite lookup_insert_eq.
    - destruct (last (filter _ l)); [done|]. by rewrite lookup_insert_ne. }
  rewrite Hgen, lookup_empty. by destruct (last _).
Qed.

Lemma driverByIdOf_NoDup (drivers : list Driver.t) (d : Driver.t) :
  NoDup (map Driver.id drivers) → d ∈ drivers →
  driverByIdOf drivers !! Driver.id d = Some d.
Proof.
  intros Hnd Hd. by rewrite driverByIdOf_lookup, filter_NoDup_key.
Qed.

Section PointSums.
Context `{Host}.

Lemma total_driver_rows v drivers teams events results driverById :
  total DriverRow.points
        (Standings.drivers
           (buildStandings v drivers teams events results driverById)) =
    total (λ p, total (λ d, if decide (Driver.id d = ResultEntry.driverId p.2)
                            then entryPts p.1 p.2 else 0) drivers)
          (visited events results).
Proof.
  rewrite buildStandings_drivers.
  rewrite (total_Permutation _ _ _ (sort_Permutation _ _)), total_fmap.
  rewrite <- total_swap. apply total_ext. intros d Hd.
  unfold DriverRow.points, driverRow. cbn [DriverRow.stats].
  rewrite aggregate_lookup_driver by done. unfold default. cbn [from_option].
  unfold id. rewrite points_recordAll, total_filter. simpl.
  apply total_ext. intros p _. apply decide_ext. split; congruence.
Qed.

Lemma total_team_rows v drivers teams events results driverById :
  total TeamRow.points
        (Standings.teams
           (buildStandings v drivers teams events results driverById)) =
    total (λ p, total (λ t, teamCredit drivers driverById (Team.id t) p) teams)
          (visited events results).
Proof.
  rewrite buildStandings_teams.
  rewrite (total_Permutation _ _ _ (sort_Permutation _ _)), total_fmap.
  rewrite <- total_swap. apply total_ext. intros t Ht.
  unfold teamRow. cbn [TeamRow.points]. apply aggregate_lookup_team.
Qed.

End PointSums.

(** X11. When the teams have distinct identifiers, the points of the team
    table add up to at most the points of the driver table.  When also the
    drivers have distinct identifiers, [driverById] is built from the list of
    drivers, and every driver has a team of the list, the two sums are
    equal. *)
Theorem team_points_at_most_driver_points `{Host} (v : Version)
    (drivers : list Driver.t) (teams : list Team.t) (events : list Event.t)
    (results : list ResultEntry.t) (driverById : gmap string Driver.t) :
  NoDup (map Team.id teams) →
  total TeamRow.points
        (Standings.teams
           (buildStandings v drivers teams events results driverById))
  <= total DriverRow.points
           (Standings.drivers
              (buildStandings v drivers teams events results driverById))
  ∧ (NoDup (map Driver.id drivers) →
     driverById = driverByIdOf drivers →
     Forall (λ d, Driver.teamId d ≠ ""
                  ∧ Driver.teamId d ∈ map Team.id teams) drivers →
     total TeamRow.points
           (Standings.teams
              (buildStandings v drivers teams events results driverById))
     = total DriverRow.points
             (Standings.drivers
                (buildStandings v drivers teams events results driverById))).
Proof.
  intros Hteams. rewrite total_driver_rows, total_team_rows. split.
  - apply total_le. intros p _. pose proof (entryPts_bounds p.1 p.2) as Hpts.
    unfold teamCredit.
    destruct (decide (ResultEntry.driverId p.2 ∈ map Driver.id drivers))
      as [Hin|Hnin].
    + pose proof (total_key_at_least Driver.id (ResultEntry.driverId p.2)
                    (entryPts p.1 p.2) drivers) as Hge.
      rewrite decide_True in Hge by done.
      destruct (teamOf driverById p.2) as [t0|] eqn:Ht0.
      * pose proof (total_key_at_most Team.id t0 (entryPts p.1 p.2) teams
                      Hteams) as Hle.
        rewrite (total_ext _ (λ t, if decide (Team.id t = t0)
                                   then entryPts p.1 p.2 else 0)); [lia|].
        intros t _. apply decide_ext. split.
        -- intros [_ Heq]. congruence.
        -- intros <-. by split.
      * rewrite total_zero; [lia|]. intros t _.
        rewrite decide_False; [done|]. by intros [_ ?].
    + rewrite total_zero.
      * pose proof (total_key_at_least Driver.id (ResultEntry.driverId p.2)
                      (entryPts p.1 p.2) drivers) as Hge.
        rewrite decide_False in Hge by done. lia.
      * intros t _. rewrite decide_False; [done|]. by intros [? _].
  - intros Hdrivers -> Hall. apply total_ext. intros p _.
    pose proof (entryPts_bounds p.1 p.2) as Hpts. unfold teamCredit.
    destruct (decide (ResultEntry.driverId p.2 ∈ map Driver.id drivers))
      as [Hin|Hnin].
    + apply list_elem_of_fmap in Hin as (d & Hid & Hd).
      rewrite Forall_forall in Hall. destruct (Hall d Hd) as [Hne Hteam].
      assert (teamOf (driverByIdOf drivers) p.2 = Some (Driver.teamId d))
        as Hof.
      { unfold teamOf. rewrite Hid, driverByIdOf_NoDup by done.
        by destruct (String.eqb_spec (Driver.teamId d) ""). }
      assert (∀ (A : Type) (f : A → string) (k : string) (c : Z) (l : list A),
                NoDup (map f l) → k ∈ map f l → 0 <= c →
                total (λ x, if decide (f x = k) then c else 0) l = c)
        as Hexact.
      { intros A f k c l Hnd Hk Hc.
        pose proof (total_key_at_most f k c l Hnd Hc).
        pose proof (total_key_at_least f k c l Hc) as Hge.
        rewrite decide_True in Hge by done. lia. }
      rewrite (total_ext _ (λ t, if decide (Team.id t = Driver.teamId d)
                                 then entryPts p.1 p.2 else 0)).
      * rewrite (Hexact _ Team.id) by (done || lia).
        rewrite (Hexact _ Driver.id); [done|done| |lia].
        rewrite Hid. by apply list_elem_of_fmap_2.
      * intros t _. apply decide_ext. rewrite Hof. split.
        -- by intros [_ [= ->]].
        -- intros ->. split; [|done]. rewrite Hid. by apply list_elem_of_fmap_2.
    + rewrite !total_zero; [done| |].
      * intros d Hd. rewrite decide_False; [done|].
        intros Heq. apply Hnin. rewrite <- Heq. by apply list_elem_of_fmap_2.
      * intros t _. rewrite decide_False; [done|]. by intros [? _].
Qed.

Lemma team_points_at_most_driver_points_witness :
  total TeamRow.points
        (Standings.teams
           (@buildStandings codeUnitHost MultiSeason seasonDrivers seasonTeams
              seasonEvents seasonResults (driverByIdOf seasonDrivers)))
  <= total DriverRow.points
           (Standings.drivers
              (@buildStandings codeUnitHost MultiSeason seasonDrivers
                 seasonTeams seasonEvents seasonResults
                 (driverByIdOf seasonDrivers)))
  ∧ total TeamRow.points
          (Standings.teams
             (@buildStandings codeUnitHost MultiSeason [ann; cyd] seasonTeams
                seasonEvents seasonResults (driverByIdOf [ann; cyd])))
    = total DriverRow.points
            (Standings.drivers
               (@buildStandings codeUnitHost MultiSeason [ann; cyd]
                  seasonTeams seasonEvents seasonResults
                  (driverByIdOf [ann; cyd]))).
Proof.
  assert (NoDup (map Team.id seasonTeams)) as Hteams
    by (apply (bool_decide_unpack _); by vm_compute).
  split.
  - by apply (@team_points_at_most_driver_points codeUnitHost).
  - apply (@team_points_at_most_driver_points codeUnitHost); [done| |done|].
    + apply (bool_decide_unpack _). by vm_compute.
    + apply Forall_cons. split.
      { split; [discriminate|apply list_elem_of_here]. }
      apply Forall_cons. split; [|apply Forall_nil_2].
      split; [discriminate|apply list_elem_of_here].
Defined.

(** ** Properties of the analytics *)

(** The groups of a grouping loop that appends each result to the group of
    its event. *)
Lemma groups_lookup (step : gmap string (list ResultEntry.t) → ResultEntry.t →
                           gmap string (list ResultEntry.t))
    (results : list ResultEntry.t) (k : string) :
  (∀ m r j,
     step m r !! j =
       if decide (j = ResultEntry.eventId r)
       then Some (default [] (m !! j) ++ [r]) else m !! j) →
  ∀ m,
    fold_left step results m !! k =
      match filter (λ r, ResultEntry.eventId r = k) results with
      | [] => m !! k
      | group => Some (default [] (m !! k) ++ group)
      end.
Proof.
  intros Hstep. induction results as [|r results IH]; intros m; [done|].
  simpl. rewrite IH, Hstep, filter_cons.
  destruct (decide (ResultEntry.eventId r = k)) as [Hk|Hk].
  - rewrite decide_True by done. simpl.
    destruct (filter _ results); simpl; [done|]. by rewrite <- app_assoc.
  - rewrite decide_False by done. done.
Qed.

Lemma groupByEvent_groups (results : list ResultEntry.t) (k : string) :
  groupByEvent results !! k =
    match filter (λ r, ResultEntry.eventId r = k) results with
    | [] => None
    | group => Some group
    end.
Proof.
  unfold groupByEvent. rewrite groups_lookup.
  - rewrite lookup_empty. by destruct (filter _ results).
  - intros m r j. case_decide as Hj.
    + by rewrite Hj, lookup_insert_eq.
    + by rewrite lookup_insert_ne.
Qed.

Lemma groupResultsByEvent_groups (results : list ResultEntry.t) (k : string) :
  groupResultsByEvent results !! k =
    match filter (λ r, ResultEntry.eventId r = k) results with
    | [] => None
    | group => Some group
    end.
Proof.
  unfold groupResultsByEvent. rewrite groups_lookup.
  - rewrite lookup_empty. by destruct (filter _ results).
  - intros m r j. case_decide as Hj.
    + subst j. rewrite lookup_alter_eq.
      destruct (m !! ResultEntry.eventId r) as [l|] eqn:Hl; simpl.
      * by rewrite Hl.
      * by rewrite lookup_insert_eq.
    + rewrite lookup_alter_ne by done.
      destruct (m !! ResultEntry.eventId r); [done|].
      by rewrite lookup_insert_ne.
Qed.

(** ** The builder as it runs *)

(** The reduce throws when it meets a result whose event has the name of an
    inherited property, and returns the groups otherwise. *)
Lemma groupByEvent_returns (results : list ResultEntry.t) :
  Exec.groupByEvent results =
    if decide (Exists (λ r, ResultEntry.eventId r ∈ objectPrototypeNames)
                      results)
    then Throw else Normal (groupByEvent results).
Proof.
  unfold Exec.groupByEvent, groupByEvent.
  assert (∀ k, k ∈ objectPrototypeNames →
               (∅ : gmap string (list ResultEntry.t)) !! k = None) as Hempty
    by (intros; apply lookup_empty).
  revert Hempty. generalize (∅ : gmap string (list ResultEntry.t)).
  induction results as [|r results IH]; intros acc Hacc.
  - cbn [foldCompletion fold_left].
    by destruct (decide _) as [?%Exists_nil|].
  - cbn [foldCompletion fold_left]. unfold Exec.groupStep at 1, getProperty.
    destruct (decide (ResultEntry.eventId r ∈ objectPrototypeNames))
      as [Hin|Hnin].
    + rewrite Hacc by done. simpl.
      rewrite decide_True; [done|]. by apply Exists_cons_hd.
    + destruct (acc !! ResultEntry.eventId r) as [group|] eqn:Hgroup;
        cbn [andThen default from_option]; rewrite IH.
      * apply decide_ext. rewrite Exists_cons. tauto.
      * intros k Hk. rewrite lookup_insert_ne by congruence. by apply Hacc.
      * apply decide_ext. rewrite Exists_cons. tauto.
      * intros k Hk. rewrite lookup_insert_ne by congruence. by apply Hacc.
Qed.

(** The body of the outer loop throws at an event with the name of an
    inherited property. *)
Lemma scoreEvent_returns v driverById results acc e :
  ¬ Exists (λ r, ResultEntry.eventId r ∈ objectPrototypeNames) results →
  Exec.scoreEvent v driverById (groupByEvent results) acc e =
    if decide (Event.id e ∈ objectPrototypeNames) then Throw
    else Normal (scoreEvent v driverById (groupByEvent results) acc e).
Proof.
  intros Hresults. unfold Exec.scoreEvent, scoreEvent, getProperty.
  rewrite groupByEvent_groups.
  destruct (filter (λ r, ResultEntry.eventId r = Event.id e) results)
    as [|r group] eqn:Hfilter.
  - by destruct (decide (Event.id e ∈ objectPrototypeNames)).
  - rewrite decide_False; [done|]. intros Hin. apply Hresults.
    assert (r ∈ filter (λ r, ResultEntry.eventId r = Event.id e) results)
      as Hr by (rewrite Hfilter; apply list_elem_of_here).
    apply list_elem_of_filter in Hr as [Hid Hr].
    apply Exists_exists. exists r. split; [done|]. by rewrite Hid.
Qed.

Lemma aggregate_returns v drivers teams events results driverById :
  Exec.aggregate v drivers teams events results driverById =
    if decide (Exists (λ r, ResultEntry.eventId r ∈ objectPrototypeNames)
                      results
               ∨ Exists (λ e, Event.id e ∈ objectPrototypeNames) events)
    then Throw
    else Normal (aggregate v drivers teams events results driverById).
Proof.
  unfold Exec.aggregate, aggregate. rewrite groupByEvent_returns.
  destruct (decide (Exists _ results)) as [Hresults|Hresults]; simpl.
  { rewrite decide_True; [done|]. by left. }
  generalize (initDriverStats drivers, initTeamPoints teams).
  induction events as [|e events IH]; intros acc.
  - cbn [foldCompletion fold_left].
    by destruct (decide _) as [[?|?%Exists_nil]|].
  - cbn [foldCompletion fold_left]. rewrite scoreEvent_returns by done.
    destruct (decide (Event.id e ∈ objectPrototypeNames)) as [Hin|Hnin];
      simpl.
    + rewrite decide_True; [done|]. right. by apply Exists_cons_hd.
    + rewrite IH. apply decide_ext. rewrite Exists_cons. tauto.
Qed.

(** [buildStandings] throws when a result or an event has, as the
    identifier of the event, the name of an inherited property, and returns
    the tables otherwise. *)
Lemma buildStandings_returns `{Host} v drivers teams events results
    driverById :
  Exec.buildStandings v drivers teams events results driverById =
    if decide (Exists (λ r, ResultEntry.eventId r ∈ objectPrototypeNames)
                      results
               ∨ Exists (λ e, Event.id e ∈ objectPrototypeNames) events)
    then Throw
    else Normal (buildStandings v drivers teams events results driverById).
Proof.
  unfold Exec.buildStandings, buildStandings. rewrite aggregate_returns.
  destruct (decide _); [done|]. simpl.
  by destruct (aggregate v drivers teams events results driverById).
Qed.

(** A result of an unknown driver for the example: its event has the name
    of a property of [Object.prototype]. *)
Definition strayResult : ResultEntry.t :=
  ResultEntry.mk "constructor" "d9" 3 FIN false.

(** C9. A result whose driver is not in the list of drivers does not
    always leave the builder without an error: when the identifier of its
    event is the name of a property that every object inherits, as
    "constructor" is, [buildStandings] throws a [TypeError] in the reduce
    that groups the results.  Otherwise the builder does with the result what
    it does without it: when it returns, it returns the same tables, so the
    result adds nothing to any driver or team. *)
Theorem unknown_driver_skipped_or_throws `{Host} (v : Version)
    (drivers : list Driver.t) (teams : list Team.t) (events : list Event.t)
    (results1 results2 : list ResultEntry.t) (r : ResultEntry.t)
    (driverById : gmap string Driver.t) :
  ResultEntry.driverId r ∉ map Driver.id drivers →
  (ResultEntry.eventId r ∈ objectPrototypeNames →
   Exec.buildStandings v drivers teams events (results1 ++ r :: results2)
     driverById = Throw)
  ∧ (ResultEntry.eventId r ∉ objectPrototypeNames →
     Exec.buildStandings v drivers teams events (results1 ++ r :: results2)
       driverById
     = Exec.buildStandings v drivers teams events (results1 ++ results2)
         driverById)
  ∧ (∀ tables,
       Exec.buildStandings v drivers teams events (results1 ++ r :: results2)
         driverById = Normal tables →
       Exec.buildStandings v drivers teams events (results1 ++ results2)
         driverById = Normal tables).
Proof.
  intros Hunknown.
  assert (ResultEntry.eventId r ∉ objectPrototypeNames →
          Exec.buildStandings v drivers teams events (results1 ++ r :: results2)
            driverById
          = Exec.buildStandings v drivers teams events (results1 ++ results2)
              driverById) as Hskip.
  { intros Hnin. rewrite !buildStandings_returns.
    destruct (buildStandings_unknown_driver v drivers teams events results1
                results2 r driverById Hunknown) as [_ ->].
    apply decide_ext. rewrite !Exists_app, Exists_cons. tauto. }
  split_and!.
  - intros Hin. rewrite buildStandings_returns, decide_True; [done|].
    left. apply Exists_app. right. by apply Exists_cons_hd.
  - exact Hskip.
  - intros tables Htables.
    destruct (decide (ResultEntry.eventId r ∈ objectPrototypeNames))
      as [Hin|Hnin]; [|by rewrite <- Hskip].
    rewrite buildStandings_returns, decide_True in Htables; [done|].
    left. apply Exists_app. right. by apply Exists_cons_hd.
Qed.

Lemma unknown_driver_skipped_or_throws_witness :
  @Exec.buildStandings codeUnitHost MultiSeason seasonDrivers seasonTeams
    seasonEvents (seasonResults ++ strayResult :: [])
    (driverByIdOf seasonDrivers) = Throw
  ∧ @Exec.buildStandings codeUnitHost SingleSeason seasonDrivers seasonTeams
      seasonEvents (seasonResults ++ strayResult :: [])
      (driverByIdOf seasonDrivers) = Throw
  ∧ @Exec.buildStandings codeUnitHost MultiSeason seasonDrivers seasonTeams
      seasonEvents (seasonResults ++ ghostResult :: [])
      (driverByIdOf seasonDrivers)
    = @Exec.buildStandings codeUnitHost MultiSeason seasonDrivers seasonTeams
        seasonEvents (seasonResults ++ []) (driverByIdOf seasonDrivers).
Proof.
  assert (∀ r, ResultEntry.driverId r = "d9" →
               ResultEntry.driverId r ∉ map Driver.id seasonDrivers)
    as Hunknown.
  { intros r -> Hin. apply list_elem_of_In in Hin. simpl in Hin.
    destruct Hin as [Hd|[Hd|[Hd|[]]]]; discriminate. }
  split_and!.
  - apply (@unknown_driver_skipped_or_throws codeUnitHost MultiSeason);
      [by apply Hunknown|]. apply list_elem_of_here.
  - apply (@unknown_driver_skipped_or_throws codeUnitHost SingleSeason);
      [by apply Hunknown|]. apply list_elem_of_here.
  - apply (@unknown_driver_skipped_or_throws codeUnitHost MultiSeason);
      [by apply Hunknown|].
    apply (bool_decide_unpack _). by vm_compute.
Defined.

(** X12. The analytics group the results in a [Map] and the standings in a
    plain object.  The [Map] has a group for an event exactly when the event
    has a result, and the group lists the results of the event in the order
    of the input.  The object has the same groups when the reduce returns,
    and the reduce throws a [TypeError] exactly when the event of a result
    has the name of an inherited property, where the [Map] groups as for any
    other name. *)
Theorem groupResultsByEvent_groupByEvent (results : list ResultEntry.t) :
  Exec.groupByEvent results =
    (if decide (Exists (λ r, ResultEntry.eventId r ∈ objectPrototypeNames)
                       results)
     then Throw else Normal (groupResultsByEvent results))
  ∧ (∀ k group,
       groupResultsByEvent results !! k = Some group ↔
         group ≠ [] ∧ group = filter (λ r, ResultEntry.eventId r = k) results)
  ∧ (∀ k, groupResultsByEvent results !! k = None ↔
          k ∉ map ResultEntry.eventId results).
Proof.
  split_and!.
  - rewrite groupByEvent_returns. destruct (decide _); [done|]. f_equal.
    apply map_eq. intros k.
    by rewrite groupResultsByEvent_groups, groupByEvent_groups.
  - intros k group. rewrite groupResultsByEvent_groups.
    destruct (filter _ results) as [|r l]; split.
    + done.
    + by intros [? ->].
    + by intros [= <-].
    + by intros [_ ->].
  - intros k. rewrite groupResultsByEvent_groups.
    destruct (filter _ results) as [|r l] eqn:Hf; split.
    + intros _ (r & Hk & Hr)%list_elem_of_fmap.
      assert (r ∈ filter (λ r, ResultEntry.eventId r = k) results) as Hin
        by by apply list_elem_of_filter.
      rewrite Hf in Hin. by apply elem_of_nil in Hin.
    + done.
    + done.
    + intros Hnin. exfalso. apply Hnin.
      assert (r ∈ filter (λ r, ResultEntry.eventId r = k) results) as Hin
        by (rewrite Hf; apply list_elem_of_here).
      apply list_elem_of_filter in Hin as [<- Hin].
      by apply list_elem_of_fmap_2.
Qed.

(** A scored row of an entry, as [scoreEventEntries] builds it. *)
Definition outcome (e : Event.t) (r : ResultEntry.t) : ScoredOutcome.t :=
  {| ScoredOutcome.driverId := ResultEntry.driverId r;
     ScoredOutcome.pts := basePts e r + flBonus e r;
     ScoredOutcome.pos := ResultEntry.position r;
     ScoredOutcome.status := ResultEntry.status r;
     ScoredOutcome.fastestLapApplied := negb (flBonus e r =? 0) |}.

(** The statistics of the analytics after the scored rows [rows]. *)
Definition recordRows (rows : list ScoredOutcome.t) (ds : DriverAnalytics.t)
    : DriverAnalytics.t :=
  fold_left (λ ds row, analyticsRecord row ds) rows ds.

(** The points of the driver [k] in the event [e]. *)
Definition eventPoints (k : string) (results : list ResultEntry.t)
    (e : Event.t) : Z :=
  total (entryPts e)
        (filter (λ r, ResultEntry.driverId r = k) (entriesOf results e)).

(** The tables hold, for the driver [k], the statistics [ds], the running
    total [c] and the series [arr]. *)
Definition tracked (st : Analytics.t) (k : string) (ds : DriverAnalytics.t)
    (c : Z) (arr : list (option Num)) : Prop :=
  Analytics.driverStats st !! k = Some ds
  ∧ Analytics.cumByDriver st !! k = Some (Int c)
  ∧ Analytics.driverCumSeries st !! k = Some arr.

Lemma arraySet_end {A} (arr : list (option A)) (x : A) :
  arraySet arr (length arr) x = arr ++ [Some x].
Proof.
  unfold arraySet. rewrite decide_False by lia.
  by rewrite Nat.sub_diag.
Qed.

Lemma arraySet_last {A} (arr : list (option A)) (y : option A) (x : A) :
  arraySet (arr ++ [y]) (length arr) x = arr ++ [Some x].
Proof.
  unfold arraySet. rewrite decide_True by (rewrite length_app; simpl; lia).
  rewrite insert_app_r_alt by lia. by rewrite Nat.sub_diag.
Qed.

Lemma scoreEventEntries_outcome (e : Event.t) (results : list ResultEntry.t) :
  scoreEventEntries e
    (default [] (groupResultsByEvent results !! Event.id e)) =
    map (outcome e) (entriesOf results e).
Proof.
  unfold scoreEventEntries, entriesOf. rewrite groupResultsByEvent_groups.
  by destruct (filter _ results).
Qed.

Lemma analyticsRow_other idx st row k :
  ScoredOutcome.driverId row ≠ k →
  Analytics.driverStats (analyticsRow idx st row) !! k
    = Analytics.driverStats st !! k
  ∧ Analytics.cumByDriver (analyticsRow idx st row) !! k
    = Analytics.cumByDriver st !! k
  ∧ Analytics.driverCumSeries (analyticsRow idx st row) !! k
    = Analytics.driverCumSeries st !! k.
Proof.
  intros Hk. unfold analyticsRow.
  destruct (Analytics.driverStats st !! ScoredOutcome.driverId row); [|done].
  simpl. by rewrite !lookup_insert_ne, lookup_alter_ne.
Qed.

Lemma analyticsRow_unknown idx st row k :
  Analytics.driverStats st !! k = None →
  Analytics.driverStats (analyticsRow idx st row) !! k = None.
Proof.
  intros Hk. destruct (decide (ScoredOutcome.driverId row = k)) as [Heq|Hne].
  - unfold analyticsRow. by rewrite Heq, Hk.
  - by rewrite (proj1 (analyticsRow_other idx st row k Hne)).
Qed.

(** The loop over the rows of the event of index [idx], for a tracked
    driver: [w] tells whether the series has an element at [idx]. *)
Lemma rows_loop idx rows st k ds c arr (w : bool) :
  length arr = idx →
  tracked st k ds c (if w then arr ++ [Some (Int c)] else arr) →
  let own := filter (λ row, ScoredOutcome.driverId row = k) rows in
  let c' := c + total ScoredOutcome.pts own in
  tracked (fold_left (analyticsRow idx) rows st) k (recordRows own ds) c'
          (if w || bool_decide (own ≠ []) then arr ++ [Some (Int c')]
           else arr).
Proof.
  intros Hlen. revert st ds c w.
  induction rows as [|row rows IH]; intros st ds c w Htracked; simpl.
  - rewrite Z.add_0_r, orb_false_r. done.
  - rewrite filter_cons.
    destruct (decide (ScoredOutcome.driverId row = k)) as [Hk|Hk].
    + destruct Htracked as (Hds & Hcum & Hseries).
      assert (tracked (analyticsRow idx st row) k (analyticsRecord row ds)
                (c + ScoredOutcome.pts row)
                (arr ++ [Some (Int (c + ScoredOutcome.pts row))])) as Hnext.
      { unfold analyticsRow, tracked. rewrite Hk, Hds. simpl.
        rewrite !lookup_insert_eq, lookup_alter_eq, Hcum, Hseries. simpl.
        split_and!; try done. f_equal. subst idx.
        destruct w; [apply arraySet_last|apply arraySet_end]. }
      specialize (IH _ _ _ true Hnext). simpl in IH.
      rewrite orb_true_r. simpl.
      replace (c + (ScoredOutcome.pts row
                    + total ScoredOutcome.pts
                        (filter (λ row, ScoredOutcome.driverId row = k) rows)))
        with (c + ScoredOutcome.pts row
              + total ScoredOutcome.pts
                  (filter (λ row, ScoredOutcome.driverId row = k) rows))
        by lia.
      exact IH.
    + apply IH. destruct Htracked as (Hds & Hcum & Hseries).
      unfold tracked.
      destruct (analyticsRow_other idx st row k Hk) as (-> & -> & ->).
      by split_and!.
Qed.

(** The loop over the drivers after the rows, for a tracked driver. *)
Lemma fill_loop idx drivers st k ds c arr (w : bool) :
  length arr = idx →
  tracked st k ds c (if w then arr ++ [Some (Int c)] else arr) →
  tracked (fold_left (analyticsFill idx) drivers st) k ds c
          (if w || bool_decide (k ∈ map Driver.id drivers)
           then arr ++ [Some (Int c)] else arr).
Proof.
  intros Hlen. revert st w.
  induction drivers as [|d drivers IH]; intros st w Htracked;
    cbn [fold_left map].
  - change (map Driver.id []) with (@nil string).
    rewrite (bool_decide_eq_false_2 (k ∈ [])) by apply not_elem_of_nil.
    by rewrite orb_false_r.
  - destruct Htracked as (Hds & Hcum & Hseries).
    destruct (decide (Driver.id d = k)) as [Hk|Hk].
    + assert (tracked (analyticsFill idx st d) k ds c (arr ++ [Some (Int c)]))
        as Hnext.
      { unfold analyticsFill, tracked. simpl.
        rewrite Hk, lookup_alter_eq, Hcum, Hseries. simpl.
        split_and!; try done. f_equal. subst idx. destruct w.
        - rewrite lookup_app_r by lia. by rewrite Nat.sub_diag.
        - rewrite lookup_ge_None_2 by lia.
          rewrite arraySet_end. destruct (Z.eqb_spec c 0); by subst. }
      specialize (IH _ true Hnext). simpl in IH.
      rewrite bool_decide_eq_true_2 by (rewrite Hk; apply list_elem_of_here).
      by rewrite orb_true_r.
    + assert (tracked (analyticsFill idx st d) k ds c
                (if w then arr ++ [Some (Int c)] else arr)) as Hnext.
      { unfold analyticsFill, tracked. simpl.
        by rewrite lookup_alter_ne. }
      specialize (IH _ w Hnext).
      assert (bool_decide (k ∈ Driver.id d :: map Driver.id drivers)
              = bool_decide (k ∈ map Driver.id drivers)) as ->; [|done].
      apply bool_decide_ext. rewrite elem_of_cons. split; [|by right].
      intros [?|?]; [congruence|done].
Qed.

Lemma analyticsFill_stats idx drivers st :
  Analytics.driverStats (fold_left (analyticsFill idx) drivers st)
    = Analytics.driverStats st.
Proof.
  revert st. induction drivers as [|d drivers IH]; intros st; simpl; [done|].
  by rewrite IH.
Qed.

Lemma rows_unknown idx rows st k :
  Analytics.driverStats st !! k = None →
  Analytics.driverStats (fold_left (analyticsRow idx) rows st) !! k = None.
Proof.
  revert st. induction rows as [|row rows IH]; intros st Hk; simpl; [done|].
  by apply IH, analyticsRow_unknown.
Qed.

Lemma events_unknown drivers rbe events idx st k :
  Analytics.driverStats st !! k = None →
  Analytics.driverStats (analyticsEvents drivers rbe idx events st) !! k
    = None.
Proof.
  revert idx st. induction events as [|e events IH]; intros idx st Hk;
    simpl; [done|].
  apply IH. unfold analyticsEvent. rewrite analyticsFill_stats.
  by apply rows_unknown.
Qed.

(** The scored rows of the driver [k] in the events, in the order the loops
    visit them. *)
Definition ownRows (k : string) (results : list ResultEntry.t)
    (events : list Event.t) : list ScoredOutcome.t :=
  events ≫= λ e,
    map (outcome e)
        (filter (λ r, ResultEntry.driverId r = k) (entriesOf results e)).

(** The running totals of [f] over the events, from the total [c]. *)
Fixpoint runningTotals (f : Event.t → Z) (c : Z) (events : list Event.t)
    : list Z :=
  match events with
  | [] => []
  | e :: rest => (c + f e) :: runningTotals f (c + f e) rest
  end.

Lemma filter_outcome (e : Event.t) (k : string) (l : list ResultEntry.t) :
  filter (λ row, ScoredOutcome.driverId row = k) (map (outcome e) l) =
    map (outcome e) (filter (λ r, ResultEntry.driverId r = k) l).
Proof.
  induction l as [|r l IH]; simpl; [done|].
  rewrite !filter_cons, IH. simpl.
  by destruct (decide (ResultEntry.driverId r = k)).
Qed.

Lemma recordRows_app rows rows' ds :
  recordRows (rows ++ rows') ds = recordRows rows' (recordRows rows ds).
Proof. apply fold_left_app. Qed.

(** The loop over the events, for a driver of the list. *)
Lemma events_loop drivers results k events idx st ds c arr :
  k ∈ map Driver.id drivers →
  length arr = idx →
  tracked st k ds c arr →
  tracked (analyticsEvents drivers (groupResultsByEvent results) idx events st)
          k (recordRows (ownRows k results events) ds)
          (c + total (eventPoints k results) events)
          (arr ++ map (λ z, Some (Int z))
                      (runningTotals (eventPoints k results) c events)).
Proof.
  intros Hk. revert idx st ds c arr.
  induction events as [|e events IH]; intros idx st ds c arr Hlen Htracked.
  - simpl. by rewrite Z.add_0_r, app_nil_r.
  - cbn [analyticsEvents runningTotals map]. unfold ownRows.
    rewrite bind_cons, recordRows_app, total_cons.
    fold (ownRows k results events).
    pose proof (rows_loop idx (map (outcome e) (entriesOf results e)) st k ds c
                  arr false Hlen Htracked) as Hrows.
    cbv zeta in Hrows. rewrite filter_outcome, total_fmap in Hrows.
    change (total (λ x, ScoredOutcome.pts (outcome e x))
              (filter (λ r, ResultEntry.driverId r = k) (entriesOf results e)))
      with (eventPoints k results e) in Hrows.
    apply (fill_loop idx drivers) in Hrows; [|done].
    rewrite (bool_decide_eq_true_2 (k ∈ map Driver.id drivers)) in Hrows
      by done.
    rewrite orb_true_r in Hrows.
    unfold analyticsEvent. rewrite scoreEventEntries_outcome.
    rewrite Z.add_assoc, (cons_middle _ arr), app_assoc.
    apply (IH (S idx)); [|exact Hrows].
    rewrite length_app. simpl. lia.
Qed.

Lemma runningTotals_take (f : Event.t → Z) (c : Z) (events : list Event.t) :
  runningTotals f c events =
    map (λ i, c + total f (take (S i) events)) (seq 0 (length events)).
Proof.
  revert c. induction events as [|e events IH]; intros c; [done|].
  cbn [runningTotals length seq map]. f_equal.
  - simpl. lia.
  - rewrite IH, <- seq_shift, map_map. apply map_ext. intros i.
    simpl. lia.
Qed.

Lemma fold_left_insert_last {A V} (f : A → string) (g : A → V) (l : list A)
    (m : gmap string V) (k : string) :
  fold_left (λ m a, <[f a := g a]> m) l m !! k =
    match last (filter (λ a, f a = k) l) with
    | Some a => Some (g a)
    | None => m !! k
    end.
Proof.
  revert m. induction l as [|a l IH]; intros m; simpl; [done|].
  rewrite IH, filter_cons.
  destruct (decide (f a = k)) as [<-|Hne].
  - rewrite last_cons. destruct (last (filter _ l)); [done|].
    by rewrite lookup_insert_eq.
  - destruct (last (filter _ l)); [done|]. by rewrite lookup_insert_ne.
Qed.

(** The statistics of a driver before the events. *)
Definition blankStats (ds : DriverAnalytics.t) : Prop :=
  DriverAnalytics.points ds = 0 ∧ DriverAnalytics.finishes ds = []
  ∧ DriverAnalytics.dnfs ds = 0 ∧ DriverAnalytics.podiums ds = 0.

Lemma analyticsInit_tracked drivers k :
  k ∈ map Driver.id drivers →
  ∃ ds, blankStats ds ∧ tracked (analyticsInit drivers) k ds 0 [].
Proof.
  intros Hk. unfold tracked, analyticsInit. simpl.
  rewrite !fold_left_insert_lookup, !decide_True by done.
  rewrite fold_left_insert_last.
  destruct (last (filter (λ d, Driver.id d = k) drivers)) as [d|] eqn:Hlast.
  - eexists. split; [|done]. by repeat split.
  - apply last_None in Hlast. apply list_elem_of_fmap in Hk as (d & -> & Hd).
    assert (d ∈ filter (λ d', Driver.id d' = Driver.id d) drivers) as Hin
      by by apply list_elem_of_filter.
    rewrite Hlast in Hin. by apply elem_of_nil in Hin.
Qed.

Lemma analyticsInit_unknown drivers k :
  k ∉ map Driver.id drivers →
  Analytics.driverStats (analyticsInit drivers) !! k = None.
Proof.
  intros Hk. unfold analyticsInit. simpl. rewrite fold_left_insert_last.
  destruct (last (filter (λ d, Driver.id d = k) drivers)) as [d|] eqn:Hlast;
    [|done].
  apply last_Some_elem_of, list_elem_of_filter in Hlast as [<- Hd].
  destruct Hk. by apply list_elem_of_fmap_2.
Qed.

(** The statistics after scored rows, as sums over the rows. *)
Lemma recordRows_fields rows ds :
  DriverAnalytics.points (recordRows rows ds) =
    DriverAnalytics.points ds + total ScoredOutcome.pts rows
  ∧ DriverAnalytics.finishes (recordRows rows ds) =
      DriverAnalytics.finishes ds ++ map ScoredOutcome.pos rows
  ∧ DriverAnalytics.dnfs (recordRows rows ds) =
      DriverAnalytics.dnfs ds
      + total (λ row, match ScoredOutcome.status row with
                      | DNF => 1 | _ => 0 end) rows
  ∧ DriverAnalytics.podiums (recordRows rows ds) =
      DriverAnalytics.podiums ds
      + total (λ row, if ScoredOutcome.pos row <=? 3 then 1 else 0) rows.
Proof.
  revert ds. induction rows as [|row rows IH]; intros ds.
  - simpl. rewrite app_nil_r. split_and!; (done || lia).
  - cbn [recordRows fold_left]. fold (recordRows rows (analyticsRecord row ds)).
    destruct (IH (analyticsRecord row ds)) as (-> & -> & -> & ->).
    rewrite !total_cons. simpl. rewrite <- app_assoc. simpl.
    destruct (ScoredOutcome.status row), (ScoredOutcome.pos row <=? 3);
      split_and!; try done; lia.
Qed.

Lemma ownRows_visited k results events :
  ownRows k results events =
    map (λ p, outcome p.1 p.2)
        (filter (λ p, ResultEntry.driverId p.2 = k) (visited events results)).
Proof.
  unfold ownRows, visited. induction events as [|e events IH]; [done|].
  rewrite !bind_cons, filter_app, map_app, IH. f_equal.
  rewrite (filter_map_pair e (λ p, ResultEntry.driverId p.2 = k)).
  by rewrite map_map.
Qed.

Lemma total_eventPoints k results events :
  total (eventPoints k results) events =
    total (λ p, entryPts p.1 p.2)
          (filter (λ p, ResultEntry.driverId p.2 = k) (visited events results)).
Proof.
  unfold visited. induction events as [|e events IH]; [done|].
  rewrite total_cons, bind_cons, filter_app, total_app, IH. f_equal.
  rewrite (filter_map_pair e (λ p, ResultEntry.driverId p.2 = k)).
  by rewrite total_fmap.
Qed.

Lemma sortEventsByRound_Permutation events : sortEventsByRound events ≡ₚ events.
Proof. apply sort_Permutation. Qed.

(** The statistics of the analytics for a driver of the list. *)
Lemma analytics_lookup drivers events results k :
  k ∈ map Driver.id drivers →
  ∃ ds0, blankStats ds0 ∧
    tracked (analytics drivers events results) k
      (recordRows (ownRows k results (sortEventsByRound events)) ds0)
      (total (eventPoints k results) (sortEventsByRound events))
      (map (λ z, Some (Int z))
           (runningTotals (eventPoints k results) 0
                          (sortEventsByRound events))).
Proof.
  intros Hk. destruct (analyticsInit_tracked drivers k Hk) as (ds0 & Hblank & Hinit).
  exists ds0. split; [done|].
  by apply (events_loop drivers results k (sortEventsByRound events) 0) in Hinit.
Qed.

Lemma podiums_recordAll v l d :
  Stats.podiums (recordAll v l d) =
    Stats.podiums d
    + total (λ p, if isPodium v (ResultEntry.position p.2) then 1 else 0) l.
Proof.
  revert d. induction l as [|p l IH]; intros d; simpl; [lia|].
  unfold recordAll in *. simpl. rewrite IH. simpl.
  destruct (isPodium v _); lia.
Qed.

Lemma finishes_recordAll v l d :
  Stats.finishes (recordAll v l d) =
    Stats.finishes d ++ map (λ p, ResultEntry.position p.2) l.
Proof.
  revert d. induction l as [|p l IH]; intros d; simpl; [by rewrite app_nil_r|].
  unfold recordAll in *. simpl. rewrite IH. simpl. by rewrite <- app_assoc.
Qed.

Lemma total_indicator {A} (P : A → Prop) `{!∀ x, Decision (P x)} (l : list A) :
  total (λ x, if decide (P x) then 1 else 0) l = Z.of_nat (length (filter P l)).
Proof.
  induction l as [|x l IH]; [done|]. rewrite total_cons, filter_cons, IH.
  destruct (decide (P x)); simpl; lia.
Qed.

Global Instance Status_eq_dec : EqDecision Status.
Proof. solve_decision. Defined.

Lemma own_visited_Permutation k events results :
  filter (λ p, ResultEntry.driverId p.2 = k)
         (visited (sortEventsByRound events) results)
  ≡ₚ filter (λ p, ResultEntry.driverId p.2 = k) (visited events results).
Proof.
  by rewrite (visited_Permutation _ _ _ (sortEventsByRound_Permutation events)).
Qed.

(** The statistics of the analytics for a driver of the list, beside the
    row of the driver in the standings. *)
Lemma analytics_stats_of_driver (drivers : list Driver.t)
    (teams : list Team.t) (events : list Event.t)
    (results : list ResultEntry.t) (driverById : gmap string Driver.t)
    (d : Driver.t) :
  d ∈ drivers →
  let row :=
    driverRow
      (aggregate MultiSeason drivers teams events results driverById).1 d in
  ∃ ds,
    Analytics.driverStats (analytics drivers events results) !! Driver.id d
      = Some ds
    ∧ DriverAnalytics.points ds = DriverRow.points row
    ∧ DriverAnalytics.podiums ds = DriverRow.podiums row
    ∧ DriverAnalytics.finishes ds ≡ₚ DriverRow.finishes row
    ∧ DriverAnalytics.dnfs ds =
        Z.of_nat
          (length
             (filter (λ p, ResultEntry.driverId p.2 = Driver.id d
                           ∧ ResultEntry.status p.2 = DNF)
                     (visited events results))).
Proof.
  intros Hd.
  unfold DriverRow.points, DriverRow.podiums, DriverRow.finishes, driverRow.
  cbn [DriverRow.driver DriverRow.stats].
  rewrite aggregate_lookup_driver by done.
  unfold default. cbn [from_option]. unfold id.
  destruct (analytics_lookup drivers events results (Driver.id d))
    as (ds0 & (Hpts & Hfin & Hdnf & Hpod) & Hds & _);
    [by apply list_elem_of_fmap_2|].
  eexists. split; [exact Hds|].
  pose proof (own_visited_Permutation (Driver.id d) events results) as Hperm.
  destruct (recordRows_fields
              (ownRows (Driver.id d) results (sortEventsByRound events)) ds0)
    as (-> & -> & -> & ->).
  rewrite Hpts, Hfin, Hdnf, Hpod, ownRows_visited, !total_fmap, map_map.
  rewrite points_recordAll, podiums_recordAll, finishes_recordAll.
  cbn [Stats.init Stats.points Stats.podiums Stats.finishes app].
  split_and!.
  - by rewrite (total_Permutation _ _ _ Hperm).
  - by rewrite (total_Permutation _ _ _ Hperm).
  - by rewrite Hperm.
  - rewrite (total_Permutation _ _ _ Hperm).
    rewrite <- total_indicator, total_filter, Z.add_0_l.
    apply total_ext. intros p _. cbn [ScoredOutcome.status outcome].
    destruct (ResultEntry.status p.2);
      repeat case_decide; intuition congruence.
Qed.

(** X13. The analytics keep statistics for exactly the drivers of the list,
    and they agree with the standings of the season: for every row of the
    driver table the analytics hold the points and the podiums of the row
    and the finishes of the row in the order of the rounds; the retirements
    they count are the results of the driver in the events of the list with
    the status DNF. *)
Theorem analytics_agree_with_standings `{Host} (drivers : list Driver.t)
    (teams : list Team.t) (events : list Event.t)
    (results : list ResultEntry.t) (driverById : gmap string Driver.t) :
  let stats := Analytics.driverStats (analytics drivers events results) in
  (∀ k, is_Some (stats !! k) ↔ k ∈ map Driver.id drivers)
  ∧ Forall
      (λ row,
         ∃ ds, stats !! Driver.id (DriverRow.driver row) = Some ds
           ∧ DriverAnalytics.points ds = DriverRow.points row
           ∧ DriverAnalytics.podiums ds = DriverRow.podiums row
           ∧ DriverAnalytics.finishes ds ≡ₚ DriverRow.finishes row
           ∧ DriverAnalytics.dnfs ds =
               Z.of_nat
                 (length
                    (filter (λ p, ResultEntry.driverId p.2
                                  = Driver.id (DriverRow.driver row)
                                  ∧ ResultEntry.status p.2 = DNF)
                            (visited events results))))
      (Standings.drivers
         (buildStandings MultiSeason drivers teams events results driverById)).
Proof.
  intros stats. split.
  - intros k. split.
    + intros Hsome. destruct (decide (k ∈ map Driver.id drivers)) as [|Hk];
        [done|].
      apply (analyticsInit_unknown drivers) in Hk.
      apply (events_unknown drivers (groupResultsByEvent results)
               (sortEventsByRound events) 0) in Hk.
      unfold stats, analytics in Hsome. rewrite Hk in Hsome.
      by destruct Hsome.
    + intros Hk.
      destruct (analytics_lookup drivers events results k Hk)
        as (ds0 & _ & Hds & _).
      unfold stats. by rewrite Hds.
  - apply Forall_forall. intros row Hrow.
    rewrite buildStandings_drivers in Hrow.
    apply elem_of_sort, list_elem_of_fmap in Hrow as (d & -> & Hd).
    by apply analytics_stats_of_driver.
Qed.

Lemma total_nonneg {A} (f : A → Z) (l : list A) :
  (∀ x, 0 <= f x) → 0 <= total f l.
Proof.
  intros Hf. induction l as [|x l IH]; simpl; [done|].
  pose proof (Hf x). lia.
Qed.

Lemma eventPoints_nonneg k results e : 0 <= eventPoints k results e.
Proof.
  apply total_nonneg. intros r. pose proof (entryPts_bounds e r). lia.
Qed.

Lemma runningTotals_sorted (f : Event.t → Z) (c : Z) (events : list Event.t) :
  (∀ e, 0 <= f e) →
  StronglySorted Z.le (runningTotals f c events)
  ∧ Forall (λ z, c <= z) (runningTotals f c events).
Proof.
  intros Hf. revert c. induction events as [|e events IH]; intros c; simpl.
  - split; constructor.
  - destruct (IH (c + f e)) as [Hsorted Hall]. pose proof (Hf e).
    split; constructor; try done; try lia.
    eapply Forall_impl; [exact Hall|]. simpl. intros. lia.
Qed.

(** X14. The cumulative series of a driver of the list has one number for
    each event and no hole: the number at the index [i] is the sum of the
    points of the driver in the first [i + 1] events in the order of the
    rounds.  The numbers are not negative and never decrease, and the
    running total and the points of the driver after the loops are the sum
    over all the events. *)
Theorem cumulative_series (drivers : list Driver.t) (events : list Event.t)
    (results : list ResultEntry.t) (d : Driver.t) :
  d ∈ drivers →
  let tables := analytics drivers events results in
  let sorted := sortEventsByRound events in
  let pts := eventPoints (Driver.id d) results in
  ∃ series,
    Analytics.driverCumSeries tables !! Driver.id d
      = Some (map (λ z, Some (Int z)) series)
    ∧ series = map (λ i, total pts (take (S i) sorted))
                   (seq 0 (length events))
    ∧ StronglySorted Z.le series
    ∧ Forall (λ z, 0 <= z) series
    ∧ Analytics.cumByDriver tables !! Driver.id d
        = Some (Int (total pts sorted))
    ∧ DriverAnalytics.points <$> Analytics.driverStats tables !! Driver.id d
        = Some (total pts sorted).
Proof.
  intros Hd tables sorted pts.
  destruct (analytics_lookup drivers events results (Driver.id d))
    as (ds0 & (Hpts & _) & Hds & Hcum & Hseries);
    [by apply list_elem_of_fmap_2|].
  exists (runningTotals pts 0 sorted).
  destruct (runningTotals_sorted pts 0 sorted) as [Hsorted Hall].
  { apply eventPoints_nonneg. }
  split_and!; try done.
  - rewrite runningTotals_take. unfold sorted, sortEventsByRound.
    rewrite sort_length. apply map_ext. intros i. lia.
  - unfold tables. rewrite Hds. simpl. f_equal.
    destruct (recordRows_fields
                (ownRows (Driver.id d) results (sortEventsByRound events)) ds0)
      as (-> & _).
    rewrite Hpts, ownRows_visited, total_fmap. unfold pts, sorted.
    by rewrite total_eventPoints.
Qed.

Lemma cumulative_series_witness :
  ∃ series,
    Analytics.driverCumSeries
      (analytics seasonDrivers seasonEvents seasonResults) !! "d1"
      = Some (map (λ z, Some (Int z)) series)
    ∧ series = [26; 34].
Proof.
  destruct (cumulative_series seasonDrivers seasonEvents seasonResults ann)
    as (series & Hseries & Heq & _).
  - apply list_elem_of_here.
  - exists series. split; [exact Hseries|]. rewrite Heq. reflexivity.
Defined.

(** ** Properties of the tables of the analytics *)

Lemma NoDup_key_inj {A} (f : A → string) (l : list A) (x y : A) :
  NoDup (map f l) → x ∈ l → y ∈ l → f y = f x → y = x.
Proof.
  intros Hnd Hx Hy Heq.
  assert (y ∈ filter (λ z, f z = f x) l) as Hin by by apply list_elem_of_filter.
  rewrite filter_NoDup_key in Hin by done.
  by apply list_elem_of_singleton in Hin.
Qed.

Lemma list_find_NoDup_key (drivers : list Driver.t) (d : Driver.t) :
  NoDup (map Driver.id drivers) → d ∈ drivers →
  ∃ i, list_find (λ x, Driver.id x = Driver.id d) drivers = Some (i, d).
Proof.
  intros Hnd Hd.
  destruct (list_find_elem_of (λ x, Driver.id x = Driver.id d) drivers d Hd
              eq_refl) as [[i x] Hfind].
  exists i. rewrite Hfind.
  apply list_find_Some in Hfind as (Hx & Heq & _). do 2 f_equal.
  apply (NoDup_key_inj Driver.id drivers); [done|done| |done].
  by eapply list_elem_of_lookup_2.
Qed.

(** The sum over the element with the key of [x]. *)
Lemma total_NoDup_key {A} (f : A → string) (g : A → Z) (x : A) (l : list A) :
  NoDup (map f l) → x ∈ l →
  total (λ y, if decide (f y = f x) then g y else 0) l = g x.
Proof.
  intros Hnd Hx. rewrite <- total_filter, filter_NoDup_key by done.
  simpl. lia.
Qed.

Lemma sorted_take_drop {A} (R : A → A → Prop) (l : list A) (n : nat) :
  StronglySorted R l → Forall (λ a, Forall (R a) (drop n l)) (take n l).
Proof.
  intros Hs. revert n.
  induction Hs as [|a l Hs IH Ha]; intros [|n]; simpl; try constructor.
  - by apply Forall_drop.
  - apply IH.
Qed.

Lemma Forall2_map_same {A B C} (R : B → C → Prop) (f : A → B) (g : A → C)
    (l : list A) :
  (∀ x, x ∈ l → R (f x) (g x)) → Forall2 R (map f l) (map g l).
Proof.
  induction l as [|x l IH]; intros HR; simpl; constructor.
  - apply HR, list_elem_of_here.
  - apply IH. intros y Hy. by apply HR, list_elem_of_further.
Qed.

(** The points the loop of [teamTotals] adds to the team [t] for a row. *)
Definition teamShare (drivers : list Driver.t) (t : string)
    (row : AnalyticsRow.t) : Z :=
  match list_find (λ x, Driver.id x = AnalyticsRow.id row) drivers with
  | Some (_, x) =>
      if String.eqb (Driver.teamId x) "" then 0
      else if decide (Driver.teamId x = t) then AnalyticsRow.points row
           else 0
  | None => 0
  end.

Lemma addToTeam_lookup drivers rows t (m : gmap string Z) :
  default 0 (fold_left (addToTeam drivers) rows m !! t) =
    default 0 (m !! t) + total (teamShare drivers t) rows.
Proof.
  revert m. induction rows as [|row rows IH]; intros m; simpl; [lia|].
  rewrite IH. unfold addToTeam, teamShare.
  destruct (list_find _ drivers) as [[i x]|]; [|lia].
  destruct (String.eqb (Driver.teamId x) ""); [lia|].
  destruct (decide (Driver.teamId x = t)) as [->|Hne].
  - rewrite lookup_insert_eq. simpl. lia.
  - rewrite lookup_insert_ne by done. lia.
Qed.

Section AnalyticsTableProperties.
Context `{Host}.

Global Instance analyticsRowCompare_consistent : Consistent analyticsRowCompare.
Proof.
  apply (consistent_orElse
           (λ a b, AnalyticsRow.points b - AnalyticsRow.points a)
           (λ a b, localeCompare (AnalyticsRow.name a) (AnalyticsRow.name b))).
  - apply (consistent_desc AnalyticsRow.points).
  - apply (consistent_localeCompare AnalyticsRow.name).
Qed.

(** The points of the analytics for a driver, as a sum over the visited
    pairs. *)
Lemma analytics_points drivers events results d :
  d ∈ drivers →
  default 0 (DriverAnalytics.points
               <$> Analytics.driverStats (analytics drivers events results)
                     !! Driver.id d) =
    total (λ p, if decide (ResultEntry.driverId p.2 = Driver.id d)
                then entryPts p.1 p.2 else 0)
          (visited events results).
Proof.
  intros Hd.
  destruct (analytics_stats_of_driver drivers [] events results ∅ d Hd)
    as (ds & Hds & Hpts & _).
  rewrite Hds. cbn [fmap option_fmap option_map default from_option].
  unfold id. rewrite Hpts.
  unfold DriverRow.points, driverRow. cbn [DriverRow.stats].
  rewrite aggregate_lookup_driver by done. simpl.
  rewrite points_recordAll, total_filter. simpl. done.
Qed.

(** The points credited to the team [t], driver by driver, when the
    identifiers of the drivers are distinct. *)
Lemma team_credit_by_driver drivers t (l : list (Event.t * ResultEntry.t)) :
  NoDup (map Driver.id drivers) →
  total (λ d,
           if String.eqb (Driver.teamId d) "" then 0
           else if decide (Driver.teamId d = t)
                then total (λ p, if decide (ResultEntry.driverId p.2
                                            = Driver.id d)
                                 then entryPts p.1 p.2 else 0) l
                else 0)
        drivers =
    total (teamCredit drivers (driverByIdOf drivers) t) l.
Proof.
  intros Hnd.
  rewrite (total_ext _
    (λ d, total (λ p, if decide (Driver.id d = ResultEntry.driverId p.2)
                      then (if String.eqb (Driver.teamId d) "" then 0
                            else if decide (Driver.teamId d = t)
                                 then entryPts p.1 p.2 else 0)
                      else 0)
                l)).
  - rewrite total_swap. apply total_ext. intros p _. unfold teamCredit.
    destruct (decide (ResultEntry.driverId p.2 ∈ map Driver.id drivers))
      as [Hin|Hnin].
    + apply list_elem_of_fmap in Hin as (d & Hid & Hd).
      rewrite Hid.
      rewrite (total_NoDup_key Driver.id
                 (λ y, if String.eqb (Driver.teamId y) "" then 0
                       else if decide (Driver.teamId y = t)
                            then entryPts p.1 p.2 else 0)) by done.
      unfold teamOf. rewrite Hid, driverByIdOf_NoDup by done.
      destruct (String.eqb_spec (Driver.teamId d) "") as [Hempty|Hteam];
        simpl.
      * rewrite decide_False; [done|]. by intros [_ ?].
      * apply decide_ext. split; [|by intros [_ [= ->]]].
        intros ->. split; [|done]. by apply list_elem_of_fmap_2.
    + rewrite decide_False by (by intros [? _]).
      apply total_zero. intros d Hd. rewrite decide_False; [done|].
      intros Heq. apply Hnin. rewrite <- Heq. by apply list_elem_of_fmap_2.
  - intros d Hd.
    destruct (String.eqb (Driver.teamId d) "").
    { symmetry. apply total_zero. intros p _. by case_decide. }
    destruct (decide (Driver.teamId d = t)).
    + apply total_ext. intros p _. apply decide_ext. split; congruence.
    + symmetry. apply total_zero. intros p _. by case_decide.
Qed.

(** The total the loop of [teamTotals] gives a team, when the identifiers
    of the drivers are distinct. *)
Lemma teamTotals_credit drivers teams events results t :
  NoDup (map Driver.id drivers) →
  total (teamShare drivers t)
        (driverRows drivers teams
           (Analytics.driverStats (analytics drivers events results))) =
    total (teamCredit drivers (driverByIdOf drivers) t)
          (visited events results).
Proof.
  intros Hnd. unfold driverRows.
  rewrite (total_Permutation _ _ _ (sort_Permutation _ _)), total_fmap.
  rewrite <- team_credit_by_driver by done.
  apply total_ext. intros d Hd. unfold teamShare, analyticsDriverRow.
  cbn [AnalyticsRow.id AnalyticsRow.points].
  destruct (list_find_NoDup_key drivers d Hnd Hd) as [i ->].
  by rewrite analytics_points.
Qed.

(** The points of a team in the standings are the points of its drivers. *)
Lemma standings_team_credit v drivers teams events results t :
  NoDup (map Driver.id drivers) → t ≠ "" →
  total DriverRow.points
        (filter (λ r, Driver.teamId (DriverRow.driver r) = t)
                (Standings.drivers
                   (buildStandings v drivers teams events results
                      (driverByIdOf drivers)))) =
    total (teamCredit drivers (driverByIdOf drivers) t)
          (visited events results).
Proof.
  intros Hnd Ht. rewrite buildStandings_drivers, total_filter.
  rewrite (total_Permutation _ _ _ (sort_Permutation _ _)), total_fmap.
  rewrite <- team_credit_by_driver by done.
  apply total_ext. intros d Hd.
  unfold DriverRow.points, driverRow.
  cbn [DriverRow.driver DriverRow.stats].
  rewrite aggregate_lookup_driver by done.
  unfold default. cbn [from_option]. unfold id.
  destruct (String.eqb_spec (Driver.teamId d) "") as [Hempty|Hteam].
  { rewrite decide_False; [done|]. congruence. }
  destruct (decide (Driver.teamId d = t)); [|done].
  rewrite points_recordAll, total_filter. simpl. done.
Qed.

End AnalyticsTableProperties.

(** X15. When the identifiers of the drivers are distinct and [driverById]
    is built from the list of drivers, the team table of the analytics is
    the team table of the standings: the same teams in the same order with
    the same points. *)
Theorem analytics_team_totals `{Host} (v : Version) (drivers : list Driver.t)
    (teams : list Team.t) (events : list Event.t)
    (results : list ResultEntry.t) :
  NoDup (map Driver.id drivers) →
  Forall2
    (λ tt row,
       TeamTotal.id tt = Team.id (TeamRow.team row)
       ∧ TeamTotal.name tt = Team.name (TeamRow.team row)
       ∧ TeamTotal.points tt = TeamRow.points row)
    (teamTotals drivers teams
       (driverRows drivers teams
          (Analytics.driverStats (analytics drivers events results))))
    (Standings.teams
       (buildStandings v drivers teams events results (driverByIdOf drivers))).
Proof.
  intros Hnd. rewrite buildStandings_teams. unfold teamTotals.
  apply sort_related.
  - intros a a' b b' (_ & Ha & Hpa) (_ & Hb & Hpb).
    unfold teamTotalCompare, teamCompare. by rewrite Ha, Hb, Hpa, Hpb.
  - apply Forall2_map_same. intros t _. simpl. split_and!; try done.
    rewrite addToTeam_lookup, lookup_empty. simpl.
    rewrite teamTotals_credit by done.
    by rewrite aggregate_lookup_team.
Qed.

Lemma analytics_team_totals_witness :
  Forall2
    (λ tt row,
       TeamTotal.id tt = Team.id (TeamRow.team row)
       ∧ TeamTotal.name tt = Team.name (TeamRow.team row)
       ∧ TeamTotal.points tt = TeamRow.points row)
    (@teamTotals codeUnitHost seasonDrivers seasonTeams
       (@driverRows codeUnitHost seasonDrivers seasonTeams
          (Analytics.driverStats
             (analytics seasonDrivers seasonEvents seasonResults))))
    (Standings.teams
       (@buildStandings codeUnitHost MultiSeason seasonDrivers seasonTeams
          seasonEvents seasonResults (driverByIdOf seasonDrivers))).
Proof.
  apply (@analytics_team_totals codeUnitHost).
  apply (bool_decide_unpack _). by vm_compute.
Defined.

(** X16. The driver table of the analytics lists the drivers of the
    standings with the same points and podiums, by points from the highest,
    then by name.  The team of a row is the name of a team of the list or a
    dash.  The top drivers are the first five rows, or all the rows when
    there are fewer, and no other row has more points than one of them. *)
Theorem analytics_driver_table `{Host} (drivers : list Driver.t)
    (teams : list Team.t) (events : list Event.t)
    (results : list ResultEntry.t) (driverById : gmap string Driver.t) :
  let rows :=
    driverRows drivers teams
      (Analytics.driverStats (analytics drivers events results)) in
  (map (λ r, (AnalyticsRow.id r, AnalyticsRow.name r, AnalyticsRow.points r,
              AnalyticsRow.podiums r)) rows
   ≡ₚ map (λ r, (Driver.id (DriverRow.driver r),
                 Driver.name (DriverRow.driver r), DriverRow.points r,
                 DriverRow.podiums r))
          (Standings.drivers
             (buildStandings MultiSeason drivers teams events results
                driverById)))
  ∧ StronglySorted
      (λ a b, AnalyticsRow.points b < AnalyticsRow.points a
              ∨ (AnalyticsRow.points a = AnalyticsRow.points b
                 ∧ localeCompare (AnalyticsRow.name a) (AnalyticsRow.name b)
                   <= 0))
      rows
  ∧ Forall (λ r, AnalyticsRow.team r = "—"
                 ∨ AnalyticsRow.team r ∈ map Team.name teams) rows
  ∧ rows = topDrivers rows ++ drop 5 rows
  ∧ length (topDrivers rows) = (5 `min` length drivers)%nat
  ∧ Forall (λ a, Forall (λ b, AnalyticsRow.points b <= AnalyticsRow.points a)
                        (drop 5 rows))
           (topDrivers rows).
Proof.
  intros rows.
  assert (StronglySorted (cmpLe analyticsRowCompare) rows) as Hsorted.
  { unfold rows, driverRows. apply sort_sorted, analyticsRowCompare_consistent. }
  split_and!.
  - unfold rows, driverRows. rewrite buildStandings_drivers.
    etransitivity; [apply Permutation_map, sort_Permutation|].
    symmetry.
    etransitivity; [apply Permutation_map, sort_Permutation|].
    rewrite !map_map.
    assert (∀ f g : Driver.t → string * string * Z * Z,
              (∀ d, d ∈ drivers → f d = g d) → map f drivers = map g drivers)
      as Hext.
    { intros f g Hfg. apply map_ext_in. intros d Hd. apply Hfg.
      by apply list_elem_of_In. }
    rewrite (Hext _ (λ d, (AnalyticsRow.id
                            (analyticsDriverRow teams
                               (Analytics.driverStats
                                  (analytics drivers events results)) d),
                          AnalyticsRow.name
                            (analyticsDriverRow teams
                               (Analytics.driverStats
                                  (analytics drivers events results)) d),
                          AnalyticsRow.points
                            (analyticsDriverRow teams
                               (Analytics.driverStats
                                  (analytics drivers events results)) d),
                          AnalyticsRow.podiums
                            (analyticsDriverRow teams
                               (Analytics.driverStats
                                  (analytics drivers events results)) d))));
      [done|].
    intros d Hd.
    destruct (analytics_stats_of_driver drivers teams events results
                driverById d Hd) as (ds & Hds & Hpts & Hpod & _).
    unfold analyticsDriverRow.
    cbn [AnalyticsRow.id AnalyticsRow.name AnalyticsRow.points
         AnalyticsRow.podiums].
    rewrite Hds. simpl. by rewrite Hpts, Hpod.
  - eapply StronglySorted_weaken; [|exact Hsorted].
    intros a b. unfold cmpLe, analyticsRowCompare. rewrite orElse_le. lia.
  - apply Forall_forall. intros r Hr.
    apply elem_of_sort, list_elem_of_fmap in Hr as (d & -> & _).
    unfold analyticsDriverRow. cbn [AnalyticsRow.team].
    destruct (list_find _ teams) as [[i t]|] eqn:Hfind; [|by left].
    destruct (String.eqb (Team.name t) ""); [by left|]. right.
    apply list_find_Some in Hfind as (Ht & _).
    apply list_elem_of_fmap_2. by eapply list_elem_of_lookup_2.
  - unfold topDrivers. symmetry. apply take_drop.
  - unfold topDrivers, rows, driverRows.
    by rewrite length_take, sort_length, length_map.
  - unfold topDrivers. apply sorted_take_drop.
    eapply StronglySorted_weaken; [|exact Hsorted].
    intros a b. unfold cmpLe, analyticsRowCompare. rewrite orElse_le. lia.
Qed.

(** ** Properties of the entry grid *)

Lemma normalizePositions_lookup (grid : list GridRow.t) (i : nat) :
  normalizePositions grid !! i =
    (λ g, GridRow.mk (GridRow.driverId g) (VNum (Int (Z.of_nat i + 1)))
                     (GridRow.status g) (GridRow.fastestLap g))
      <$> grid !! i.
Proof. unfold normalizePositions. by rewrite list_lookup_imap. Qed.

(** X17. The button "Normalize Positions" numbers the rows of the grid 1,
    2, 3, ... from the top and leaves the driver, the status and the
    fastest-lap flag of every row as they are; no two rows have the same
    position afterwards, a second press changes nothing, and the entries
    saved from the rows have these positions. *)
Theorem normalizePositions_numbers `{Host} (v : Version) (ev : Event.t)
    (grid : list GridRow.t) :
  map GridRow.position (normalizePositions grid) =
    map (λ i, VNum (Int (Z.of_nat i + 1))) (seq 0 (length grid))
  ∧ map (λ g, (GridRow.driverId g, GridRow.status g, GridRow.fastestLap g))
        (normalizePositions grid) =
      map (λ g, (GridRow.driverId g, GridRow.status g, GridRow.fastestLap g))
          grid
  ∧ NoDup (map GridRow.position (normalizePositions grid))
  ∧ normalizePositions (normalizePositions grid) = normalizePositions grid
  ∧ map (λ g, ResultEntry.position (normalizeEntry (gridEntry v ev g)))
        (normalizePositions grid) =
      map (λ i, Z.of_nat i + 1) (seq 0 (length grid)).
Proof.
  assert (map GridRow.position (normalizePositions grid) =
            map (λ i, VNum (Int (Z.of_nat i + 1))) (seq 0 (length grid)))
    as Hpos.
  { apply list_eq. intros i.
    rewrite !list_lookup_fmap, normalizePositions_lookup.
    destruct (grid !! i) as [g|] eqn:Hg; simpl.
    - rewrite lookup_seq_lt by (by eapply lookup_lt_Some). done.
    - rewrite lookup_seq_ge by (by apply lookup_ge_None). done. }
  split_and!.
  - exact Hpos.
  - apply list_eq. intros i.
    rewrite !list_lookup_fmap, normalizePositions_lookup.
    by destruct (grid !! i).
  - rewrite Hpos. apply NoDup_fmap_2; [|apply NoDup_seq].
    intros i j [= Heq]. lia.
  - apply list_eq. intros i. rewrite !normalizePositions_lookup.
    by destruct (grid !! i).
  - apply list_eq. intros i.
    rewrite !list_lookup_fmap, normalizePositions_lookup.
    destruct (grid !! i) as [g|] eqn:Hg; simpl.
    + rewrite lookup_seq_lt by (by eapply lookup_lt_Some). simpl.
      f_equal. destruct (Z.eqb_spec (Z.of_nat i + 1) 0); lia.
    + rewrite lookup_seq_ge by (by apply lookup_ge_None). done.
Qed.

(** ** Properties of the order of the events *)

(** X18. [sortEventsByRound] returns the events of its input in the order
    of their rounds; events with the same round keep the order of the input,
    and an input in the order of the rounds is returned as it is.  The
    labels of the analytics chart are the rounds from the lowest, one for
    each event. *)
Theorem sortEventsByRound_stable (events : list Event.t) :
  (sortEventsByRound events ≡ₚ events)
  ∧ StronglySorted (λ a b, Event.round a <= Event.round b)
                   (sortEventsByRound events)
  ∧ (∀ n, filter (λ e, Event.round e = n) (sortEventsByRound events)
          = filter (λ e, Event.round e = n) events)
  ∧ sortEventsByRound (sortEventsByRound events) = sortEventsByRound events
  ∧ StronglySorted Z.le (analyticsRounds events)
  ∧ length (analyticsRounds events) = length events.
Proof.
  pose proof (consistent_asc Event.round) as Hcons.
  assert (StronglySorted (λ a b, Event.round a <= Event.round b)
                         (sortEventsByRound events)) as Hsorted.
  { eapply StronglySorted_weaken;
      [|apply (sort_sorted (λ a b, Event.round a - Event.round b))].
    unfold cmpLe. intros a b. lia. }
  split_and!.
  - apply sort_Permutation.
  - exact Hsorted.
  - intros n. unfold sortEventsByRound.
    rewrite (filter_sort (λ a b, Event.round a - Event.round b)).
    apply sort_sorted_id.
    assert (Forall (λ e, Event.round e = n)
                   (filter (λ e, Event.round e = n) events)) as Hall.
    { apply Forall_forall. by intros e [? _]%list_elem_of_filter. }
    induction Hall as [|e l He Hl IH]; constructor; [done|].
    eapply Forall_impl; [exact Hl|]. unfold cmpLe. simpl. intros. lia.
  - apply (sort_idempotent (λ a b, Event.round a - Event.round b)).
  - unfold analyticsRounds.
    induction Hsorted as [|e l Hs IH He]; simpl; constructor; [done|].
    apply Forall_fmap. eapply Forall_impl; [exact He|]. done.
  - unfold analyticsRounds, sortEventsByRound.
    by rewrite length_map, sort_length.
Qed.

(** ** The points of a team *)

(** X19. When the identifiers of the drivers are distinct and [driverById]
    is built from the list of drivers, the points of a team in the standings
    are the sum of the points of the drivers who are in the team now,
    whatever team they were in when the results were entered.  A team whose
    identifier is empty has no points. *)
Theorem team_points_of_current_drivers `{Host} (v : Version)
    (drivers : list Driver.t) (teams : list Team.t) (events : list Event.t)
    (results : list ResultEntry.t) :
  NoDup (map Driver.id drivers) →
  let standings :=
    buildStandings v drivers teams events results (driverByIdOf drivers) in
  Forall
    (λ row,
       TeamRow.points row =
         if decide (Team.id (TeamRow.team row) = "") then 0
         else total DriverRow.points
                (filter (λ r, Driver.teamId (DriverRow.driver r)
                              = Team.id (TeamRow.team row))
                        (Standings.drivers standings)))
    (Standings.teams standings).
Proof.
  intros Hnd standings. apply Forall_forall. intros row Hrow.
  unfold standings in Hrow. rewrite buildStandings_teams in Hrow.
  apply elem_of_sort, list_elem_of_fmap in Hrow as (t & -> & Ht).
  unfold teamRow. cbn [TeamRow.points TeamRow.team].
  rewrite aggregate_lookup_team.
  destruct (decide (Team.id t = "")) as [Hempty|Hid].
  - apply total_zero. intros p _. unfold teamCredit, teamOf.
    rewrite decide_False; [done|]. intros [_ Hteam].
    destruct (driverByIdOf drivers !! ResultEntry.driverId p.2) as [drv|];
      [|done].
    destruct (String.eqb_spec (Driver.teamId drv) ""); simpl in Hteam;
      congruence.
  - unfold standings. by rewrite standings_team_credit.
Qed.

Lemma team_points_of_current_drivers_witness :
  Forall
    (λ row,
       TeamRow.points row =
         if decide (Team.id (TeamRow.team row) = "") then 0
         else total DriverRow.points
                (filter (λ r, Driver.teamId (DriverRow.driver r)
                              = Team.id (TeamRow.team row))
                        (Standings.drivers
                           (@buildStandings codeUnitHost MultiSeason
                              seasonDrivers seasonTeams seasonEvents
                              seasonResults (driverByIdOf seasonDrivers)))))
    (Standings.teams
       (@buildStandings codeUnitHost MultiSeason seasonDrivers seasonTeams
          seasonEvents seasonResults (driverByIdOf seasonDrivers))).
Proof.
  apply (@team_points_of_current_drivers codeUnitHost).
  apply (bool_decide_unpack _). by vm_compute.
Defined.

(** ** Properties of editing records *)

Lemma fold_left_pointwise {A B} (f g : A → B → A) (l : list B) (a : A) :
  (∀ x y, f x y = g x y) → fold_left f l a = fold_left g l a.
Proof.
  intros Hfg. revert a. induction l as [|y l IH]; intros a; simpl; [done|].
  by rewrite Hfg, IH.
Qed.

Lemma initTeamPoints_ids teams teams' :
  map Team.id teams' = map Team.id teams →
  initTeamPoints teams' = initTeamPoints teams.
Proof.
  intros Hids. apply map_eq. intros k.
  by rewrite !initTeamPoints_lookup, Hids.
Qed.

Lemma initDriverStats_ids drivers drivers' :
  map Driver.id drivers' = map Driver.id drivers →
  initDriverStats drivers' = initDriverStats drivers.
Proof.
  intros Hids. apply map_eq. intros k.
  by rewrite !initDriverStats_lookup, Hids.
Qed.

(** The loops read only the team of a driver in [driverById]. *)
Lemma aggregate_driverById v drivers teams events results driverById
    driverById' :
  (∀ k, Driver.teamId <$> driverById' !! k = Driver.teamId <$> driverById !! k) →
  aggregate v drivers teams events results driverById' =
    aggregate v drivers teams events results driverById.
Proof.
  intros Hteam. unfold aggregate. apply fold_left_pointwise.
  intros acc e. unfold scoreEvent. apply fold_left_pointwise.
  intros [driverStats teamPoints] r. unfold scoreEntry.
  destruct (driverStats !! ResultEntry.driverId r); [|done].
  specialize (Hteam (ResultEntry.driverId r)).
  destruct (driverById' !! ResultEntry.driverId r) as [d'|],
    (driverById !! ResultEntry.driverId r) as [d|]; simpl in Hteam;
    try done.
  by injection Hteam as ->.
Qed.

Lemma last_filter_map {A} (P : A → Prop) `{!∀ x, Decision (P x)} (f : A → A)
    (l : list A) :
  (∀ x, P (f x) ↔ P x) →
  last (filter P (map f l)) = f <$> last (filter P l).
Proof.
  intros HP. induction l as [|x l IH]; [done|].
  cbn [map]. rewrite !filter_cons.
  destruct (decide (P (f x))) as [Hx|Hx], (decide (P x)) as [Hx'|Hx'].
  - rewrite !last_cons, IH. by destruct (last (filter P l)).
  - destruct (HP x); tauto.
  - destruct (HP x); tauto.
  - exact IH.
Qed.

Lemma updateTeam_others (id : string) (patch : TeamPatch.t)
    (teams : list Team.t) :
  TeamPatch.id patch = None →
  filter (λ t, Team.id t ≠ id) (updateTeam id patch teams) =
    filter (λ t, Team.id t ≠ id) teams.
Proof.
  intros Hpatch. unfold updateTeam. induction teams as [|t teams IH]; [done|].
  cbn [map]. destruct (decide (Team.id t = id)) as [Ht|Ht].
  - rewrite !filter_cons_False; [exact IH|..];
      intros Hne; apply Hne; unfold TeamPatch.merge; rewrite ?Hpatch; done.
  - rewrite !filter_cons_True by done. by rewrite IH.
Qed.

(** X20. Changing the name or the colour of a team changes no points: the
    driver table is the same, and the team table has the same points for
    each team.  The teams with another identifier are left as they are. *)
Theorem updateTeam_keeps_points `{Host} (v : Version) (id : string)
    (patch : TeamPatch.t) (drivers : list Driver.t) (teams : list Team.t)
    (events : list Event.t) (results : list ResultEntry.t)
    (driverById : gmap string Driver.t) :
  TeamPatch.id patch = None →
  let teams' := updateTeam id patch teams in
  map Team.id teams' = map Team.id teams
  ∧ filter (λ t, Team.id t ≠ id) teams' = filter (λ t, Team.id t ≠ id) teams
  ∧ Standings.drivers
      (buildStandings v drivers teams' events results driverById)
    = Standings.drivers
        (buildStandings v drivers teams events results driverById)
  ∧ map (λ r, (Team.id (TeamRow.team r), TeamRow.points r))
        (Standings.teams
           (buildStandings v drivers teams' events results driverById))
    ≡ₚ map (λ r, (Team.id (TeamRow.team r), TeamRow.points r))
           (Standings.teams
              (buildStandings v drivers teams events results driverById)).
Proof.
  intros Hpatch teams'.
  assert (map Team.id teams' = map Team.id teams) as Hids.
  { unfold teams', updateTeam. rewrite map_map. apply map_ext. intros t.
    case_decide; [|done]. unfold TeamPatch.merge. by rewrite Hpatch. }
  assert (aggregate v drivers teams' events results driverById
          = aggregate v drivers teams events results driverById) as Hagg.
  { unfold aggregate. by rewrite (initTeamPoints_ids teams teams'). }
  split_and!.
  - exact Hids.
  - by apply updateTeam_others.
  - by rewrite !buildStandings_drivers, Hagg.
  - rewrite !buildStandings_teams, Hagg.
    etransitivity; [apply Permutation_map, sort_Permutation|].
    symmetry.
    etransitivity; [apply Permutation_map, sort_Permutation|].
    rewrite !map_map. unfold teams', updateTeam. rewrite map_map.
    apply eq_subrelation; [apply _|]. apply map_ext. intros t.
    unfold teamRow. cbn [TeamRow.team TeamRow.points].
    case_decide; [|done]. unfold TeamPatch.merge. by rewrite Hpatch.
Qed.

Lemma updateTeam_keeps_points_witness :
  map (λ r, (Team.id (TeamRow.team r), TeamRow.points r))
      (Standings.teams
         (@buildStandings codeUnitHost MultiSeason seasonDrivers
            (updateTeam "t1" (TeamPatch.mk None (Some "Omega") None)
                        seasonTeams)
            seasonEvents seasonResults (driverByIdOf seasonDrivers)))
  ≡ₚ map (λ r, (Team.id (TeamRow.team r), TeamRow.points r))
         (Standings.teams
            (@buildStandings codeUnitHost MultiSeason seasonDrivers
               seasonTeams seasonEvents seasonResults
               (driverByIdOf seasonDrivers))).
Proof.
  by apply (@updateTeam_keeps_points codeUnitHost MultiSeason "t1"
              (TeamPatch.mk None (Some "Omega") None)).
Defined.

(** X21. Changing the name or the country of a driver changes no points:
    the team table is the same, and the driver table has the same statistics
    for each driver. *)
Theorem updateDriver_keeps_points `{Host} (v : Version) (id : string)
    (patch : DriverPatch.t) (drivers : list Driver.t) (teams : list Team.t)
    (events : list Event.t) (results : list ResultEntry.t) :
  DriverPatch.id patch = None → DriverPatch.teamId patch = None →
  let drivers' := updateDriver id patch drivers in
  map (λ d, (Driver.id d, Driver.teamId d)) drivers'
  = map (λ d, (Driver.id d, Driver.teamId d)) drivers
  ∧ Standings.teams
      (buildStandings v drivers' teams events results (driverByIdOf drivers'))
    = Standings.teams
        (buildStandings v drivers teams events results (driverByIdOf drivers))
  ∧ map (λ r, (Driver.id (DriverRow.driver r), DriverRow.stats r))
        (Standings.drivers
           (buildStandings v drivers' teams events results
              (driverByIdOf drivers')))
    ≡ₚ map (λ r, (Driver.id (DriverRow.driver r), DriverRow.stats r))
           (Standings.drivers
              (buildStandings v drivers teams events results
                 (driverByIdOf drivers))).
Proof.
  intros Hid Hteam drivers'.
  set (upd := λ d, if decide (Driver.id d = id) then DriverPatch.merge d patch
                   else d).
  assert (∀ d, Driver.id (upd d) = Driver.id d) as Hupd_id.
  { intros d. unfold upd. case_decide; [|done].
    unfold DriverPatch.merge. by rewrite Hid. }
  assert (∀ d, Driver.teamId (upd d) = Driver.teamId d) as Hupd_team.
  { intros d. unfold upd. case_decide; [|done].
    unfold DriverPatch.merge. by rewrite Hteam. }
  assert (map Driver.id drivers' = map Driver.id drivers) as Hids.
  { unfold drivers', updateDriver. fold upd. rewrite map_map.
    by apply map_ext. }
  assert (aggregate v drivers' teams events results (driverByIdOf drivers')
          = aggregate v drivers teams events results (driverByIdOf drivers))
    as Hagg.
  { rewrite (aggregate_driverById _ _ _ _ _ (driverByIdOf drivers)).
    - unfold aggregate. by rewrite (initDriverStats_ids drivers drivers').
    - intros k. rewrite !driverByIdOf_lookup.
      unfold drivers', updateDriver. fold upd.
      rewrite (last_filter_map (λ d, Driver.id d = k) upd).
      + destruct (last _); simpl; [|done]. by rewrite Hupd_team.
      + intros d. by rewrite Hupd_id. }
  split_and!.
  - unfold drivers', updateDriver. fold upd. rewrite map_map.
    apply map_ext. intros d. by rewrite Hupd_id, Hupd_team.
  - by rewrite !buildStandings_teams, Hagg.
  - rewrite !buildStandings_drivers, Hagg.
    etransitivity; [apply Permutation_map, sort_Permutation|].
    symmetry.
    etransitivity; [apply Permutation_map, sort_Permutation|].
    rewrite !map_map. unfold drivers', updateDriver. fold upd.
    rewrite map_map.
    apply eq_subrelation; [apply _|]. apply map_ext. intros d.
    unfold driverRow. cbn [DriverRow.driver DriverRow.stats].
    by rewrite Hupd_id.
Qed.

Lemma updateDriver_keeps_points_witness :
  Standings.teams
    (@buildStandings codeUnitHost MultiSeason
       (updateDriver "d1" (DriverPatch.mk None (Some "Anna") None None)
                     seasonDrivers)
       seasonTeams seasonEvents seasonResults
       (driverByIdOf
          (updateDriver "d1" (DriverPatch.mk None (Some "Anna") None None)
                        seasonDrivers)))
  = Standings.teams
      (@buildStandings codeUnitHost MultiSeason seasonDrivers seasonTeams
         seasonEvents seasonResults (driverByIdOf seasonDrivers)).
Proof.
  by apply (@updateDriver_keeps_points codeUnitHost MultiSeason "d1"
              (DriverPatch.mk None (Some "Anna") None None)).
Defined.

(** ** Properties of the seasons *)

Lemma activeSeason_found (meta : Meta.t) :
  Meta.activeId meta ∈ map Season.id (Meta.seasons meta) →
  ∃ s, activeSeason meta = Some s ∧ Season.id s = Meta.activeId meta
       ∧ s ∈ Meta.seasons meta.
Proof.
  intros (s & Hid & Hs)%list_elem_of_fmap. unfold activeSeason.
  destruct (list_find_elem_of (λ s, Season.id s = Meta.activeId meta)
              (Meta.seasons meta) s Hs (eq_sym Hid)) as [[i s'] Hfind].
  rewrite Hfind. apply list_find_Some in Hfind as (Hlookup & Hs' & _).
  exists s'. split_and!; [done|done|]. by eapply list_elem_of_lookup_2.
Qed.

Lemma activeSeason_not_found (meta : Meta.t) :
  Meta.activeId meta ∉ map Season.id (Meta.seasons meta) →
  activeSeason meta = head (Meta.seasons meta).
Proof.
  intros Hid. unfold activeSeason.
  destruct (list_find _ (Meta.seasons meta)) as [[i s]|] eqn:Hfind; [|done].
  apply list_find_Some in Hfind as (Hlookup & Hs & _).
  destruct Hid. rewrite <- Hs.
  apply list_elem_of_fmap_2. by eapply list_elem_of_lookup_2.
Qed.

Lemma activeSeason_head (s : Season.t) (rest : list Season.t) :
  activeSeason (Meta.mk (s :: rest) (Season.id s)) = Some s.
Proof. unfold activeSeason. simpl. by rewrite decide_True. Qed.

(** X22. The active season is the first season with the active identifier,
    or the first season of the list when no season has it; there is none
    only when the list is empty.  After the effect that creates "Season 1"
    for an empty list there is always an active season, and after a switch to
    the identifier of a season the active season has this identifier. *)
Theorem activeSeason_fallback (meta : Meta.t) :
  (activeSeason meta = None ↔ Meta.seasons meta = [])
  ∧ (∀ s, activeSeason meta = Some s → s ∈ Meta.seasons meta)
  ∧ (Meta.activeId meta ∈ map Season.id (Meta.seasons meta) →
     Season.id <$> activeSeason meta = Some (Meta.activeId meta))
  ∧ (Meta.activeId meta ∉ map Season.id (Meta.seasons meta) →
     activeSeason meta = head (Meta.seasons meta))
  ∧ (∀ newId, is_Some (activeSeason (ensureSeason newId meta)))
  ∧ (∀ id, id ∈ map Season.id (Meta.seasons meta) →
           Season.id <$> activeSeason (switchSeason id meta) = Some id).
Proof.
  assert (∀ m, activeSeason m = None ↔ Meta.seasons m = []) as Hnone.
  { intros m. destruct (decide (Meta.activeId m ∈ map Season.id (Meta.seasons m)))
      as [Hin|Hnin].
    - destruct (activeSeason_found m Hin) as (s & -> & _ & Hs).
      split; [done|]. intros Hnil. rewrite Hnil in Hs.
      by apply elem_of_nil in Hs.
    - rewrite activeSeason_not_found by done. apply head_None. }
  split_and!.
  - apply Hnone.
  - intros s Hs.
    destruct (decide (Meta.activeId meta ∈ map Season.id (Meta.seasons meta)))
      as [Hin|Hnin].
    + destruct (activeSeason_found meta Hin) as (s' & Hs' & _ & Hin').
      congruence.
    + rewrite activeSeason_not_found in Hs by done.
      by apply head_Some_elem_of.
  - intros Hin. destruct (activeSeason_found meta Hin) as (s & -> & <- & _).
    done.
  - apply activeSeason_not_found.
  - intros newId. unfold ensureSeason.
    destruct (Meta.seasons meta) as [|s rest] eqn:Hseasons.
    + pose proof (activeSeason_head (Season.mk newId "Season 1") []) as Hhead.
      simpl in Hhead. by rewrite Hhead.
    + destruct (activeSeason meta) eqn:Hactive; [done|].
      apply Hnone in Hactive. congruence.
  - intros id Hin.
    destruct (activeSeason_found (switchSeason id meta) Hin)
      as (s & Hs & Hid & _).
    rewrite Hs. simpl in *. by rewrite Hid.
Qed.

(** X23. A new season is added at the end of the list; when its
    identifier is not the identifier of a season of the list, it is the
    active season afterwards.  Its name is the answer of the prompt, or
    "Season" with the number of seasons when the prompt is cancelled or
    answered with nothing; it is never empty. *)
Theorem createSeason_active (answer : option string) (newId : string)
    (meta : Meta.t) :
  newId ∉ map Season.id (Meta.seasons meta) →
  ∃ name,
    Meta.seasons (createSeason answer newId meta)
      = Meta.seasons meta ++ [Season.mk newId name]
    ∧ activeSeason (createSeason answer newId meta)
        = Some (Season.mk newId name)
    ∧ name ≠ ""
    ∧ (∀ s, answer = Some s → s ≠ "" → name = s)
    ∧ (answer = None ∨ answer = Some "" →
       name = "Season " +:+ pretty (S (length (Meta.seasons meta)))).
Proof.
  intros Hfresh. unfold createSeason.
  set (base := "Season " +:+ pretty (S (length (Meta.seasons meta)))).
  set (name := match answer with
               | Some s => if String.eqb s "" then base else s
               | None => base
               end).
  exists name. split_and!.
  - done.
  - unfold activeSeason. cbn [Meta.seasons Meta.activeId].
    assert (list_find (λ s, Season.id s = newId)
                      (Meta.seasons meta ++ [Season.mk newId name])
            = Some (length (Meta.seasons meta), Season.mk newId name)) as ->;
      [|done].
    apply list_find_Some. split_and!.
    + rewrite lookup_app_r by lia. by rewrite Nat.sub_diag.
    + done.
    + intros j s Hj Hlt Hs. apply Hfresh. rewrite <- Hs.
      rewrite lookup_app_l in Hj by done.
      apply list_elem_of_fmap_2. by eapply list_elem_of_lookup_2.
  - unfold name. destruct answer as [s|]; [|done].
    destruct (String.eqb_spec s ""); done.
  - intros s -> Hs. unfold name.
    by destruct (String.eqb_spec s "").
  - intros [->| ->]; done.
Qed.

Lemma createSeason_active_witness :
  ∃ name,
    activeSeason (createSeason None "s2" (Meta.mk [Season.mk "s1" "2024"] "s1"))
      = Some (Season.mk "s2" name)
    ∧ name = "Season 2".
Proof.
  destruct (createSeason_active None "s2" (Meta.mk [Season.mk "s1" "2024"] "s1"))
    as (name & _ & Hactive & _ & _ & Hname).
  - apply (bool_decide_unpack _). by vm_compute.
  - exists name. split; [exact Hactive|]. rewrite Hname by (by left).
    by vm_compute.
Defined.

Lemma seasonKey_inj (kind kind' id id' : string) :
  kind ∈ seasonKinds → kind' ∈ seasonKinds →
  seasonKey kind id = seasonKey kind' id' → kind = kind' ∧ id = id'.
Proof.
  unfold seasonKinds, seasonKey. intros Hk Hk'.
  repeat (apply elem_of_cons in Hk as [->|Hk]);
    try (by apply elem_of_nil in Hk);
    repeat (apply elem_of_cons in Hk' as [->|Hk']);
    try (by apply elem_of_nil in Hk');
    simpl; intros Heq; by simplify_eq.
Qed.

Lemma deleteSeason_storage (id : string) (storage : gmap string string)
    (k : string) :
  fold_left (λ st kind, delete (seasonKey kind id) st) seasonKinds storage
    !! k =
    if decide (k ∈ map (λ kind, seasonKey kind id) seasonKinds) then None
    else storage !! k.
Proof.
  generalize seasonKinds. intros kinds. revert storage.
  induction kinds as [|kind kinds IH]; intros storage; cbn [fold_left map].
  - rewrite decide_False; [done|]. apply not_elem_of_nil.
  - rewrite IH. destruct (decide (k ∈ map _ kinds)) as [Hin|Hnin].
    + rewrite decide_True; [done|]. by apply list_elem_of_further.
    + destruct (decide (seasonKey kind id = k)) as [<-|Hne].
      * rewrite decide_True by apply list_elem_of_here.
        apply lookup_delete_eq.
      * rewrite lookup_delete_ne by done.
        rewrite decide_False; [done|].
        intros [?|?]%elem_of_cons; [congruence|done].
Qed.

(** X24. A confirmed deletion removes every season with the identifier of
    the active season and keeps the other seasons in their order; the first
    season left, if there is one, is active afterwards.  The four stored
    tables of the deleted season are removed from the storage and the tables
    of a season with another identifier are kept.  Without confirmation
    nothing changes. *)
Theorem deleteSeason_removes (meta : Meta.t) (storage : gmap string string)
    (a : Season.t) :
  activeSeason meta = Some a →
  let meta' := (deleteSeason true meta storage).1 in
  let storage' := (deleteSeason true meta storage).2 in
  Meta.seasons meta'
    = filter (λ s, Season.id s ≠ Season.id a) (Meta.seasons meta)
  ∧ (Season.id a ∉ map Season.id (Meta.seasons meta'))
  ∧ activeSeason meta' = head (Meta.seasons meta')
  ∧ (∀ kind, kind ∈ seasonKinds →
             storage' !! seasonKey kind (Season.id a) = None)
  ∧ (∀ kind id, kind ∈ seasonKinds → id ≠ Season.id a →
                storage' !! seasonKey kind id = storage !! seasonKey kind id)
  ∧ deleteSeason false meta storage = (meta, storage).
Proof.
  intros Hactive. unfold deleteSeason. rewrite Hactive. cbn [fst snd].
  cbn [Meta.seasons].
  split_and!.
  - done.
  - intros (s & Hid & [Hne _]%list_elem_of_filter)%list_elem_of_fmap.
    congruence.
  - destruct (filter _ (Meta.seasons meta)) as [|s rest]; [done|].
    apply activeSeason_head.
  - intros kind Hkind. rewrite deleteSeason_storage, decide_True; [done|].
    by apply (list_elem_of_fmap_2 (λ kind, seasonKey kind (Season.id a))).
  - intros kind id Hkind Hid.
    rewrite deleteSeason_storage, decide_False; [done|].
    intros (kind' & Heq & Hkind')%list_elem_of_fmap.
    by apply seasonKey_inj in Heq as [_ ?].
  - done.
Qed.

Lemma deleteSeason_removes_witness :
  Meta.seasons
    (deleteSeason true
       (Meta.mk [Season.mk "s1" "2024"; Season.mk "s2" "2025"] "s2")
       {["f1_teams_s1" := "[]"; "f1_teams_s2" := "[]"]}).1
  = filter (λ s, Season.id s ≠ "s2")
           [Season.mk "s1" "2024"; Season.mk "s2" "2025"].
Proof.
  by apply (deleteSeason_removes
              (Meta.mk [Season.mk "s1" "2024"; Season.mk "s2" "2025"] "s2")
              {["f1_teams_s1" := "[]"; "f1_teams_s2" := "[]"]}
              (Season.mk "s2" "2025")).
Defined.

(** X25. A rename gives the new name to the active season and keeps the
    identifiers, the active identifier and the seasons with another
    identifier; the renamed season is still the active one.  A cancelled or
    empty answer changes nothing. *)
Theorem renameSeason_active (answer : option string) (meta : Meta.t)
    (a : Season.t) (name : string) :
  activeSeason meta = Some a → answer = Some name → name ≠ "" →
  map Season.id (Meta.seasons (renameSeason answer meta))
    = map Season.id (Meta.seasons meta)
  ∧ Meta.activeId (renameSeason answer meta) = Meta.activeId meta
  ∧ activeSeason (renameSeason answer meta)
      = Some (Season.mk (Season.id a) name)
  ∧ filter (λ s, Season.id s ≠ Season.id a)
           (Meta.seasons (renameSeason answer meta))
      = filter (λ s, Season.id s ≠ Season.id a) (Meta.seasons meta)
  ∧ renameSeason None meta = meta
  ∧ renameSeason (Some "") meta = meta.
Proof.
  intros Hactive -> Hname. unfold renameSeason. rewrite Hactive.
  destruct (String.eqb_spec name "") as [|_]; [done|].
  cbn [Meta.seasons Meta.activeId].
  set (upd := λ s, if decide (Season.id s = Season.id a)
                   then Season.mk (Season.id s) name else s).
  assert (∀ s, Season.id (upd s) = Season.id s) as Hupd.
  { intros s. unfold upd. by case_decide. }
  split_and!; try done.
  - rewrite map_map. by apply map_ext.
  - unfold activeSeason in *. cbn [Meta.seasons Meta.activeId].
    change (map upd (Meta.seasons meta)) with (upd <$> Meta.seasons meta).
    rewrite list_find_fmap.
    rewrite (list_find_ext _ (λ s, Season.id s = Meta.activeId meta))
      by (intros s; simpl; by rewrite Hupd).
    destruct (list_find _ (Meta.seasons meta)) as [[i s]|]; simpl.
    + injection Hactive as ->. unfold upd. by rewrite decide_True.
    + destruct (Meta.seasons meta) as [|s rest]; [done|]. simpl in *.
      injection Hactive as ->. unfold upd. by rewrite decide_True.
  - induction (Meta.seasons meta) as [|s l IH]; [done|].
    cbn [map]. rewrite !filter_cons, Hupd, IH.
    case_decide; [|done]. unfold upd. by rewrite decide_False.
Qed.

Lemma renameSeason_active_witness :
  activeSeason
    (renameSeason (Some "Winter")
       (Meta.mk [Season.mk "s1" "2024"; Season.mk "s2" "2025"] "s9"))
  = Some (Season.mk "s1" "Winter").
Proof.
  by apply (renameSeason_active (Some "Winter")
              (Meta.mk [Season.mk "s1" "2024"; Season.mk "s2" "2025"] "s9")
              (Season.mk "s1" "2024") "Winter").
Defined.

(** ** One result in the tables *)

Lemma total_add {A} (f g : A → Z) (l : list A) :
  total (λ x, f x + g x) l = total f l + total g l.
Proof. induction l as [|x l IH]; simpl; [done|]. rewrite IH. lia. Qed.

(** A sum over the visited pairs, event by event. *)
Lemma total_visited (g : Event.t * ResultEntry.t → Z) events results :
  total g (visited events results) =
    total (λ e, total (λ r, g (e, r))
                      (filter (λ r, ResultEntry.eventId r = Event.id e) results))
          events.
Proof.
  unfold visited. induction events as [|e events IH]; [done|].
  rewrite bind_cons, total_app, IH, total_cons, total_fmap. f_equal.
  unfold entriesOf. apply total_Permutation, sort_Permutation.
Qed.

(** What one more result adds to a sum over the visited pairs. *)
Lemma total_visited_insert (g : Event.t * ResultEntry.t → Z) events results1 r
    results2 :
  total g (visited events (results1 ++ r :: results2)) =
    total g (visited events (results1 ++ results2))
    + total (λ e, if decide (ResultEntry.eventId r = Event.id e)
                  then g (e, r) else 0) events.
Proof.
  rewrite !total_visited, <- total_add. apply total_ext. intros e _.
  rewrite !filter_app, filter_cons, !total_app.
  destruct (decide (ResultEntry.eventId r = Event.id e)); simpl; lia.
Qed.

(** With distinct identifiers of the events, a result is visited once, in
    its event. *)
Lemma total_visited_result (g : Event.t * ResultEntry.t → Z) events results1 r
    results2 e :
  NoDup (map Event.id events) → e ∈ events →
  ResultEntry.eventId r = Event.id e →
  total g (visited events (results1 ++ r :: results2)) =
    total g (visited events (results1 ++ results2)) + g (e, r).
Proof.
  intros Hnd He Hid. rewrite total_visited_insert. f_equal.
  rewrite <- (total_NoDup_key Event.id (λ e', g (e', r)) e events) by done.
  apply total_ext. intros e' _. apply decide_ext. rewrite Hid.
  split; congruence.
Qed.

Lemma wins_recordAll v l d :
  Stats.wins (recordAll v l d) =
    Stats.wins d
    + total (λ p, if decide (ResultEntry.position p.2 = 1) then 1 else 0) l.
Proof.
  revert d. induction l as [|p l IH]; intros d; simpl; [lia|].
  unfold recordAll in *. simpl. rewrite IH. simpl.
  destruct (Z.eqb_spec (ResultEntry.position p.2) 1);
    case_decide; try done; lia.
Qed.

Section OneResult.
Context `{Host}.

(** The statistics of a row of the driver table. *)
Lemma standings_driver_row v drivers teams events results driverById row :
  row ∈ Standings.drivers
          (buildStandings v drivers teams events results driverById) →
  DriverRow.stats row =
    recordAll v
      (filter (λ p, ResultEntry.driverId p.2 = Driver.id (DriverRow.driver row))
              (visited events results))
      Stats.init.
Proof.
  rewrite buildStandings_drivers.
  intros (d & -> & Hd)%elem_of_sort%list_elem_of_fmap.
  unfold driverRow. cbn [DriverRow.driver DriverRow.stats].
  by rewrite aggregate_lookup_driver.
Qed.

(** The points of a row of the team table. *)
Lemma standings_team_row v drivers teams events results driverById row :
  row ∈ Standings.teams
          (buildStandings v drivers teams events results driverById) →
  TeamRow.points row =
    total (teamCredit drivers driverById (Team.id (TeamRow.team row)))
          (visited events results).
Proof.
  rewrite buildStandings_teams.
  intros (t & -> & Ht)%elem_of_sort%list_elem_of_fmap.
  unfold teamRow. cbn [TeamRow.team TeamRow.points].
  apply aggregate_lookup_team.
Qed.

(** What a result of the event [e] adds to the row of its driver and to
    the rows of the teams, when the events have distinct identifiers: [row]
    is a row of the tables with the result and [row'] the row of the same
    driver or team without it. *)
Lemma result_in_driver_row v drivers teams events results1 results2 driverById
    e r row row' :
  NoDup (map Event.id events) → e ∈ events →
  ResultEntry.eventId r = Event.id e →
  row ∈ Standings.drivers
          (buildStandings v drivers teams events (results1 ++ r :: results2)
             driverById) →
  row' ∈ Standings.drivers
           (buildStandings v drivers teams events (results1 ++ results2)
              driverById) →
  DriverRow.driver row = DriverRow.driver row' →
  ResultEntry.driverId r = Driver.id (DriverRow.driver row) →
  DriverRow.points row = DriverRow.points row' + entryPts e r
  ∧ DriverRow.wins row =
      DriverRow.wins row' + (if decide (ResultEntry.position r = 1) then 1 else 0)
  ∧ DriverRow.podiums row =
      DriverRow.podiums row'
      + (if isPodium v (ResultEntry.position r) then 1 else 0).
Proof.
  intros Hnd He Hid Hrow Hrow' Hsame Hdriver.
  unfold DriverRow.points, DriverRow.wins, DriverRow.podiums.
  rewrite (standings_driver_row _ _ _ _ _ _ _ Hrow),
    (standings_driver_row _ _ _ _ _ _ _ Hrow'), <- Hsame.
  rewrite !points_recordAll, !wins_recordAll, !podiums_recordAll.
  rewrite !total_filter.
  rewrite !(total_visited_result _ events results1 r results2 e) by done.
  cbn [fst snd Stats.init Stats.points Stats.wins Stats.podiums].
  destruct (decide (ResultEntry.driverId r
                    = Driver.id (DriverRow.driver row))) as [_|?]; [|done].
  destruct (decide (ResultEntry.position r = 1)),
    (isPodium v (ResultEntry.position r)); split_and!; lia.
Qed.

Lemma result_in_team_row v drivers teams events results1 results2 driverById
    e r row row' :
  NoDup (map Event.id events) → e ∈ events →
  ResultEntry.eventId r = Event.id e →
  row ∈ Standings.teams
          (buildStandings v drivers teams events (results1 ++ r :: results2)
             driverById) →
  row' ∈ Standings.teams
           (buildStandings v drivers teams events (results1 ++ results2)
              driverById) →
  TeamRow.team row = TeamRow.team row' →
  TeamRow.points row =
    TeamRow.points row'
    + (if decide (ResultEntry.driverId r ∈ map Driver.id drivers
                  ∧ teamOf driverById r = Some (Team.id (TeamRow.team row)))
       then entryPts e r else 0).
Proof.
  intros Hnd He Hid Hrow Hrow' Hsame.
  rewrite (standings_team_row _ _ _ _ _ _ _ Hrow),
    (standings_team_row _ _ _ _ _ _ _ Hrow'), <- Hsame.
  by rewrite (total_visited_result _ events results1 r results2 e).
Qed.

End OneResult.

(** C2. The fastest-lap bonus of a result is 1 exactly when the event is a
    Grand Prix, the fastest lap is claimed and the position is at most 10,
    and 0 otherwise; it does not depend on the status of the result, and a
    Sprint result gains no bonus.  The bonus is awarded where the results are
    scored: every entry of an event has an outcome in [scoreEventEntries]
    whose points are the base points plus the bonus, and in the standings a
    result of a listed event adds its base points plus its bonus to the row
    of its driver and to the row of the team it is credited to. *)
Theorem fastest_lap_bonus_iff `{Host} (v : Version) (e : Event.t)
    (r : ResultEntry.t) (drivers : list Driver.t) (teams : list Team.t)
    (events : list Event.t) (driverById : gmap string Driver.t) :
  (flBonus e r = 1 ↔
     Event.type e = "GP" ∧ ResultEntry.fastestLap r = true
     ∧ ResultEntry.position r <= 10)
  ∧ (flBonus e r ≠ 1 → flBonus e r = 0)
  ∧ (∀ s, flBonus e (withStatus r s) = flBonus e r)
  ∧ (∀ v' d, Stats.points (recordResult v' e r d) =
             Stats.points d + basePts e r + flBonus e r)
  ∧ (∀ entries o, o ∈ scoreEventEntries e entries →
       ∃ r', r' ∈ entries
         ∧ ScoredOutcome.driverId o = ResultEntry.driverId r'
         ∧ ScoredOutcome.pts o = basePts e r' + flBonus e r'
         ∧ (ScoredOutcome.fastestLapApplied o = true ↔ flBonus e r' = 1))
  ∧ (∀ entries,
       map (λ o, (ScoredOutcome.driverId o, ScoredOutcome.pts o,
                  ScoredOutcome.fastestLapApplied o))
           (scoreEventEntries e entries)
       = map (λ r', (ResultEntry.driverId r', basePts e r' + flBonus e r',
                     bool_decide (flBonus e r' = 1)))
             (sort comparePositions entries))
  ∧ (Event.type e = "Sprint" → flBonus e r = 0 ∧ entryPts e r = basePts e r)
  ∧ (NoDup (map Event.id events) → e ∈ events →
     ResultEntry.eventId r = Event.id e →
     ∀ results1 results2,
       (∀ row row',
          row ∈ Standings.drivers
                  (buildStandings v drivers teams events
                     (results1 ++ r :: results2) driverById) →
          row' ∈ Standings.drivers
                   (buildStandings v drivers teams events
                      (results1 ++ results2) driverById) →
          DriverRow.driver row = DriverRow.driver row' →
          ResultEntry.driverId r = Driver.id (DriverRow.driver row) →
          DriverRow.points row
          = DriverRow.points row' + basePts e r + flBonus e r)
       ∧ (∀ row row',
            row ∈ Standings.teams
                    (buildStandings v drivers teams events
                       (results1 ++ r :: results2) driverById) →
            row' ∈ Standings.teams
                     (buildStandings v drivers teams events
                        (results1 ++ results2) driverById) →
            TeamRow.team row = TeamRow.team row' →
            TeamRow.points row
            = TeamRow.points row'
              + (if decide (ResultEntry.driverId r ∈ map Driver.id drivers
                            ∧ teamOf driverById r
                              = Some (Team.id (TeamRow.team row)))
                 then basePts e r + flBonus e r else 0))).
Proof.
  split_and!.
  - rewrite flBonus_spec. case_decide; intuition done.
  - rewrite flBonus_spec. by case_decide.
  - done.
  - intros v' d. simpl. unfold entryPts. lia.
  - intros entries o Ho. unfold scoreEventEntries in Ho.
    apply list_elem_of_fmap in Ho as (r' & -> & Hr').
    apply elem_of_sort in Hr'. exists r'. split_and!; try done. simpl.
    rewrite flBonus_spec. by case_decide.
  - intros entries. unfold scoreEventEntries. rewrite map_map.
    apply map_ext. intros r'. simpl. do 2 f_equal.
    rewrite flBonus_spec. by case_decide.
  - intros Ht. assert (flBonus e r = 0) as Hfl.
    { rewrite flBonus_spec. case_decide as Hc; [|done].
      destruct Hc as [Hgp _]. by rewrite Ht in Hgp. }
    split; [done|]. unfold entryPts. lia.
  - intros Hnd He Hid results1 results2. split.
    + intros row row' Hrow Hrow' Hsame Hdriver.
      destruct (result_in_driver_row v drivers teams events results1 results2
                  driverById e r row row') as (-> & _); try done.
      unfold entryPts. lia.
    + intros row row' Hrow Hrow' Hsame.
      by rewrite (result_in_team_row v drivers teams events results1 results2
                    driverById e r row row').
Qed.

Lemma fastest_lap_bonus_iff_witness :
  flBonus gpEvent retiredLeader = 1
  ∧ (flBonus sprintEvent sprintWinner = 0
     ∧ entryPts sprintEvent sprintWinner = basePts sprintEvent sprintWinner)
  ∧ DriverRow.mk ann (Stats.mk 1 1 1 1 [1])
    ∈ Standings.drivers
        (@buildStandings codeUnitHost MultiSeason seasonDrivers seasonTeams
           seasonEvents ([] ++ retiredLeader :: [])
           (driverByIdOf seasonDrivers))
  ∧ DriverRow.points (DriverRow.mk ann (Stats.mk 1 1 1 1 [1]))
    = DriverRow.points (DriverRow.mk ann Stats.init)
      + basePts gpEvent retiredLeader + flBonus gpEvent retiredLeader.
Proof.
  destruct (@fastest_lap_bonus_iff codeUnitHost MultiSeason gpEvent
              retiredLeader seasonDrivers seasonTeams seasonEvents
              (driverByIdOf seasonDrivers))
    as (Hiff & _ & _ & _ & _ & _ & _ & Htables).
  pose proof (@fastest_lap_bonus_iff codeUnitHost MultiSeason sprintEvent
                sprintWinner seasonDrivers seasonTeams seasonEvents
                (driverByIdOf seasonDrivers))
    as (_ & _ & _ & _ & _ & _ & Hsprint & _).
  assert (DriverRow.mk ann (Stats.mk 1 1 1 1 [1])
          ∈ Standings.drivers
              (@buildStandings codeUnitHost MultiSeason seasonDrivers
                 seasonTeams seasonEvents ([] ++ retiredLeader :: [])
                 (driverByIdOf seasonDrivers))) as Hrow.
  { vm_compute. apply list_elem_of_here. }
  split_and!.
  - apply Hiff. split_and!; [reflexivity|reflexivity|]. simpl. lia.
  - apply Hsprint. reflexivity.
  - apply Hsprint. reflexivity.
  - exact Hrow.
  - assert (DriverRow.mk ann Stats.init
            ∈ Standings.drivers
                (@buildStandings codeUnitHost MultiSeason seasonDrivers
                   seasonTeams seasonEvents ([] ++ [])
                   (driverByIdOf seasonDrivers))) as Hrow'.
    { vm_compute. apply list_elem_of_here. }
    assert (NoDup (map Event.id seasonEvents)) as Hnd
      by (apply (bool_decide_unpack _); by vm_compute).
    assert (gpEvent ∈ seasonEvents) as He by apply list_elem_of_here.
    exact (proj1 (Htables Hnd He eq_refl [] []) _ _ Hrow Hrow' eq_refl eq_refl).
Defined.

(** C3. A result whose status is not Finished has no base points, whatever
    its position.  In the standings such a result of a listed event adds only
    its fastest-lap bonus to the row of its driver and to the row of the team
    it is credited to; it adds a win to the row of its driver when the
    position is 1 and a podium when the position is at most 3, as the result
    of a finisher does.  (The podium test of src/App.jsx also requires the
    position to be at least 1, as every position of a result entry is.) *)
Theorem non_finisher_counts `{Host} (v : Version) (e : Event.t)
    (r : ResultEntry.t) (d : Stats.t) (drivers : list Driver.t)
    (teams : list Team.t) (events : list Event.t)
    (driverById : gmap string Driver.t) :
  ResultEntry.status r ≠ FIN →
  basePts e r = 0
  ∧ Stats.points (recordResult v e r d) = Stats.points d + flBonus e r
  ∧ (ResultEntry.position r = 1 →
     Stats.wins (recordResult v e r d) = Stats.wins d + 1)
  ∧ (ResultEntry.position r <= 3 →
     v = MultiSeason ∨ 1 <= ResultEntry.position r →
     Stats.podiums (recordResult v e r d) = Stats.podiums d + 1)
  ∧ (∀ driverById' driverStats teamPoints,
       driverStats !! ResultEntry.driverId r = Some d →
       let acc := scoreEntry v driverById' e (driverStats, teamPoints) r in
       acc.1 !! ResultEntry.driverId r = Some (recordResult v e r d)
       ∧ ∀ t, default 0 (acc.2 !! t) =
              default 0 (teamPoints !! t)
              + if decide (teamOf driverById' r = Some t) then flBonus e r
                else 0)
  ∧ (NoDup (map Event.id events) → e ∈ events →
     ResultEntry.eventId r = Event.id e →
     ∀ results1 results2,
       (∀ row row',
          row ∈ Standings.drivers
                  (buildStandings v drivers teams events
                     (results1 ++ r :: results2) driverById) →
          row' ∈ Standings.drivers
                   (buildStandings v drivers teams events
                      (results1 ++ results2) driverById) →
          DriverRow.driver row = DriverRow.driver row' →
          ResultEntry.driverId r = Driver.id (DriverRow.driver row) →
          DriverRow.points row = DriverRow.points row' + flBonus e r
          ∧ (ResultEntry.position r = 1 →
             DriverRow.wins row = DriverRow.wins row' + 1)
          ∧ (ResultEntry.position r ≠ 1 →
             DriverRow.wins row = DriverRow.wins row')
          ∧ (ResultEntry.position r <= 3 →
             v = MultiSeason ∨ 1 <= ResultEntry.position r →
             DriverRow.podiums row = DriverRow.podiums row' + 1))
       ∧ (∀ row row',
            row ∈ Standings.teams
                    (buildStandings v drivers teams events
                       (results1 ++ r :: results2) driverById) →
            row' ∈ Standings.teams
                     (buildStandings v drivers teams events
                        (results1 ++ results2) driverById) →
            TeamRow.team row = TeamRow.team row' →
            TeamRow.points row
            = TeamRow.points row'
              + (if decide (ResultEntry.driverId r ∈ map Driver.id drivers
                            ∧ teamOf driverById r
                              = Some (Team.id (TeamRow.team row)))
                 then flBonus e r else 0))).
Proof.
  intros Hst.
  assert (basePts e r = 0) as Hbase.
  { unfold basePts. by destruct (ResultEntry.status r). }
  assert (∀ p, p <= 3 → v = MultiSeason ∨ 1 <= p → isPodium v p = true)
    as Hpodium.
  { intros p Hp Hv. destruct Hv as [->|Hv]; [by apply Z.leb_le|].
    destruct v; simpl; [|by apply Z.leb_le].
    apply andb_true_iff. split; by apply Z.leb_le. }
  split_and!; [done|..].
  - simpl. unfold entryPts. lia.
  - intros Hp. simpl. by rewrite Hp.
  - intros Hp Hv. simpl. by rewrite Hpodium.
  - intros driverById' driverStats teamPoints Hd acc. subst acc.
    rewrite (scoreEntry_known _ _ _ _ _ _ d) by done. simpl. split.
    + by rewrite lookup_insert_eq.
    + intros t. unfold entryPts. rewrite Hbase.
      destruct (teamOf driverById' r) as [t'|]; [|case_decide; [done|lia]].
      case_decide as Ht.
      * injection Ht as ->. rewrite lookup_insert_eq. simpl. lia.
      * rewrite lookup_insert_ne by congruence. lia.
  - intros Hnd He Hid results1 results2. split.
    + intros row row' Hrow Hrow' Hsame Hdriver.
      destruct (result_in_driver_row v drivers teams events results1 results2
                  driverById e r row row') as (-> & -> & ->); try done.
      unfold entryPts. rewrite Hbase. split_and!.
      * lia.
      * intros Hp. by rewrite decide_True.
      * intros Hp. rewrite decide_False by done. lia.
      * intros Hp Hv. by rewrite Hpodium.
    + intros row row' Hrow Hrow' Hsame.
      rewrite (result_in_team_row v drivers teams events results1 results2
                 driverById e r row row') by done.
      unfold entryPts. by rewrite Hbase.
Qed.

Lemma non_finisher_counts_witness :
  basePts gpEvent retiredLeader = 0
  ∧ Stats.podiums (recordResult SingleSeason gpEvent retiredLeader Stats.init) =
      Stats.podiums Stats.init + 1
  ∧ DriverRow.mk ann (Stats.mk 1 1 1 1 [1])
    ∈ Standings.drivers
        (@buildStandings codeUnitHost MultiSeason seasonDrivers seasonTeams
           seasonEvents ([] ++ retiredLeader :: [])
           (driverByIdOf seasonDrivers))
  ∧ DriverRow.points (DriverRow.mk ann (Stats.mk 1 1 1 1 [1]))
    = DriverRow.points (DriverRow.mk ann Stats.init)
      + flBonus gpEvent retiredLeader
  ∧ DriverRow.wins (DriverRow.mk ann (Stats.mk 1 1 1 1 [1]))
    = DriverRow.wins (DriverRow.mk ann Stats.init) + 1
  ∧ DriverRow.podiums (DriverRow.mk ann (Stats.mk 1 1 1 1 [1]))
    = DriverRow.podiums (DriverRow.mk ann Stats.init) + 1.
Proof.
  assert (ResultEntry.status retiredLeader ≠ FIN) as Hst by discriminate.
  destruct (@non_finisher_counts codeUnitHost MultiSeason gpEvent retiredLeader
              Stats.init seasonDrivers seasonTeams seasonEvents
              (driverByIdOf seasonDrivers) Hst)
    as (Hbase & _ & _ & _ & _ & Htables).
  destruct (@non_finisher_counts codeUnitHost SingleSeason gpEvent
              retiredLeader Stats.init seasonDrivers seasonTeams seasonEvents
              (driverByIdOf seasonDrivers) Hst)
    as (_ & _ & _ & Hpodiums & _).
  assert (DriverRow.mk ann (Stats.mk 1 1 1 1 [1])
          ∈ Standings.drivers
              (@buildStandings codeUnitHost MultiSeason seasonDrivers
                 seasonTeams seasonEvents ([] ++ retiredLeader :: [])
                 (driverByIdOf seasonDrivers))) as Hrow.
  { vm_compute. apply list_elem_of_here. }
  assert (DriverRow.mk ann Stats.init
          ∈ Standings.drivers
              (@buildStandings codeUnitHost MultiSeason seasonDrivers
                 seasonTeams seasonEvents ([] ++ [])
                 (driverByIdOf seasonDrivers))) as Hrow'.
  { vm_compute. apply list_elem_of_here. }
  assert (NoDup (map Event.id seasonEvents)) as Hnd
    by (apply (bool_decide_unpack _); by vm_compute).
  assert (gpEvent ∈ seasonEvents) as He by apply list_elem_of_here.
  destruct (proj1 (Htables Hnd He eq_refl [] []) _ _ Hrow Hrow' eq_refl eq_refl)
    as (Hpoints & Hwins & _ & Hpods).
  split_and!.
  - exact Hbase.
  - apply Hpodiums; [|right]; discriminate.
  - exact Hrow.
  - exact Hpoints.
  - apply Hwins. reflexivity.
  - apply Hpods; [|by left]. discriminate.
Defined.
